(** * Visual Plot Editor: coordinate transform, picking, undo/redo and braces

    A shallow embedding of the core of the plot editor (class [PlotEditor] and
    the [Command] classes) together with the properties its design document
    states about it.

    Conventions of the embedding.
    - JavaScript numbers that carry geometry (plot and canvas coordinates,
      lengths, radii) are real numbers [R]; rounding of IEEE doubles is not
      modelled, so a statement "up to floating-point epsilon" becomes an
      exact equation.  Where the rounding decides how often a loop runs (the
      tick loops), the loop variable has a second model, rounded after
      every operation.
    - Integers that the code manipulates with bit operations (the colour
      hash, the colour counter) are [Z] with the 32-bit wrap-around written
      out.
    - JavaScript objects are shared by reference: plot objects live in a
      store ([eheap]) and the object list, the selection, the drag session
      and the commands hold references into it.
    - Canvas drawing calls are recorded as a list of path commands.  The
      picking raster is a function from pixels to colours, undetermined
      where the last path to touch a pixel covers it in part; how much of
      a pixel a path covers, and whether a drawing call throws, is supplied
      by the rasteriser (the browser). *)

From Stdlib Require Import Reals Lra Psatz RNsatz ZArith List Ascii String.
From Stdlib Require Import Sorted.
From stdpp Require Import base list gmap strings.
Import ListNotations.

(* ===================================================================== *)
(** ** CoordinateTransform: [canvasToPlot] and [plotToCanvas]             *)
(* ===================================================================== *)

Module Transform.
Local Open Scope R_scope.

(** [{x, y}] object literals. *)
Record xy := mkXY { px : R; py : R }.

(** [this.plot_bounds]. *)
Record PlotBounds := mkBounds { x_min : R; x_max : R; y_min : R; y_max : R }.

(** The fields of the editor that the transform reads:
    [plot_bounds], [axes_properties.aspect_ratio], [canvas_padding],
    [plot_width] and [plot_height]. *)
Record view := mkView {
  plot_bounds   : PlotBounds;
  aspect_ratio  : R;
  canvas_padding : R;
  plot_width    : R;
  plot_height   : R
}.

(** The four locals [effective_width, effective_height, x_offset, y_offset]. *)
Record layout := mkLayout {
  effective_width : R; effective_height : R; x_offset : R; y_offset : R
}.

(** The layout block at the head of [canvasToPlot] (lines 288-310). *)
Definition canvasToPlot_layout (v : view) : layout :=
  let plot_x_range := x_max (plot_bounds v) - x_min (plot_bounds v) in
  let plot_y_range := y_max (plot_bounds v) - y_min (plot_bounds v) in
  let aspect_ratio := aspect_ratio v in
  let canvas_aspect := plot_width v / plot_height v in
  let plot_aspect := (plot_x_range * aspect_ratio) / plot_y_range in
  if Rlt_dec canvas_aspect plot_aspect then
    let effective_height := plot_width v / plot_aspect in
    mkLayout (plot_width v) effective_height 0 ((plot_height v - effective_height) / 2)
  else
    let effective_width := plot_height v * plot_aspect in
    mkLayout effective_width (plot_height v) ((plot_width v - effective_width) / 2) 0.

Definition canvasToPlot (v : view) (c : xy) : xy :=
  let plot_x_range := x_max (plot_bounds v) - x_min (plot_bounds v) in
  let plot_y_range := y_max (plot_bounds v) - y_min (plot_bounds v) in
  let l := canvasToPlot_layout v in
  let plot_x := ((px c - canvas_padding v - x_offset l) / effective_width l) * plot_x_range
                + x_min (plot_bounds v) in
  let plot_y := y_max (plot_bounds v)
                - ((py c - canvas_padding v - y_offset l) / effective_height l) * plot_y_range in
  mkXY plot_x plot_y.

(** The layout block at the head of [plotToCanvas] (lines 329-351). *)
Definition plotToCanvas_layout (v : view) : layout :=
  let plot_x_range := x_max (plot_bounds v) - x_min (plot_bounds v) in
  let plot_y_range := y_max (plot_bounds v) - y_min (plot_bounds v) in
  let aspect_ratio := aspect_ratio v in
  let canvas_aspect := plot_width v / plot_height v in
  let plot_aspect := (plot_x_range * aspect_ratio) / plot_y_range in
  if Rlt_dec canvas_aspect plot_aspect then
    let effective_height := plot_width v / plot_aspect in
    mkLayout (plot_width v) effective_height 0 ((plot_height v - effective_height) / 2)
  else
    let effective_width := plot_height v * plot_aspect in
    mkLayout effective_width (plot_height v) ((plot_width v - effective_width) / 2) 0.

Definition plotToCanvas (v : view) (p : xy) : xy :=
  let plot_x_range := x_max (plot_bounds v) - x_min (plot_bounds v) in
  let plot_y_range := y_max (plot_bounds v) - y_min (plot_bounds v) in
  let l := plotToCanvas_layout v in
  let canvas_x := ((px p - x_min (plot_bounds v)) / plot_x_range) * effective_width l
                  + canvas_padding v + x_offset l in
  let canvas_y := canvas_padding v + y_offset l
                  + (1 - (py p - y_min (plot_bounds v)) / plot_y_range) * effective_height l in
  mkXY canvas_x canvas_y.

(** Bounds and viewport that the callers are required to supply:
    non-empty plot ranges and a viewport with a positive drawable extent. *)
Definition non_degenerate (v : view) : Prop :=
  x_min (plot_bounds v) < x_max (plot_bounds v) /\
  y_min (plot_bounds v) < y_max (plot_bounds v) /\
  0 < plot_width v /\ 0 < plot_height v.

Definition within_bounds (v : view) (p : xy) : Prop :=
  x_min (plot_bounds v) <= px p <= x_max (plot_bounds v) /\
  y_min (plot_bounds v) <= py p <= y_max (plot_bounds v).

(** The view the constructor sets up, on a canvas of 800 by 600 pixels (the
    page, not this code, fixes the size of the canvas). *)
Definition default_view : view :=
  mkView (mkBounds (-10) 10 (-10) 10) 1 60 (800 - 2 * 60) (600 - 2 * 60).

End Transform.

(* ===================================================================== *)
(** ** PickingEngine, part 1: the colour registry                         *)
(* ===================================================================== *)

Module Color.
Local Open Scope Z_scope.

(** A picking colour.  The code carries colours as strings [rgb(r,g,b)]
    built from three integers; the string is determined by, and determines,
    the triple, so the triple itself is the key of the colour maps. *)
Abbreviation color := (Z * Z * Z)%type (only parsing).

(** [ToInt32]: the signed 32-bit reading of an integer. *)
Definition to_int32 (z : Z) : Z :=
  let w := Z.land z 0xffffffff in
  if w <? 0x80000000 then w else w - 0x100000000.

(** [a << n] and [a & b] of JavaScript: both operands are read as signed
    32-bit integers and so is the result. *)
Definition js_shl (a n : Z) : Z := to_int32 (Z.shiftl (to_int32 a) n).
Definition js_and (a b : Z) : Z := to_int32 (Z.land (to_int32 a) (to_int32 b)).
(** [a >> n] on a signed 32-bit reading. *)
Definition js_shr (a n : Z) : Z := Z.shiftr (to_int32 a) n.

(** [object_id.charCodeAt(i)]; identifiers are ASCII strings. *)
Definition charCode (c : ascii) : Z := Z.of_N (N_of_ascii c).

(** The [for] loop of [generateUniqueColor]:
    [hash = ((hash << 5) - hash + object_id.charCodeAt(i)) & 0xffffffff]. *)
Fixpoint hash_loop (hash : Z) (object_id : string) : Z :=
  match object_id with
  | EmptyString => hash
  | String c rest =>
      hash_loop (js_and (js_shl hash 5 - hash + charCode c) 0xffffffff) rest
  end.

Definition enhance_contrast (value : Z) : Z :=
  if value <? 85 then Z.max 0 (value - 30)
  else if 170 <? value then Z.min 255 (value + 30)
  else if value <? 128 then 30 else 225.

(** [%] of JavaScript truncates towards zero: [Z.rem]. *)
Definition generateUniqueColor (object_id : string) (salt : Z) : color :=
  let hash := hash_loop (salt * 31) object_id in
  let hash := Z.abs hash in
  let r := Z.rem (hash * 73 + salt * 17) 256 in
  let g := Z.rem (hash * 151 + salt * 37) 256 in
  let b := Z.rem (hash * 233 + salt * 59) 256 in
  (enhance_contrast r, enhance_contrast g, enhance_contrast b).

Definition color_eqb (c d : color) : bool :=
  let '(r1, g1, b1) := c in
  let '(r2, g2, b2) := d in
  (r1 =? r2) && (g1 =? g2) && (b1 =? b2).

Definition background_colors : list color :=
  [ (0, 0, 0); (255, 255, 255); (240, 240, 240); (248, 249, 250) ].

Definition isBackgroundColor (c : color) : bool :=
  existsb (color_eqb c) background_colors.

(** [object_color_map] (colour to id), [id_color_map] (id to colour) and
    [next_color_id]. *)
Record registry := mkRegistry {
  object_color_map : gmap color string;
  id_color_map     : gmap string color;
  next_color_id    : Z
}.

(** The registry the constructor creates. *)
Definition empty_registry : registry := mkRegistry ∅ ∅ 1.

Definition has_color (reg : registry) (c : color) : bool :=
  bool_decide (is_Some (object_color_map reg !! c)).

Definition generateSequentialColor (reg : registry) : color * registry :=
  let color_id := next_color_id reg in
  let reg' := mkRegistry (object_color_map reg) (id_color_map reg) (color_id + 1) in
  let r := js_and color_id 0xFF in
  let g := js_and (js_shr color_id 8) 0xFF in
  let b := js_and (js_shr color_id 16) 0xFF in
  ((r, g, b), reg').

Definition max_attempts : nat := 1000.

(** The [while] loop of [getObjectColor].  [remaining] counts
    [max_attempts - collision_attempts], so that [remaining = 0] is the
    failure of the guard [collision_attempts < max_attempts]; the result is
    the final [collision_attempts] and [color]. *)
Fixpoint retry_loop (reg : registry) (object_id : string)
    (remaining : nat) (collision_attempts : Z) (c : color) : Z * color :=
  match remaining with
  | O => (collision_attempts, c)
  | S k =>
      if has_color reg c || isBackgroundColor c then
        let collision_attempts := collision_attempts + 1 in
        retry_loop reg object_id k collision_attempts
                   (generateUniqueColor object_id collision_attempts)
      else (collision_attempts, c)
  end.

Definition getObjectColor (reg : registry) (object_id : string) : color * registry :=
  match id_color_map reg !! object_id with
  | Some c => (c, reg)
  | None =>
      let '(collision_attempts, c) :=
        retry_loop reg object_id max_attempts 0 (generateUniqueColor object_id 0) in
      let '(c, reg) :=
        if Z.of_nat max_attempts <=? collision_attempts
        then generateSequentialColor reg
        else (c, reg) in
      (c, mkRegistry (<[c := object_id]> (object_color_map reg))
                     (<[object_id := c]> (id_color_map reg))
                     (next_color_id reg))
  end.

(** Colours handed out to a sequence of ids, in order, threading the
    registry as successive calls of [getObjectColor] do. *)
Fixpoint assign_colors (reg : registry) (ids : list string) : list color * registry :=
  match ids with
  | [] => ([], reg)
  | i :: rest =>
      let '(c, reg) := getObjectColor reg i in
      let '(cs, reg) := assign_colors reg rest in
      (c :: cs, reg)
  end.

(** All words of [n] blocks, each block being [a] or [b]. *)
Fixpoint block_words (a b : string) (n : nat) : list string :=
  match n with
  | O => [EmptyString]
  | S k => map (String.append a) (block_words a b k)
           ++ map (String.append b) (block_words a b k)
  end.

(** 235 distinct identifiers, all with the same hash at every salt. *)
Definition colliding_ids : list string := take 235 (block_words "Ay" "BZ" 8).

(** What happens to the last identifier of [last :: ...] once the ids
    before it are registered: the number of attempts of the retry loop, the
    colour returned, the owner of that colour before and after the call,
    and the colour of the id at position 45. *)
Definition fallback_report (ids : list string) (last : string)
  : Z * color * option string * option string * option color :=
  let '(cs, reg) := assign_colors empty_registry ids in
  let attempts := fst (retry_loop reg last max_attempts 0 (generateUniqueColor last 0)) in
  let '(c, reg') := getObjectColor reg last in
  (attempts, c, object_color_map reg !! c, object_color_map reg' !! c, cs !! 45%nat).

(** *** Registering ids that hash alike *)

(** The colours [generateUniqueColor] proposes for an id at the salts
    [0 .. max_attempts - 1], in order. *)
Definition candidates (object_id : string) : list color :=
  map (fun n => generateUniqueColor object_id (Z.of_nat n)) (seq 0 max_attempts).

(** The colour [generateSequentialColor] builds from the counter. *)
Definition sequential_color (color_id : Z) : color :=
  (js_and color_id 0xFF, js_and (js_shr color_id 8) 0xFF, js_and (js_shr color_id 16) 0xFF).

(** The entries of [object_color_map] as a list, newest first, and the
    owner of a colour in it. *)
Fixpoint owner (taken : list (color * string)) (c : color) : option string :=
  match taken with
  | [] => None
  | (c', i) :: rest => if color_eqb c c' then Some i else owner rest c
  end.

Definition taken_or_background (taken : list (color * string)) (c : color) : bool :=
  match owner taken c with
  | Some _ => true
  | None => isBackgroundColor c
  end.

(** The candidates that remain once the leading ones that satisfy [bad]
    are passed. *)
Fixpoint skip_bad (bad : color -> bool) (rest : list color) : list color :=
  match rest with
  | [] => []
  | c :: rest' => if bad c then skip_bad bad rest' else rest
  end.

Definition skip_taken (taken : list (color * string)) (rest : list color)
  : list color :=
  skip_bad (taken_or_background taken) rest.

(** Registering, one after the other, fresh ids that all have the same
    candidates: the entries of the colour map, the counter, and the
    candidates not yet passed.  An id takes the first remaining candidate
    that is free, or the sequential colour when none remains. *)
Record fill_state := mkFill {
  fill_taken : list (color * string);
  fill_next : Z;
  fill_rest : list color
}.

Definition fill_step (st : fill_state) (object_id : string) : color * fill_state :=
  match skip_taken (fill_taken st) (fill_rest st) with
  | [] =>
      let c := sequential_color (fill_next st) in
      (c, mkFill ((c, object_id) :: fill_taken st) (fill_next st + 1) [])
  | c :: rest' =>
      (c, mkFill ((c, object_id) :: fill_taken st) (fill_next st) (c :: rest'))
  end.

Fixpoint fill (st : fill_state) (ids : list string) : list color * fill_state :=
  match ids with
  | [] => ([], st)
  | i :: rest =>
      let '(c, st) := fill_step st i in
      let '(cs, st) := fill st rest in
      (c :: cs, st)
  end.

(** The first of the colliding ids. *)
Definition base_id : string := "AyAyAyAyAyAyAyAy".

End Color.

(* ===================================================================== *)
(** ** SceneStore: plot objects, the store and the editor state           *)
(* ===================================================================== *)

Module Scene.
Import Transform.
Local Open Scope Z_scope.

(** The [type] tag of a plot object. *)
Inductive object_type := TPoint | TLine | TArea | TText | TBrace | TFunction.

(** A plot object, as a typed view of the JavaScript object: the tag, the
    id, the paint order and the geometry fields the modelled code reads.
    Colours, fonts and labels, which only the visible renderer reads, are
    left out.  [obj_width] and [obj_elevation] may be missing ([None] is
    [undefined]); an empty [obj_style] stands for a missing style (both are
    falsy, and the code reads the field only through [||]).  Geometry fields
    that an object literal does not define hold [0]; no modelled operation
    reads them for that type. *)
Record plot_object := mkObject {
  obj_type : object_type;
  obj_id : string;
  obj_z_index : Z;
  obj_x : R; obj_y : R;
  obj_x1 : R; obj_y1 : R; obj_x2 : R; obj_y2 : R;
  obj_size : R;
  obj_width : option R;
  obj_elevation : option R;
  obj_mirrored : bool;
  obj_style : string
}.

(** References to objects: positions in the store.  Objects are never
    freed; allocation appends. *)
Abbreviation ref := nat (only parsing).
Abbreviation heap := (list plot_object) (only parsing).

(** The coordinate bundles built by [getObjectCoordinates]:
    [{x, y}], [{x1, y1, x2, y2}] or [{}]. *)
Inductive coords :=
| XY (x y : R)
| X1Y1X2Y2 (x1 y1 x2 y2 : R)
| NoCoords.

(** Property names and values of [ModifyObjectCommand], for the fields of
    the typed record. *)
Inductive property :=
| prop_x | prop_y | prop_x1 | prop_y1 | prop_x2 | prop_y2
| prop_z_index | prop_size | prop_width | prop_elevation
| prop_mirrored | prop_style.

Inductive value :=
| VNum (r : R) | VInt (z : Z) | VBool (b : bool) | VStr (s : string) | VUndefined.

(** The five command classes.  The [plot_editor] field of each class is the
    editor the command is applied to; the remaining fields are kept. *)
Inductive command :=
| AddObjectCommand (object : ref)
| DeleteObjectCommand (object : ref) (object_index : Z)
| ModifyObjectCommand (object : ref) (prop : property) (old_value new_value : value)
| MoveObjectCommand (object : ref) (old_coords new_coords : coords)
| ClearPlotCommand (saved_objects : list ref) (saved_selection : option ref).

Record dragging_state := mkDrag {
  is_dragging : bool;
  dragged_object : option ref;
  drag_start_mouse : option xy;
  drag_start_coords : option xy;
  original_coords : option coords
}.

(** The scene, history and drag session of a [PlotEditor].  The canvases,
    the DOM panels and the picking colour registry are separate components:
    [redraw], [updateObjectList], [updatePropertiesPanel] and
    [updateUndoRedoButtons] write only to them, and are therefore not part of
    the transitions below. *)
Record editor := mkEditor {
  eheap : heap;
  plot_objects : list ref;
  selected_object : option ref;
  command_history : list command;
  current_command_index : Z;
  max_history_size : Z;
  dragging : dragging_state
}.

(** The state the constructor leaves. *)
Definition no_drag : dragging_state := mkDrag false None None None None.
Definition new_editor : editor := mkEditor [] [] None [] (-1) 50 no_drag.

Definition set_heap (h : heap) (ed : editor) : editor :=
  mkEditor h (plot_objects ed) (selected_object ed) (command_history ed)
           (current_command_index ed) (max_history_size ed) (dragging ed).
Definition set_plot_objects (l : list ref) (ed : editor) : editor :=
  mkEditor (eheap ed) l (selected_object ed) (command_history ed)
           (current_command_index ed) (max_history_size ed) (dragging ed).
Definition set_selected (o : option ref) (ed : editor) : editor :=
  mkEditor (eheap ed) (plot_objects ed) o (command_history ed)
           (current_command_index ed) (max_history_size ed) (dragging ed).
Definition set_history (l : list command) (i : Z) (ed : editor) : editor :=
  mkEditor (eheap ed) (plot_objects ed) (selected_object ed) l i
           (max_history_size ed) (dragging ed).
Definition set_dragging (d : dragging_state) (ed : editor) : editor :=
  mkEditor (eheap ed) (plot_objects ed) (selected_object ed) (command_history ed)
           (current_command_index ed) (max_history_size ed) d.

(** *** Array primitives *)

(** [arr.findIndex(pred)], [-1] when no element satisfies [pred]. *)
Fixpoint findIndex_from {A} (pred : A -> bool) (l : list A) (i : Z) : Z :=
  match l with
  | [] => -1
  | a :: l' => if pred a then i else findIndex_from pred l' (i + 1)
  end.
Definition findIndex {A} (pred : A -> bool) (l : list A) : Z := findIndex_from pred l 0.

(** The actual start of [splice(start, ...)]: a negative [start] counts from
    the end, and the result is clamped to [0 .. length]. *)
Definition splice_start {A} (l : list A) (start : Z) : nat :=
  if start <? 0 then Z.to_nat (Z.max (Z.of_nat (length l) + start) 0)
  else Z.to_nat (Z.min start (Z.of_nat (length l))).

(** [arr.splice(start, 1)] and [arr.splice(start, 0, item)]. *)
Definition splice_remove {A} (l : list A) (start : Z) : list A :=
  let s := splice_start l start in take s l ++ drop (S s) l.
Definition splice_insert {A} (l : list A) (start : Z) (item : A) : list A :=
  let s := splice_start l start in take s l ++ item :: drop s l.

(** [arr.slice(0, end)]. *)
Definition slice0 {A} (l : list A) (e : Z) : list A :=
  if e <? 0 then take (Z.to_nat (Z.max (Z.of_nat (length l) + e) 0)) l
  else take (Z.to_nat e) l.

(** [arr[i]]; [None] is [undefined]. *)
Definition index {A} (l : list A) (i : Z) : option A :=
  if i <? 0 then None else l !! Z.to_nat i.

(** [arr.shift()], the array that remains. *)
Definition shift {A} (l : list A) : list A := tail l.

(** *** Objects in the store *)

(** [obj.id] of a referenced object. *)
Definition id_of (h : heap) (r : ref) : option string := obj_id <$> h !! r.

(** [obj => obj.id === target.id]. *)
Definition same_id (h : heap) (target : ref) (r : ref) : bool :=
  bool_decide (id_of h r = id_of h target).

Definition getObjectCoordinates (obj : plot_object) : coords :=
  match obj_type obj with
  | TPoint | TText => XY (obj_x obj) (obj_y obj)
  | TLine | TArea | TBrace => X1Y1X2Y2 (obj_x1 obj) (obj_y1 obj) (obj_x2 obj) (obj_y2 obj)
  | TFunction => NoCoords
  end.

Definition with_xy (obj : plot_object) (x y : R) : plot_object :=
  mkObject (obj_type obj) (obj_id obj) (obj_z_index obj) x y
           (obj_x1 obj) (obj_y1 obj) (obj_x2 obj) (obj_y2 obj)
           (obj_size obj) (obj_width obj) (obj_elevation obj)
           (obj_mirrored obj) (obj_style obj).
Definition with_x1y1x2y2 (obj : plot_object) (x1 y1 x2 y2 : R) : plot_object :=
  mkObject (obj_type obj) (obj_id obj) (obj_z_index obj) (obj_x obj) (obj_y obj)
           x1 y1 x2 y2
           (obj_size obj) (obj_width obj) (obj_elevation obj)
           (obj_mirrored obj) (obj_style obj).

(** [setObjectCoordinates(obj, coords)].  Reading a field that the bundle
    does not have would store [undefined]; the typed record cannot hold
    that, and the result is [None]. *)
Definition setObjectCoordinates (obj : plot_object) (c : coords) : option plot_object :=
  match obj_type obj with
  | TPoint | TText =>
      match c with XY x y => Some (with_xy obj x y) | _ => None end
  | TLine | TArea | TBrace =>
      match c with
      | X1Y1X2Y2 x1 y1 x2 y2 => Some (with_x1y1x2y2 obj x1 y1 x2 y2)
      | _ => None
      end
  | TFunction => Some obj
  end.

(** [updateObjectCoordinates(obj, dx, dy)], with [original] the session's
    [original_coords]; [None] where the code would store [NaN]. *)
Definition updateObjectCoordinates (original : coords) (obj : plot_object) (dx dy : R)
  : option plot_object :=
  match obj_type obj with
  | TPoint | TText =>
      match original with
      | XY x y => Some (with_xy obj (x + dx) (y + dy))
      | _ => None
      end
  | TLine | TArea | TBrace =>
      match original with
      | X1Y1X2Y2 x1 y1 x2 y2 =>
          Some (with_x1y1x2y2 obj (x1 + dx) (y1 + dy) (x2 + dx) (y2 + dy))
      | _ => None
      end
  | TFunction => Some obj
  end.

(** [obj[property] = value].  A value of another type than the field's is
    not representable in the typed record and leaves it as it is; the
    property panel always passes the field's type. *)
Definition set_property (p : property) (v : value) (o : plot_object) : plot_object :=
  let mk z x y x1 y1 x2 y2 sz w e m st :=
    mkObject (obj_type o) (obj_id o) z x y x1 y1 x2 y2 sz w e m st in
  let z := obj_z_index o in let x := obj_x o in let y := obj_y o in
  let x1 := obj_x1 o in let y1 := obj_y1 o in
  let x2 := obj_x2 o in let y2 := obj_y2 o in
  let sz := obj_size o in let w := obj_width o in let e := obj_elevation o in
  let m := obj_mirrored o in let st := obj_style o in
  match p, v with
  | prop_x, VNum r => mk z r y x1 y1 x2 y2 sz w e m st
  | prop_y, VNum r => mk z x r x1 y1 x2 y2 sz w e m st
  | prop_x1, VNum r => mk z x y r y1 x2 y2 sz w e m st
  | prop_y1, VNum r => mk z x y x1 r x2 y2 sz w e m st
  | prop_x2, VNum r => mk z x y x1 y1 r y2 sz w e m st
  | prop_y2, VNum r => mk z x y x1 y1 x2 r sz w e m st
  | prop_z_index, VInt n => mk n x y x1 y1 x2 y2 sz w e m st
  | prop_size, VNum r => mk z x y x1 y1 x2 y2 r w e m st
  | prop_width, VNum r => mk z x y x1 y1 x2 y2 sz (Some r) e m st
  | prop_width, VUndefined => mk z x y x1 y1 x2 y2 sz None e m st
  | prop_elevation, VNum r => mk z x y x1 y1 x2 y2 sz w (Some r) m st
  | prop_elevation, VUndefined => mk z x y x1 y1 x2 y2 sz w None m st
  | prop_mirrored, VBool b => mk z x y x1 y1 x2 y2 sz w e b st
  | prop_style, VStr s => mk z x y x1 y1 x2 y2 sz w e m s
  | _, _ => o
  end.

(** In-place update of a referenced object. *)
Definition update_object (f : plot_object -> option plot_object) (r : ref) (ed : editor)
  : option editor :=
  o ← eheap ed !! r;
  o' ← f o;
  Some (set_heap (<[r := o']> (eheap ed)) ed).

(** [selectObject(obj)]. *)
Definition selectObject (o : option ref) (ed : editor) : editor := set_selected o ed.

End Scene.

(* ===================================================================== *)
(** ** CommandEngine: commands, history, drag commit                      *)
(* ===================================================================== *)

Module Commands.
Import Transform Scene.
Local Open Scope Z_scope.

(** [new DeleteObjectCommand(editor, object)]: the index is looked up, by
    id, when the command is created. *)
Definition newDeleteObjectCommand (ed : editor) (object : ref) : command :=
  DeleteObjectCommand object (findIndex (same_id (eheap ed) object) (plot_objects ed)).

(** [new ClearPlotCommand(editor)]: copies the list and the selection. *)
Definition newClearPlotCommand (ed : editor) : command :=
  ClearPlotCommand (plot_objects ed) (selected_object ed).

(** [command.execute()]. *)
Definition execute (c : command) (ed : editor) : option editor :=
  match c with
  | AddObjectCommand object =>
      Some (selectObject (Some object)
              (set_plot_objects (plot_objects ed ++ [object]) ed))
  | DeleteObjectCommand object object_index =>
      if bool_decide (object_index <> -1) then
        Some (set_selected None
                (set_plot_objects (splice_remove (plot_objects ed) object_index) ed))
      else Some ed
  | ModifyObjectCommand object prop old_value new_value =>
      update_object (fun o => Some (set_property prop new_value o)) object ed
  | MoveObjectCommand object old_coords new_coords =>
      update_object (fun o => setObjectCoordinates o new_coords) object ed
  | ClearPlotCommand saved_objects saved_selection =>
      Some (set_selected None (set_plot_objects [] ed))
  end.

(** [command.undo()]. *)
Definition undo_command (c : command) (ed : editor) : option editor :=
  match c with
  | AddObjectCommand object =>
      let index := findIndex (same_id (eheap ed) object) (plot_objects ed) in
      if bool_decide (index <> -1) then
        Some (set_selected None
                (set_plot_objects (splice_remove (plot_objects ed) index) ed))
      else Some ed
  | DeleteObjectCommand object object_index =>
      Some (selectObject (Some object)
              (set_plot_objects (splice_insert (plot_objects ed) object_index object) ed))
  | ModifyObjectCommand object prop old_value new_value =>
      update_object (fun o => Some (set_property prop old_value o)) object ed
  | MoveObjectCommand object old_coords new_coords =>
      update_object (fun o => setObjectCoordinates o old_coords) object ed
  | ClearPlotCommand saved_objects saved_selection =>
      Some (set_selected saved_selection (set_plot_objects saved_objects ed))
  end.

(** The bookkeeping shared by [executeCommand] and [stopDragging]:
    truncate to the cursor, push, advance, and evict the oldest entry when
    the history is longer than [max_history_size]. *)
Definition push_history (c : command) (ed : editor) : editor :=
  let history := command_history ed ++ [c] in
  let i := current_command_index ed + 1 in
  if max_history_size ed <? Z.of_nat (length history)
  then set_history (shift history) (i - 1) ed
  else set_history history i ed.

Definition truncate_history (ed : editor) : editor :=
  set_history (slice0 (command_history ed) (current_command_index ed + 1))
              (current_command_index ed) ed.

(** [executeCommand(command)]. *)
Definition executeCommand (c : command) (ed : editor) : option editor :=
  let ed := truncate_history ed in
  ed ← execute c ed;
  Some (push_history c ed).

(** [undo()].  [None] is the [TypeError] of calling a method of
    [undefined], when the cursor points outside the history. *)
Definition undo (ed : editor) : option editor :=
  if 0 <=? current_command_index ed then
    c ← index (command_history ed) (current_command_index ed);
    ed ← undo_command c ed;
    Some (set_history (command_history ed) (current_command_index ed - 1) ed)
  else Some ed.

(** [redo()]. *)
Definition redo (ed : editor) : option editor :=
  if current_command_index ed <? Z.of_nat (length (command_history ed)) - 1 then
    let ed := set_history (command_history ed) (current_command_index ed + 1) ed in
    c ← index (command_history ed) (current_command_index ed);
    execute c ed
  else Some ed.

(** *** Dragging *)

(** [startDragging(obj, mouse_coords, plot_coords)]. *)
Definition startDragging (obj : ref) (mouse_coords plot_coords : xy) (ed : editor)
  : option editor :=
  o ← eheap ed !! obj;
  Some (set_dragging
          (mkDrag true (Some obj) (Some mouse_coords) (Some plot_coords)
                  (Some (getObjectCoordinates o))) ed).

(** [updateDragging(mouse_coords, plot_coords)].  [None] where the code
    would throw (reading a field of [null]) or store [NaN]. *)
Definition updateDragging (mouse_coords plot_coords : xy) (ed : editor) : option editor :=
  let d := dragging ed in
  match is_dragging d, dragged_object d with
  | true, Some obj =>
      start ← drag_start_coords d;
      original ← original_coords d;
      let dx := (px plot_coords - px start)%R in
      let dy := (py plot_coords - py start)%R in
      update_object (fun o => updateObjectCoordinates original o dx dy) obj ed
  | _, _ => Some ed
  end.

Definition coords_eq_dec (a b : coords) : {a = b} + {a <> b}.
Proof. repeat decide equality; apply Req_dec_T. Defined.

(** [JSON.stringify(original_coords) !== JSON.stringify(current_coords)]:
    two bundles of real numbers print alike exactly when they are equal. *)
Definition moved (original current : coords) : bool :=
  if coords_eq_dec original current then false else true.

(** [stopDragging()]. *)
Definition stopDragging (ed : editor) : option editor :=
  let d := dragging ed in
  ed ← match is_dragging d, dragged_object d, original_coords d with
       | true, Some obj, Some original =>
           o ← eheap ed !! obj;
           let current_coords := getObjectCoordinates o in
           if moved original current_coords then
             let command := MoveObjectCommand obj original current_coords in
             Some (push_history command (truncate_history ed))
           else Some ed
       | _, _, _ => Some ed
       end;
  Some (set_dragging no_drag ed).

(** Pointer moves of one drag session. *)
Fixpoint updateDragging_all (moves : list (xy * xy)) (ed : editor) : option editor :=
  match moves with
  | [] => Some ed
  | (mouse_coords, plot_coords) :: rest =>
      ed ← updateDragging mouse_coords plot_coords ed;
      updateDragging_all rest ed
  end.

(** *** Entry points that create commands *)

(** The object literal of [addArea]. *)
Definition area_object (new_id : string) (start_coords end_coords : xy) : plot_object :=
  mkObject TArea new_id 0 0%R 0%R
           (Rmin (px start_coords) (px end_coords))
           (Rmin (py start_coords) (py end_coords))
           (Rmax (px start_coords) (px end_coords))
           (Rmax (py start_coords) (py end_coords))
           0%R None None false EmptyString.

(** [addArea(start_coords, end_coords)]; [new_id] is what [generateId()]
    returns (a timestamp and a random suffix). *)
Definition addArea (new_id : string) (start_coords end_coords : xy) (ed : editor)
  : option editor :=
  let area_ref := length (eheap ed) in
  let ed := set_heap (eheap ed ++ [area_object new_id start_coords end_coords]) ed in
  executeCommand (AddObjectCommand area_ref) ed.

(** [clearPlot()] and [deleteSelectedObject()]. *)
Definition clearPlot (ed : editor) : option editor :=
  if 0 <? Z.of_nat (length (plot_objects ed))
  then executeCommand (newClearPlotCommand ed) ed
  else Some ed.

Definition deleteSelectedObject (ed : editor) : option editor :=
  match selected_object ed with
  | Some obj => executeCommand (newDeleteObjectCommand ed obj) ed
  | None => Some ed
  end.

(** Runs of history operations. *)
Fixpoint executeCommands (cs : list command) (ed : editor) : option editor :=
  match cs with
  | [] => Some ed
  | c :: rest => ed ← executeCommand c ed; executeCommands rest ed
  end.

Fixpoint undo_times (n : nat) (ed : editor) : option editor :=
  match n with
  | O => Some ed
  | S k => ed ← undo ed; undo_times k ed
  end.

(** *** Scene invariants *)

(** Every id in the object list is unique. *)
Definition ids_unique (ed : editor) : Prop :=
  NoDup (id_of (eheap ed) <$> plot_objects ed).

(** The selection, when present, references an object of the list. *)
Definition selection_live (ed : editor) : Prop :=
  forall r, selected_object ed = Some r -> r ∈ plot_objects ed.

(** A [ClearPlotCommand] whose snapshot was taken from a scene with a
    live selection; the other commands carry no selection. *)
Definition snapshot_live (c : command) : Prop :=
  match c with
  | ClearPlotCommand saved_objects saved_selection =>
      forall r, saved_selection = Some r -> r ∈ saved_objects
  | _ => True
  end.

(** The object of a [ModifyObjectCommand] or [MoveObjectCommand] is in the
    store, and the coordinate bundles of a [MoveObjectCommand] have the
    fields of the object's type ([stopDragging] takes both from
    [getObjectCoordinates] of that object). *)
Definition command_fits (c : command) (ed : editor) : Prop :=
  match c with
  | ModifyObjectCommand object _ _ _ => is_Some (eheap ed !! object)
  | MoveObjectCommand object old_coords new_coords =>
      exists o, eheap ed !! object = Some o /\
                is_Some (setObjectCoordinates o old_coords) /\
                is_Some (setObjectCoordinates o new_coords)
  | _ => True
  end.

(** The cursor is in [-1 .. length - 1]. *)
Definition cursor_in_range (ed : editor) : Prop :=
  -1 <= current_command_index ed < Z.of_nat (length (command_history ed)).

(** The history holds at most [max_history_size] commands. *)
Definition history_bounded (ed : editor) : Prop :=
  Z.of_nat (length (command_history ed)) <= max_history_size ed.

(** The three operations on the history. *)
Inductive history_op := OpExecute (c : command) | OpUndo | OpRedo.

Definition run_op (op : history_op) (ed : editor) : option editor :=
  match op with
  | OpExecute c => executeCommand c ed
  | OpUndo => undo ed
  | OpRedo => redo ed
  end.

Definition sample_object (new_id : string) (x y : R) : plot_object :=
  mkObject TPoint new_id 0 x y 0%R 0%R 0%R 0%R 5%R None None false EmptyString.

(** Three points [a], [b], [c] in the list, in that order. *)
Definition three_points : editor :=
  mkEditor [sample_object "a" 0%R 0%R; sample_object "b" 1%R 1%R; sample_object "c" 2%R 2%R]
           [0%nat; 1%nat; 2%nat] (Some 1%nat) [] (-1) 50 no_drag.

(** [o] differs from [o0] in its coordinates at most: writing the
    coordinates of [o0] into [o] gives [o0]. *)
Definition same_but_coords (o o0 : plot_object) : Prop :=
  setObjectCoordinates o (getObjectCoordinates o0) = Some o0.

(** The state of a drag session on [r], started when the object was [o0]. *)
Definition in_session (r : ref) (o0 : plot_object) (ed0 ed : editor) : Prop :=
  is_dragging (dragging ed) = true /\
  dragged_object (dragging ed) = Some r /\
  original_coords (dragging ed) = Some (getObjectCoordinates o0) /\
  command_history ed = command_history ed0 /\
  current_command_index ed = current_command_index ed0 /\
  max_history_size ed = max_history_size ed0 /\
  plot_objects ed = plot_objects ed0 /\
  selected_object ed = selected_object ed0 /\
  exists o, eheap ed !! r = Some o /\ same_but_coords o o0.

(** One point at the origin, selected, with an empty history. *)
Definition one_point : editor :=
  mkEditor [sample_object "p" 0%R 0%R] [0%nat] (Some 0%nat) [] (-1) 50 no_drag.

End Commands.

(* ===================================================================== *)
(** ** PickingEngine, part 2: the picking raster                          *)
(* ===================================================================== *)

Module Picking.
Import Scene Color.
Local Open Scope Z_scope.

Abbreviation pixel := (Z * Z)%type (only parsing).

(** How much of a pixel a filled or stroked path covers.  The picking
    context sets [imageSmoothingEnabled = false], which governs images drawn
    with [drawImage]; paths are antialiased all the same, so a pixel on the
    edge of a path is covered in part. *)
Inductive coverage := Outside | Partial | Full.

(** The picking canvas as far as its content is determined: [Some c] is a
    pixel that [getImageData] reads as [c], [None] a pixel that the last
    path to touch it covered in part, which holds a blend of the paint and
    of what was there before.  After [clearRect] every pixel is transparent
    black, read as [0, 0, 0]. *)
Definition raster := Z * Z -> option (Z * Z * Z).
Definition clearRect : raster := fun _ => Some (0, 0, 0).

(** What a pixel holds after a path covering it by [cov] is painted with
    the opaque colour [c]. *)
Definition touch (cov : coverage) (c : color) (cell : option color) : option color :=
  match cov with
  | Full => Some c
  | Partial => None
  | Outside => cell
  end.

(** Filling or stroking a path with the current [fillStyle] /
    [strokeStyle]. *)
Definition paint (region : pixel -> coverage) (c : color) (rs : raster) : raster :=
  fun p => touch (region p) c (rs p).

(** An image, as [getImageData] reads it, that agrees with the raster at
    every pixel the raster determines. *)
Definition reads (img : Z * Z -> Z * Z * Z) (rs : raster) : Prop :=
  forall p c, rs p = Some c -> img p = c.

(** [[...objs].sort((a, b) => (a.z_index || 0) - (b.z_index || 0))]:
    a stable sort on [z_index], lowest first. *)
Fixpoint insert_by_z (o : plot_object) (l : list plot_object) : list plot_object :=
  match l with
  | [] => [o]
  | o' :: l' =>
      if obj_z_index o' <? obj_z_index o then o' :: insert_by_z o l'
      else o :: o' :: l'
  end.

Fixpoint sort_by_z (l : list plot_object) : list plot_object :=
  match l with
  | [] => []
  | o :: l' => insert_by_z o (sort_by_z l')
  end.

Section Rasteriser.
(** What the browser makes of the drawing calls issued for an object:
    [None] when a call throws ([arc] with a negative radius), otherwise the
    coverage of every pixel by the inflated hit region that
    [drawPickingBBox] fills (circle, oriented quadrilateral, rectangle,
    text box), and by the shape that [drawPickingObject] draws. *)
Variable bbox_region : plot_object -> option (pixel -> coverage).
Variable shape_region : plot_object -> option (pixel -> coverage).

(** [drawPickingBBox(obj, color)]: the [switch] has no case for functions.
    [None] is an exception. *)
Definition drawPickingBBox (obj : plot_object) (c : color) (rs : raster) : option raster :=
  match obj_type obj with
  | TFunction => Some rs
  | _ => match bbox_region obj with
         | Some region => Some (paint region c rs)
         | None => None
         end
  end.

(** [drawPickingObject(obj, color)]. *)
Definition drawPickingObject (obj : plot_object) (c : color) (rs : raster) : option raster :=
  match shape_region obj with
  | Some region => Some (paint region c rs)
  | None => None
  end.

(** First pass of [renderPickingCanvas]. *)
Fixpoint first_pass (objs : list plot_object) (reg : registry) (rs : raster)
  : option (registry * raster) :=
  match objs with
  | [] => Some (reg, rs)
  | obj :: rest =>
      let '(c, reg) := getObjectColor reg (obj_id obj) in
      match drawPickingBBox obj c rs with
      | Some rs => first_pass rest reg rs
      | None => None
      end
  end.

(** Second pass: areas are skipped. *)
Fixpoint second_pass (objs : list plot_object) (reg : registry) (rs : raster)
  : option (registry * raster) :=
  match objs with
  | [] => Some (reg, rs)
  | obj :: rest =>
      match obj_type obj with
      | TArea => second_pass rest reg rs
      | _ =>
          let '(c, reg) := getObjectColor reg (obj_id obj) in
          match drawPickingObject obj c rs with
          | Some rs => second_pass rest reg rs
          | None => None
          end
      end
  end.

(** [renderPickingCanvas()], on the objects of [plot_objects]: the registry
    and the raster it leaves when it returns. *)
Definition renderPickingCanvas (reg : registry) (objs : list plot_object)
  : option (registry * raster) :=
  let sorted_objects := sort_by_z objs in
  match first_pass sorted_objects reg clearRect with
  | Some (reg, rs) => second_pass sorted_objects reg rs
  | None => None
  end.

(** How the two passes cover a pixel for an object whose drawing calls
    return: the first pass draws nothing for a function, the second nothing
    for an area. *)
Definition bbox_hit (o : plot_object) (p : pixel) : coverage :=
  match obj_type o, bbox_region o with
  | TFunction, _ => Outside
  | _, Some region => region p
  | _, None => Outside
  end.
Definition shape_hit (o : plot_object) (p : pixel) : coverage :=
  match obj_type o, shape_region o with
  | TArea, _ => Outside
  | _, Some region => region p
  | _, None => Outside
  end.

(** The two objects meet at the pixel in the same pass: both shapes of the
    second pass cover it, or neither shape touches it and both hit regions
    of the first pass cover it. *)
Definition same_layer (a b : plot_object) (p : pixel) : Prop :=
  (shape_hit a p = Full /\ shape_hit b p = Full) \/
  (shape_hit a p = Outside /\ shape_hit b p = Outside /\
   bbox_hit a p = Full /\ bbox_hit b p = Full).

(** The drawing calls of a pass for the object return. *)
Definition bbox_draws (o : plot_object) : Prop :=
  obj_type o = TFunction \/ is_Some (bbox_region o).
Definition shape_draws (o : plot_object) : Prop :=
  obj_type o = TArea \/ is_Some (shape_region o).

(** Neither pass touches the pixel for the object. *)
Definition untouched (o : plot_object) (p : pixel) : Prop :=
  bbox_hit o p = Outside /\ shape_hit o p = Outside.

End Rasteriser.

(** [a], at position [i] of the object list, is painted before [b], at
    position [j], in each pass: it has the lower [z_index], or the same
    [z_index] and the earlier position. *)
Definition painted_before (a : plot_object) (i : nat) (b : plot_object) (j : nat) : Prop :=
  obj_z_index a < obj_z_index b \/ (obj_z_index a = obj_z_index b /\ (i < j)%nat).

(** [getObjectIdFromPicking(x, y)]: [None] is [null].  An empty id is
    falsy and is reported as [null] too. *)
Definition getObjectIdFromPicking (reg : registry) (rs : Z * Z -> Z * Z * Z) (p : pixel)
  : option string :=
  let c := rs p in
  if isBackgroundColor c then None
  else match object_color_map reg !! c with
       | Some object_id => if bool_decide (object_id = EmptyString) then None else Some object_id
       | None => None
       end.

(** The object with its [z_index] replaced. *)
Definition with_z_index (o : plot_object) (z : Z) : plot_object :=
  set_property prop_z_index (VInt z) o.

(** The registry holds a colour for the object, the colour is not a
    background sentinel, and it resolves back to the object's id. *)
Definition registered (reg : registry) (o : plot_object) : Prop :=
  exists c, id_color_map reg !! obj_id o = Some c /\
            object_color_map reg !! c = Some (obj_id o) /\
            isBackgroundColor c = false.

(** The colour the registry holds for an id. *)
Definition col_of (reg : registry) (object_id : string) : color :=
  default (0, 0, 0) (id_color_map reg !! object_id).

(** The id-to-colour map only grows. *)
Definition extends (reg reg' : registry) : Prop :=
  forall object_id c, id_color_map reg !! object_id = Some c ->
                      id_color_map reg' !! object_id = Some c.

(** Two points with [z_index 0] and [1] at the origin, and an area with
    [z_index 1] around it. *)
Definition point_p : plot_object :=
  mkObject TPoint "p" 0 0%R 0%R 0%R 0%R 0%R 0%R 5%R None None false EmptyString.
Definition point_r : plot_object :=
  mkObject TPoint "r" 1 0%R 0%R 0%R 0%R 0%R 0%R 5%R None None false EmptyString.
Definition area_q : plot_object :=
  mkObject TArea "q" 1 0%R 0%R (-1)%R (-1)%R 1%R 1%R 0%R None None false EmptyString.

End Picking.

(* ===================================================================== *)
(** ** BraceGeometry: the three brace styles                              *)
(* ===================================================================== *)

Module Brace.
Import Transform Scene.
Local Open Scope R_scope.

(** An angle as [Math.atan2(dy, dx)] determines it: the direction of the
    vector [(dx, dy)]; the zero vector has angle [0], the direction of
    [(1, 0)]. *)
Record angle := mkAngle { dir_x : R; dir_y : R }.

Definition atan2 (dy dx : R) : angle :=
  if Req_dec_T dx 0 then
    if Req_dec_T dy 0 then mkAngle 1 0 else mkAngle dx dy
  else mkAngle dx dy.

(** The calls made on the 2D context that build and stroke a path. *)
Inductive path_command :=
| beginPath
| moveTo (x y : R)
| lineTo (x y : R)
| quadraticCurveTo (cpx cpy x y : R)
| arc (cx cy radius : R) (startAngle endAngle : angle) (counterclockwise : bool)
| stroke.

(** [a || b || c] on numbers that may be missing: [undefined] and [0] are
    falsy. *)
Definition truthy (a : option R) : bool :=
  match a with
  | Some r => if Req_dec_T r 0 then false else true
  | None => false
  end.
Definition or_else (a : option R) (b : R) : R :=
  match a with
  | Some r => if Req_dec_T r 0 then b else r
  | None => b
  end.

Definition mirror_multiplier (b : plot_object) : R := if obj_mirrored b then -1 else 1.

(** [Math.sqrt(dx * dx + dy * dy)] between the canvas images of the
    endpoints. *)
Definition canvas_length (v : view) (b : plot_object) : R :=
  let start_coords := plotToCanvas v (mkXY (obj_x1 b) (obj_y1 b)) in
  let end_coords := plotToCanvas v (mkXY (obj_x2 b) (obj_y2 b)) in
  let dx := px end_coords - px start_coords in
  let dy := py end_coords - py start_coords in
  sqrt (dx * dx + dy * dy).

(** [drawSmoothBrace(brace)]. *)
Definition drawSmoothBrace (v : view) (b : plot_object) : list path_command :=
  let start_coords := plotToCanvas v (mkXY (obj_x1 b) (obj_y1 b)) in
  let end_coords := plotToCanvas v (mkXY (obj_x2 b) (obj_y2 b)) in
  let dx := px end_coords - px start_coords in
  let dy := py end_coords - py start_coords in
  let length := sqrt (dx * dx + dy * dy) in
  let brace_elevation :=
    or_else (obj_elevation b) (or_else (obj_width b) (Rmin 20 (length * 0.125))) in
  let mirror_multiplier := mirror_multiplier b in
  let perpX := - dy / length * brace_elevation * mirror_multiplier in
  let perpY := dx / length * brace_elevation * mirror_multiplier in
  let midX := (px start_coords + px end_coords) / 2 in
  let midY := (py start_coords + py end_coords) / 2 in
  [ beginPath;
    moveTo (px start_coords) (py start_coords);
    quadraticCurveTo (midX + perpX) (midY + perpY) midX midY;
    quadraticCurveTo (midX + perpX) (midY + perpY) (px end_coords) (py end_coords);
    stroke ].

(** [drawTraditionalBrace(brace)]. *)
Definition drawTraditionalBrace (v : view) (b : plot_object) : list path_command :=
  let start_coords := plotToCanvas v (mkXY (obj_x1 b) (obj_y1 b)) in
  let end_coords := plotToCanvas v (mkXY (obj_x2 b) (obj_y2 b)) in
  let dx := px end_coords - px start_coords in
  let dy := py end_coords - py start_coords in
  let length := sqrt (dx * dx + dy * dy) in
  if Rlt_dec length 20 then []
  else
    let brace_elevation :=
      or_else (obj_elevation b) (or_else (obj_width b) (Rmin (length * 0.125) 20)) in
    let mirror_multiplier := mirror_multiplier b in
    let alongUnitX := dx / length in
    let alongUnitY := dy / length in
    let perpUnitX := - dy / length * mirror_multiplier in
    let perpUnitY := dx / length * mirror_multiplier in
    let radius := brace_elevation / 2 in
    let quarter_distance := length / 4 in
    let p1_pos := radius in
    let p2_pos := quarter_distance in
    let tip_pos := length / 2 in
    let p3_pos := length - quarter_distance in
    let p4_pos := length - radius in
    let sx := px start_coords in
    let sy := py start_coords in
    [ beginPath;
      moveTo sx sy;
      quadraticCurveTo (sx + perpUnitX * radius) (sy + perpUnitY * radius)
                       (sx + alongUnitX * p1_pos + perpUnitX * radius)
                       (sy + alongUnitY * p1_pos + perpUnitY * radius);
      lineTo (sx + alongUnitX * p2_pos + perpUnitX * radius)
             (sy + alongUnitY * p2_pos + perpUnitY * radius);
      quadraticCurveTo (sx + alongUnitX * tip_pos + perpUnitX * radius)
                       (sy + alongUnitY * tip_pos + perpUnitY * radius)
                       (sx + alongUnitX * tip_pos + perpUnitX * brace_elevation)
                       (sy + alongUnitY * tip_pos + perpUnitY * brace_elevation);
      quadraticCurveTo (sx + alongUnitX * tip_pos + perpUnitX * radius)
                       (sy + alongUnitY * tip_pos + perpUnitY * radius)
                       (sx + alongUnitX * p3_pos + perpUnitX * radius)
                       (sy + alongUnitY * p3_pos + perpUnitY * radius);
      lineTo (sx + alongUnitX * p4_pos + perpUnitX * radius)
             (sy + alongUnitY * p4_pos + perpUnitY * radius);
      quadraticCurveTo (px end_coords + perpUnitX * radius)
                       (py end_coords + perpUnitY * radius)
                       (px end_coords) (py end_coords);
      stroke ].

(** [ccwForMinorArc(a0, a1)]: the difference [a1 - a0], brought into
    [(-PI, PI]], is negative exactly when its sine is, and
    [sin (a1 - a0)] has the sign of the cross product of the two
    directions. *)
Definition ccwForMinorArc (a0 a1 : angle) : bool :=
  if Rlt_dec (dir_x a0 * dir_y a1 - dir_y a0 * dir_x a1) 0 then true else false.

(** The locals of [draw45DegBraceHalf]. *)
Record half_geometry := mkHalf {
  h_alongX : R; h_alongY : R;
  h_innerR : R; h_outerR : R; h_segLen : R;
  h_C1 : xy; h_P1 : xy; h_P2 : xy; h_C2 : xy; h_PM : xy
}.

Definition half_locals (S E : xy) (mirrorMultiplier : R) (b : plot_object) : half_geometry :=
  let dx := px E - px S in
  let dy := py E - py S in
  let length := sqrt (dx * dx + dy * dy) in
  let mirror_multiplier := mirrorMultiplier in
  let alongX := dx / length in
  let alongY := dy / length in
  let perpX := - dy / length * mirror_multiplier in
  let perpY := dx / length * mirror_multiplier in
  let innerR :=
    if truthy (obj_elevation b) || truthy (obj_width b)
    then Rmin (or_else (obj_elevation b) (or_else (obj_width b) 0)) (length / 6)
    else length / 6 in
  let outerR := innerR * sqrt 2 in
  let segLen := Rmax 0 (length / 2 - 2 * innerR) in
  let pt := fun s p => mkXY (px S + alongX * s + perpX * p) (py S + alongY * s + perpY * p) in
  mkHalf alongX alongY innerR outerR segLen
         (pt innerR innerR)
         (pt innerR (innerR - outerR))
         (pt (innerR + segLen) (innerR - outerR))
         (pt (innerR + segLen) (- outerR))
         (pt (length / 2) (- outerR)).

(** [draw45DegBraceHalf(S, E, mirrorMultiplier, brace)]: the calls it
    appends to the current path. *)
Definition draw45DegBraceHalf (S E : xy) (mirrorMultiplier : R) (b : plot_object)
  : list path_command :=
  let dx := px E - px S in
  let dy := py E - py S in
  let length := sqrt (dx * dx + dy * dy) in
  if Rlt_dec length 20 then []
  else
    let g := half_locals S E mirrorMultiplier b in
    let angle := fun cx cy x y => atan2 (y - cy) (x - cx) in
    let C1 := h_C1 g in let P1 := h_P1 g in let P2 := h_P2 g in
    let C2 := h_C2 g in let PM := h_PM g in
    let a0 := angle (px C1) (py C1) (px S) (py S) in
    let a1 := angle (px C1) (py C1) (px P1) (py P1) in
    let b0 := angle (px C2) (py C2) (px P2) (py P2) in
    let b1 := angle (px C2) (py C2) (px PM) (py PM) in
    [ moveTo (px S) (py S);
      arc (px C1) (py C1) (h_outerR g) a0 a1 (ccwForMinorArc a0 a1);
      lineTo (px P2) (py P2);
      arc (px C2) (py C2) (h_innerR g) b0 b1 (ccwForMinorArc b0 b1) ].

(** [draw45DegBrace(brace)]. *)
Definition draw45DegBrace (v : view) (b : plot_object) : list path_command :=
  let start_coords := plotToCanvas v (mkXY (obj_x1 b) (obj_y1 b)) in
  let end_coords := plotToCanvas v (mkXY (obj_x2 b) (obj_y2 b)) in
  let mm := mirror_multiplier b in
  [beginPath]
  ++ draw45DegBraceHalf start_coords end_coords (- mm) b
  ++ draw45DegBraceHalf end_coords start_coords mm b
  ++ [stroke].

(** [drawBrace(brace)]: [brace.style || '45deg'] selects the style. *)
Definition drawBrace (v : view) (b : plot_object) : list path_command :=
  let brace_style := if bool_decide (obj_style b = EmptyString) then "45deg"%string
                     else obj_style b in
  if bool_decide (brace_style = "traditional"%string) then drawTraditionalBrace v b
  else if bool_decide (brace_style = "45deg"%string) then draw45DegBrace v b
  else drawSmoothBrace v b.

(** *** Reading a path *)

(** A path renders something when it holds a segment: a line, a curve or an
    arc.  Stroking a path of [moveTo] calls alone leaves the canvas as it
    is. *)
Definition is_segment (c : path_command) : bool :=
  match c with
  | lineTo _ _ | quadraticCurveTo _ _ _ _ | arc _ _ _ _ _ _ => true
  | _ => false
  end.
Definition renders_nothing (cmds : list path_command) : Prop :=
  forallb (fun c => negb (is_segment c)) cmds = true.

(** Two vectors point the same way: one is a positive multiple of the
    other. *)
Definition same_direction (ux uy vx vy : R) : Prop :=
  exists k, 0 < k /\ ux = k * vx /\ uy = k * vy.

(** The direction of travel along [arc(cx, cy, r, a0, a1, ccw)] at the point
    of angle [a]: the angle grows along the arc unless [ccw] is set. *)
Definition travel_x (a : angle) (ccw : bool) : R := if ccw then dir_y a else - dir_y a.
Definition travel_y (a : angle) (ccw : bool) : R := if ccw then - dir_x a else dir_x a.

(** The point [p] is the point of angle [a] on the circle of centre [c]
    and radius [r] (which the canvas requires to be non-negative). *)
Definition at_angle (c : xy) (r : R) (a : angle) (p : xy) : Prop :=
  0 < r /\
  (px p - px c) * (px p - px c) + (py p - py c) * (py p - py c) = r * r /\
  same_direction (px p - px c) (py p - py c) (dir_x a) (dir_y a).

(** The half brace is smooth at its two junctions: the path is
    [moveTo S; arc; lineTo P2; arc]; the outer arc starts at [S] and ends at
    a point [P1] where it travels in the direction of the segment from [P1]
    to [P2]; the inner arc starts at [P2], travelling in that same
    direction; and that direction is the direction from [S] to [E]. *)
Definition smooth_junctions (S E : xy) (cmds : list path_command) : Prop :=
  match cmds with
  | [ moveTo sx sy; arc c1x c1y r1 a0 a1 ccw1; lineTo p2x p2y; arc c2x c2y r2 b0 b1 ccw2 ] =>
      exists P1 : xy,
        sx = px S /\ sy = py S /\
        at_angle (mkXY c1x c1y) r1 a0 S /\
        at_angle (mkXY c1x c1y) r1 a1 P1 /\
        same_direction (travel_x a1 ccw1) (travel_y a1 ccw1) (p2x - px P1) (p2y - py P1) /\
        same_direction (p2x - px P1) (p2y - py P1) (px E - px S) (py E - py S) /\
        at_angle (mkXY c2x c2y) r2 b0 (mkXY p2x p2y) /\
        same_direction (travel_x b0 ccw2) (travel_y b0 ccw2) (p2x - px P1) (p2y - py P1)
  | _ => False
  end.

(** The distance between the two ends of a half brace. *)
Definition half_length (S E : xy) : R :=
  sqrt ((px E - px S) * (px E - px S) + (py E - py S) * (py E - py S)).

(** The value of [brace.elevation || brace.width], [0] when both are
    missing or zero. *)
Definition elevation_or_width (b : plot_object) : R :=
  or_else (obj_elevation b) (or_else (obj_width b) 0).

(** A brace object as [addBrace] creates it. *)
Definition brace_object (new_id : string) (x1 y1 x2 y2 : R) (elevation : option R)
    (style : string) : plot_object :=
  mkObject TBrace new_id 0%Z 0 0 x1 y1 x2 y2 0 None elevation false style.

(** A 45deg brace of the given elevation; the half-brace construction reads
    the elevation and the width of the object only. *)
Definition wide_brace (elevation : R) : plot_object :=
  brace_object "b" 0 0 0 0 (Some elevation) "45deg".

(** A smooth brace whose ends are a hundredth of a plot unit apart. *)
Definition tiny_smooth_brace : plot_object :=
  brace_object "b" 0 0 (1 / 100) 0 (Some 15) "smooth".

End Brace.

(* ===================================================================== *)
(** ** Layout: the plot area, the clip test of function samples, the ticks *)
(* ===================================================================== *)

Module Layout.
Import Transform.
Local Open Scope R_scope.

(** A rectangle of the canvas by its edges: [{left, right, top, bottom}],
    and the locals [plot_left, plot_right, plot_top, plot_bottom]. *)
Record plot_rect := mkRect {
  rect_left : R; rect_right : R; rect_top : R; rect_bottom : R
}.

(** The head of [drawAxes] (lines 2132-2160): the layout once more, and the
    edges of the plot area the axes, the grid and the ticks are drawn in. *)
Definition drawAxes_rect (v : view) : plot_rect :=
  let plot_x_range := x_max (plot_bounds v) - x_min (plot_bounds v) in
  let plot_y_range := y_max (plot_bounds v) - y_min (plot_bounds v) in
  let aspect_ratio := aspect_ratio v in
  let canvas_aspect := plot_width v / plot_height v in
  let plot_aspect := (plot_x_range * aspect_ratio) / plot_y_range in
  let l :=
    if Rlt_dec canvas_aspect plot_aspect then
      let effective_height := plot_width v / plot_aspect in
      mkLayout (plot_width v) effective_height 0 ((plot_height v - effective_height) / 2)
    else
      let effective_width := plot_height v * plot_aspect in
      mkLayout effective_width (plot_height v) ((plot_width v - effective_width) / 2) 0 in
  mkRect (canvas_padding v + x_offset l)
         (canvas_padding v + x_offset l + effective_width l)
         (canvas_padding v + y_offset l)
         (canvas_padding v + y_offset l + effective_height l).

(** [getEffectivePlotArea()]. *)
Definition getEffectivePlotArea (v : view) : plot_rect :=
  let plot_x_range := x_max (plot_bounds v) - x_min (plot_bounds v) in
  let plot_y_range := y_max (plot_bounds v) - y_min (plot_bounds v) in
  let aspect_ratio := aspect_ratio v in
  let canvas_aspect := plot_width v / plot_height v in
  let plot_aspect := (plot_x_range * aspect_ratio) / plot_y_range in
  let '(effective_width, effective_height) :=
    if Rlt_dec canvas_aspect plot_aspect then
      let effective_height := plot_height v in
      (effective_height * plot_aspect / aspect_ratio, effective_height)
    else
      let effective_width := plot_width v in
      (effective_width, effective_width * aspect_ratio / plot_aspect) in
  let offset_x := (plot_width v - effective_width) / 2 in
  let offset_y := (plot_height v - effective_height) / 2 in
  mkRect (canvas_padding v + offset_x)
         (canvas_padding v + offset_x + effective_width)
         (canvas_padding v + offset_y)
         (canvas_padding v + offset_y + effective_height).

(** The test [drawFunction] and [drawPickingFunction] make on every sample:
    [canvasCoords.x >= left && canvasCoords.x <= right &&
     canvasCoords.y >= top && canvasCoords.y <= bottom]. *)
Definition inside_area (a : plot_rect) (canvasCoords : xy) : bool :=
  (if Rle_dec (rect_left a) (px canvasCoords) then true else false)
  && (if Rle_dec (px canvasCoords) (rect_right a) then true else false)
  && (if Rle_dec (rect_top a) (py canvasCoords) then true else false)
  && (if Rle_dec (py canvasCoords) (rect_bottom a) then true else false).

(** The loop [for (let x = from; x <= to; x += step)] of the grid and the
    tick marks: the values of [x] the body runs at.  The loop has no bound
    of its own; [None] is a loop still running when [fuel] iterations are
    spent.  The numbers are exact here; [tick_loop_rounded] below has the
    loop variable in doubles. *)
Fixpoint tick_loop (fuel : nat) (x to step : R) : option (list R) :=
  match fuel with
  | O => None
  | S fuel' =>
      if Rle_dec x to then cons x <$> tick_loop fuel' (x + step) to step
      else Some []
  end.

(** What the body of the loop of [drawXTicksAndLabels] draws at one [x]:
    the tick mark, and the label with its anchor unless the tick is within
    15 pixels of the other axis.  The label [x.toFixed(1)] is kept as the
    number it prints. *)
Record tick := mkTick {
  mark_from : xy; mark_to : xy; tick_label : option (R * xy)
}.

Definition x_tick (v : view) (plot_left plot_right x_axis_y : R) (x : R) : option tick :=
  let canvas_coords := plotToCanvas v (mkXY x 0) in
  let tick_length := 5 in
  if Rlt_dec (px canvas_coords) plot_left then None
  else if Rlt_dec plot_right (px canvas_coords) then None
  else
    let y_axis_x := px (plotToCanvas v (mkXY 0 0)) in
    Some (mkTick (mkXY (px canvas_coords) (x_axis_y - tick_length))
                 (mkXY (px canvas_coords) (x_axis_y + tick_length))
                 (if Rlt_dec 15 (Rabs (px canvas_coords - y_axis_x))
                  then Some (x, mkXY (px canvas_coords) (x_axis_y + tick_length + 2))
                  else None)).

(** [drawXTicksAndLabels(plot_left, plot_right, x_axis_y)]. *)
Definition drawXTicksAndLabels (fuel : nat) (v : view) (plot_left plot_right x_axis_y : R)
  : option (list tick) :=
  let x_step := (x_max (plot_bounds v) - x_min (plot_bounds v)) / 10 in
  match tick_loop fuel (x_min (plot_bounds v)) (x_max (plot_bounds v)) x_step with
  | Some xs => Some (omap (x_tick v plot_left plot_right x_axis_y) xs)
  | None => None
  end.

(** A view whose bounds a loaded plot file sets to an empty x range. *)
Definition collapsed_view : view :=
  mkView (mkBounds 3 3 (-10) 10) 1 60 (800 - 2 * 60) (600 - 2 * 60).

(** The default view with the aspect ratio set to 2. *)
Definition stretched_view : view :=
  mkView (mkBounds (-10) 10 (-10) 10) 2 60 (800 - 2 * 60) (600 - 2 * 60).

Section Rounding.
(** The loop variable in doubles.  [rnd x] is the double nearest to the
    real [x]; the bounds are doubles, and the code computes
    [x_max - x_min], [... / 10] and [x += x_step] in doubles.  Whether the
    body runs for the last tick depends on how the sums are rounded. *)
Variable rnd : R -> R.

Fixpoint tick_loop_rounded (fuel : nat) (x to step : R) : option (list R) :=
  match fuel with
  | O => None
  | S fuel' =>
      if Rle_dec x to then cons x <$> tick_loop_rounded fuel' (rnd (x + step)) to step
      else Some []
  end.

(** [x_step], and the values of [x] at which the loop of
    [drawXTicksAndLabels] runs its body. *)
Definition x_step_rounded (v : view) : R :=
  rnd (rnd (x_max (plot_bounds v) - x_min (plot_bounds v)) / 10).

Definition x_tick_values (fuel : nat) (v : view) : option (list R) :=
  tick_loop_rounded fuel (x_min (plot_bounds v)) (x_max (plot_bounds v)) (x_step_rounded v).

(** The value of [x] after [k] rounds of [x += step]. *)
Fixpoint after_steps (step : R) (k : nat) (x : R) : R :=
  match k with
  | O => x
  | S k' => after_steps step k' (rnd (x + step))
  end.

End Rounding.

(** A rounding that errs upwards by the relative error [2^-53] on every
    number. *)
Definition round_up (x : R) : R := x + / 9007199254740992 * Rabs x.

(** The view with the x range from 0 to 7. *)
Definition seven_view : view :=
  mkView (mkBounds 0 7 (-10) 10) 1 60 (800 - 2 * 60) (600 - 2 * 60).

End Layout.

(* ===================================================================== *)
(** ** HitTest: distances to segments and rectangles *)
(* ===================================================================== *)

Module HitTest.
Import Transform Scene.
Local Open Scope R_scope.

(** [distanceToLine(point, line_start, line_end)]. *)
Definition distanceToLine (point line_start line_end : xy) : R :=
  let line_length_squared :=
    (px line_end - px line_start) ^ 2 + (py line_end - py line_start) ^ 2 in
  if Req_dec_T line_length_squared 0 then
    sqrt ((px point - px line_start) ^ 2 + (py point - py line_start) ^ 2)
  else
    let t := Rmax 0 (Rmin 1 (((px point - px line_start) * (px line_end - px line_start)
                              + (py point - py line_start) * (py line_end - py line_start))
                             / line_length_squared)) in
    let projection := mkXY (px line_start + t * (px line_end - px line_start))
                           (py line_start + t * (py line_end - py line_start)) in
    sqrt ((px point - px projection) ^ 2 + (py point - py projection) ^ 2).

(** [distanceToRectangle(point, rect)], [rect] being an object with the
    fields [x1, y1, x2, y2]. *)
Definition distanceToRectangle (point : xy) (rect : plot_object) : R :=
  let dx := Rmax (Rmax (obj_x1 rect - px point) 0) (px point - obj_x2 rect) in
  let dy := Rmax (Rmax (obj_y1 rect - py point) 0) (py point - obj_y2 rect) in
  sqrt (dx * dx + dy * dy).

(** The point of the segment from [a] to [b] at the parameter [t]. *)
Definition along (a b : xy) (t : R) : xy :=
  mkXY (px a + t * (px b - px a)) (py a + t * (py b - py a)).

(** The Euclidean distance of two points. *)
Definition distance (p q : xy) : R :=
  sqrt ((px p - px q) ^ 2 + (py p - py q) ^ 2).

(** [p] lies on the closed segment from [a] to [b]. *)
Definition on_segment (p a b : xy) : Prop :=
  exists t, 0 <= t <= 1 /\ p = along a b t.

End HitTest.

(* ===================================================================== *)
(** ** HitBox: the hit regions of areas, lines and braces *)
(* ===================================================================== *)

Module HitBox.
Import Transform Scene Brace.
Local Open Scope R_scope.

(** The arguments of a [fillRect(x, y, width, height)] or [strokeRect]
    call. *)
Record rect_call := mkRectCall { rc_x : R; rc_y : R; rc_width : R; rc_height : R }.

(** The canvas points a rectangle call covers; a negative width or height
    extends the rectangle to the left of, or above, [(x, y)]. *)
Definition covers (r : rect_call) (q : xy) : Prop :=
  Rmin (rc_x r) (rc_x r + rc_width r) <= px q <= Rmax (rc_x r) (rc_x r + rc_width r) /\
  Rmin (rc_y r) (rc_y r + rc_height r) <= py q <= Rmax (rc_y r) (rc_y r + rc_height r).

(** [drawPickingAreaBBox(area_obj, color)]: the rectangle it fills. *)
Definition drawPickingAreaBBox (v : view) (area_obj : plot_object) : rect_call :=
  let start_coords := plotToCanvas v (mkXY (obj_x1 area_obj) (obj_y1 area_obj)) in
  let end_coords := plotToCanvas v (mkXY (obj_x2 area_obj) (obj_y2 area_obj)) in
  let left := Rmin (px start_coords) (px end_coords) in
  let top := Rmin (py start_coords) (py end_coords) in
  let width := Rabs (px end_coords - px start_coords) in
  let height := Rabs (py end_coords - py start_coords) in
  mkRectCall left top width height.

(** [drawArea(area)]: the rectangle it fills and strokes. *)
Definition drawArea (v : view) (area : plot_object) : rect_call :=
  let top_left := plotToCanvas v (mkXY (obj_x1 area) (obj_y2 area)) in
  let bottom_right := plotToCanvas v (mkXY (obj_x2 area) (obj_y1 area)) in
  mkRectCall (px top_left) (py top_left)
             (px bottom_right - px top_left) (py bottom_right - py top_left).

(** [drawPickingLineBBox(line_obj, color)]: the corners of the polygon it
    fills, in the order of [bbox_points]; [None] when it returns without
    drawing. *)
Definition drawPickingLineBBox (v : view) (line_obj : plot_object) : option (list xy) :=
  let start_coords := plotToCanvas v (mkXY (obj_x1 line_obj) (obj_y1 line_obj)) in
  let end_coords := plotToCanvas v (mkXY (obj_x2 line_obj) (obj_y2 line_obj)) in
  let dx := px end_coords - px start_coords in
  let dy := py end_coords - py start_coords in
  let length := sqrt (dx * dx + dy * dy) in
  if Rlt_dec length 1 then None
  else
    let along_x := dx / length in
    let along_y := dy / length in
    let perp_x := - along_y in
    let perp_y := along_x in
    let line_width := Rmax 8 (or_else (obj_width line_obj) 2 * 4) in
    let half_width := line_width / 2 in
    Some [ mkXY (px start_coords + perp_x * half_width) (py start_coords + perp_y * half_width);
           mkXY (px start_coords - perp_x * half_width) (py start_coords - perp_y * half_width);
           mkXY (px end_coords - perp_x * half_width) (py end_coords - perp_y * half_width);
           mkXY (px end_coords + perp_x * half_width) (py end_coords + perp_y * half_width) ].

(** [drawPickingBraceBBox(brace_obj, color)]. *)
Definition drawPickingBraceBBox (v : view) (brace_obj : plot_object) : option (list xy) :=
  let start_coords := plotToCanvas v (mkXY (obj_x1 brace_obj) (obj_y1 brace_obj)) in
  let end_coords := plotToCanvas v (mkXY (obj_x2 brace_obj) (obj_y2 brace_obj)) in
  let dx := px end_coords - px start_coords in
  let dy := py end_coords - py start_coords in
  let length := sqrt (dx * dx + dy * dy) in
  if Rlt_dec length 1 then None
  else
    let along_x := dx / length in
    let along_y := dy / length in
    let perp_x := - along_y in
    let perp_y := along_x in
    let brace_elevation :=
      or_else (obj_elevation brace_obj) (or_else (obj_width brace_obj) 15) * 2 in
    let half_width := brace_elevation / 2 in
    Some [ mkXY (px start_coords + perp_x * half_width) (py start_coords + perp_y * half_width);
           mkXY (px start_coords - perp_x * half_width) (py start_coords - perp_y * half_width);
           mkXY (px end_coords - perp_x * half_width) (py end_coords - perp_y * half_width);
           mkXY (px end_coords + perp_x * half_width) (py end_coords + perp_y * half_width) ].

(** The four points are the corners of a rectangle laid along the segment
    from [s] to [e]: the first two are opposite each other about [s], the
    last two about [e], across the segment and at the distance [half] from
    it. *)
Definition box_along (s e : xy) (half : R) (corners : list xy) : Prop :=
  match corners with
  | [p0; p1; p2; p3] =>
      (px p0 + px p1) / 2 = px s /\ (py p0 + py p1) / 2 = py s /\
      (px p3 + px p2) / 2 = px e /\ (py p3 + py p2) / 2 = py e /\
      px p3 - px p0 = px e - px s /\ py p3 - py p0 = py e - py s /\
      (px p0 - px s) * (px e - px s) + (py p0 - py s) * (py e - py s) = 0 /\
      (px p0 - px s) * (px p0 - px s) + (py p0 - py s) * (py p0 - py s) = half * half
  | _ => False
  end.

(** [generateAreaSVG(area)]: the attributes [x], [y], [width] and [height]
    of the [<rect>] element. *)
Definition generateAreaSVG (v : view) (area : plot_object) : rect_call :=
  let top_left := plotToCanvas v (mkXY (obj_x1 area) (obj_y2 area)) in
  let bottom_right := plotToCanvas v (mkXY (obj_x2 area) (obj_y1 area)) in
  let width := px bottom_right - px top_left in
  let height := py bottom_right - py top_left in
  mkRectCall (px top_left) (py top_left) width height.

End HitBox.

(* ===================================================================== *)
(** ** PickingSamples: a rasteriser for points and areas                  *)
(* ===================================================================== *)

Module PickingSamples.
Import Transform Scene Color Picking HitBox.
Local Open Scope R_scope.

(** The far corner of the pixel square [[i, i+1] x [j, j+1]] from a point,
    along one axis. *)
Definition far (i : Z) (c : R) : R := Rmax (Rabs (IZR i - c)) (Rabs (IZR i + 1 - c)).

(** A disc, as [arc(x, y, radius, 0, 2 * Math.PI)] and [fill()] paint it:
    a pixel whose square lies in the disc is covered; of the other pixels
    nothing is said. *)
Definition disc (centre : xy) (radius : R) (p : Z * Z) : coverage :=
  let fx := far (fst p) (px centre) in
  let fy := far (snd p) (py centre) in
  if Rle_dec (fx * fx + fy * fy) (radius * radius) then Full else Partial.

(** A rectangle, as [fillRect(x, y, width, height)] paints it: a pixel
    whose square lies in the rectangle is covered. *)
Definition rectangle (r : rect_call) (p : Z * Z) : coverage :=
  if Rle_dec (rc_x r) (IZR (fst p)) then
    if Rle_dec (IZR (fst p) + 1) (rc_x r + rc_width r) then
      if Rle_dec (rc_y r) (IZR (snd p)) then
        if Rle_dec (IZR (snd p) + 1) (rc_y r + rc_height r) then Full else Partial
      else Partial
    else Partial
  else Partial.

(** [arc] throws for a negative radius. *)
Definition arc_fill (centre : xy) (radius : R) : option (Z * Z -> coverage) :=
  if Rle_dec 0 radius then Some (disc centre radius) else None.

Section View.
Variable v : view.

(** The hit region of [drawPickingBBox]: for a point the disc of radius
    [obj.size + 3], for an area the rectangle of [drawPickingAreaBBox]; of
    the other types nothing is said. *)
Definition sample_bbox (o : plot_object) : option (Z * Z -> coverage) :=
  match obj_type o with
  | TPoint => arc_fill (plotToCanvas v (mkXY (obj_x o) (obj_y o))) (obj_size o + 3)
  | TArea => Some (rectangle (drawPickingAreaBBox v o))
  | _ => Some (fun _ => Partial)
  end.

(** The shape of [drawPickingObject]: for a point the disc of radius
    [Math.max(obj.size, 3)]. *)
Definition sample_shape (o : plot_object) : option (Z * Z -> coverage) :=
  match obj_type o with
  | TPoint => arc_fill (plotToCanvas v (mkXY (obj_x o) (obj_y o))) (Rmax (obj_size o) 3)
  | _ => Some (fun _ => Partial)
  end.

End View.

(** The pixel that holds the image of the origin in the default view. *)
Definition centre_pixel : Z * Z := (400%Z, 300%Z).

End PickingSamples.

(* ===================================================================== *)
(** ** Registry: what the colour registry guarantees *)
(* ===================================================================== *)

Module Registry.
Import Color.
Local Open Scope Z_scope.

(** A channel that [enhance_contrast] has moved out of the middle of the
    range. *)
Definition contrasted (value : Z) : Prop :=
  0 <= value <= 54 \/ 201 <= value <= 255.

(** The two maps agree: the colour held for an id resolves back to it. *)
Definition consistent (reg : registry) : Prop :=
  forall object_id c,
    id_color_map reg !! object_id = Some c -> object_color_map reg !! c = Some object_id.

(** Every colour the registry holds for an id is a colour with no
    background sentinel. *)
Definition no_background (reg : registry) : Prop :=
  forall object_id c,
    id_color_map reg !! object_id = Some c -> isBackgroundColor c = false.

(** The ids of three objects, the first drawn in both passes. *)
Definition sample_ids : list string := ["obj_a"; "obj_b"; "obj_a"].

End Registry.

(* ===================================================================== *)
(** ** Entry: the methods that add, edit and select objects *)
(* ===================================================================== *)

Module Entry.
Import Transform Color Scene Commands Picking Brace.
Local Open Scope Z_scope.

(** *** The object literals of the [add...] methods

    The fields of a literal that the typed record does not hold ([color],
    [text], [expression], the fonts, ...) are left out; the fields of the
    record that the literal does not set are at their zero. *)
Definition point_object (new_id : string) (coords : xy) : plot_object :=
  mkObject TPoint new_id 0 (px coords) (py coords) 0%R 0%R 0%R 0%R 5%R
           None None false EmptyString.

Definition line_object (new_id : string) (start_coords end_coords : xy) : plot_object :=
  mkObject TLine new_id 0 0%R 0%R
           (px start_coords) (py start_coords) (px end_coords) (py end_coords)
           0%R (Some 2%R) None false EmptyString.

Definition text_object (new_id : string) (coords : xy) : plot_object :=
  mkObject TText new_id 0 (px coords) (py coords) 0%R 0%R 0%R 0%R 0%R
           None None false EmptyString.

Definition function_object (new_id : string) (width : R) : plot_object :=
  mkObject TFunction new_id 0 0%R 0%R 0%R 0%R 0%R 0%R 0%R
           (Some width) None false EmptyString.

(** [addPoint(coords)]; [new_id] is what [generateId()] returns. *)
Definition addPoint (new_id : string) (coords : xy) (ed : editor) : option editor :=
  let point_ref := length (eheap ed) in
  let ed := set_heap (eheap ed ++ [point_object new_id coords]) ed in
  executeCommand (AddObjectCommand point_ref) ed.

(** [addLine(start_coords, end_coords)]. *)
Definition addLine (new_id : string) (start_coords end_coords : xy) (ed : editor)
  : option editor :=
  let line_ref := length (eheap ed) in
  let ed := set_heap (eheap ed ++ [line_object new_id start_coords end_coords]) ed in
  executeCommand (AddObjectCommand line_ref) ed.

(** [addText(coords)]; [text_content] is what [prompt] returns, [None]
    when the dialog is cancelled.  [null] and the empty string are
    falsy. *)
Definition addText (new_id : string) (coords : xy) (text_content : option string)
    (ed : editor) : option editor :=
  match text_content with
  | Some (String _ _) =>
      let text_ref := length (eheap ed) in
      let ed := set_heap (eheap ed ++ [text_object new_id coords]) ed in
      executeCommand (AddObjectCommand text_ref) ed
  | _ => Some ed
  end.

(** [addBrace(start_coords, end_coords = null)]. *)
Definition addBrace (new_id : string) (start_coords : xy) (end_coords : option xy)
    (ed : editor) : option editor :=
  let brace_ref := length (eheap ed) in
  match end_coords with
  | None =>
      let default_elevation := 15%R in
      let brace_object :=
        brace_object new_id (px start_coords) (py start_coords)
                     (px start_coords + 2)%R (py start_coords + 3)%R
                     (Some default_elevation) "45deg" in
      executeCommand (AddObjectCommand brace_ref) (set_heap (eheap ed ++ [brace_object]) ed)
  | Some end_coords =>
      let default_elevation := 15%R in
      let brace_object :=
        brace_object new_id (px start_coords) (py start_coords)
                     (px end_coords) (py end_coords)
                     (Some default_elevation) "45deg" in
      executeCommand (AddObjectCommand brace_ref) (set_heap (eheap ed ++ [brace_object]) ed)
  end.

(** [addFunction(expression, xMin, xMax, color, width)]. *)
Definition addFunction (new_id : string) (width : R) (ed : editor) : option editor :=
  let function_ref := length (eheap ed) in
  let ed := set_heap (eheap ed ++ [function_object new_id width]) ed in
  executeCommand (AddObjectCommand function_ref) ed.

(** A call of one of the [add...] methods, the object it creates (none
    when [addText] gets no text) and its run. *)
Inductive add_call :=
| AddPoint (coords : xy)
| AddLine (start_coords end_coords : xy)
| AddArea (start_coords end_coords : xy)
| AddText (coords : xy) (text_content : option string)
| AddBrace (start_coords : xy) (end_coords : option xy)
| AddFunction (width : R).

Definition created (call : add_call) (new_id : string) : option plot_object :=
  match call with
  | AddPoint coords => Some (point_object new_id coords)
  | AddLine s e => Some (line_object new_id s e)
  | AddArea s e => Some (area_object new_id s e)
  | AddText coords (Some (String _ _)) => Some (text_object new_id coords)
  | AddText coords _ => None
  | AddBrace s None =>
      Some (brace_object new_id (px s) (py s) (px s + 2)%R (py s + 3)%R (Some 15%R) "45deg")
  | AddBrace s (Some e) =>
      Some (brace_object new_id (px s) (py s) (px e) (py e) (Some 15%R) "45deg")
  | AddFunction width => Some (function_object new_id width)
  end.

Definition run_add (call : add_call) (new_id : string) (ed : editor) : option editor :=
  match call with
  | AddPoint coords => addPoint new_id coords ed
  | AddLine s e => addLine new_id s e ed
  | AddArea s e => addArea new_id s e ed
  | AddText coords text_content => addText new_id coords text_content ed
  | AddBrace s e => addBrace new_id s e ed
  | AddFunction width => addFunction new_id width ed
  end.

(** Every reference of the object list points into the store. *)
Definition refs_valid (ed : editor) : Prop :=
  forall r, r ∈ plot_objects ed -> is_Some (eheap ed !! r).

(** No object of the list has the id. *)
Definition fresh_id (new_id : string) (ed : editor) : Prop :=
  Some new_id ∉ (id_of (eheap ed) <$> plot_objects ed).

(** *** Editing a property *)

(** [obj[property]]. *)
Definition get_property (p : property) (o : plot_object) : value :=
  match p with
  | prop_x => VNum (obj_x o) | prop_y => VNum (obj_y o)
  | prop_x1 => VNum (obj_x1 o) | prop_y1 => VNum (obj_y1 o)
  | prop_x2 => VNum (obj_x2 o) | prop_y2 => VNum (obj_y2 o)
  | prop_z_index => VInt (obj_z_index o)
  | prop_size => VNum (obj_size o)
  | prop_width => match obj_width o with Some r => VNum r | None => VUndefined end
  | prop_elevation => match obj_elevation o with Some r => VNum r | None => VUndefined end
  | prop_mirrored => VBool (obj_mirrored o)
  | prop_style => VStr (obj_style o)
  end.

(** The value has the type of the field. *)
Definition fits (p : property) (v : value) : Prop :=
  match p, v with
  | (prop_x | prop_y | prop_x1 | prop_y1 | prop_x2 | prop_y2 | prop_size), VNum _ => True
  | prop_z_index, VInt _ => True
  | (prop_width | prop_elevation), (VNum _ | VUndefined) => True
  | prop_mirrored, VBool _ => True
  | prop_style, VStr _ => True
  | _, _ => False
  end.

Definition value_eq_dec (a b : value) : {a = b} + {a <> b}.
Proof.
  decide equality;
    [apply Req_dec_T | apply Z.eq_dec | apply Bool.bool_dec | apply String.string_dec].
Defined.

(** *** Selecting *)

(** [this.plot_objects.find(o => o.id === object_id)]. *)
Definition find_by_id (h : heap) (object_id : string) (l : list ref) : option ref :=
  find (fun r => bool_decide (id_of h r = Some object_id)) l.

(** [selectObjectById(object_id)]. *)
Definition selectObjectById (object_id : string) (ed : editor) : editor :=
  selectObject (find_by_id (eheap ed) object_id (plot_objects ed)) ed.

Section Pointer.
(** The pixel [getImageData(x, y, 1, 1)] reads for two numbers [x] and
    [y]: a conversion the browser makes. *)
Variable device_pixel : xy -> Z * Z.

(** [getObjectAt(coords)], with the view, the registry and the picking
    raster of the editor. *)
Definition getObjectAt (v : view) (reg : registry) (rs : Z * Z -> Z * Z * Z)
    (coords : xy) (ed : editor) : option ref :=
  let canvas_coords := plotToCanvas v coords in
  match getObjectIdFromPicking reg rs (device_pixel canvas_coords) with
  | Some object_id => find_by_id (eheap ed) object_id (plot_objects ed)
  | None => None
  end.

(** [selectObjectAt(coords)]. *)
Definition selectObjectAt (v : view) (reg : registry) (rs : Z * Z -> Z * Z * Z)
    (coords : xy) (ed : editor) : editor :=
  let closest_object := getObjectAt v reg rs coords ed in
  selectObject closest_object ed.

End Pointer.

(** The editor with the three points and a history of two commands, the
    cursor on the second. *)
Definition two_commands : editor :=
  mkEditor (eheap three_points) (plot_objects three_points) None
           [AddObjectCommand 1%nat; AddObjectCommand 2%nat] 1 50 no_drag.

(** *** Commands and the redraw that ends them

    A command's [execute] and [undo] write to the scene and then call
    [updateObjectList()] and [redraw()].  These calls can throw: [drawPoint]
    passes [point.size] to [context.arc], which throws for a negative
    radius, and so do the arcs of a 45deg brace.  The exception leaves the
    scene as the command wrote it and skips what the caller does after the
    command: [executeCommand] records nothing, [undo()] does not move the
    cursor. *)
Inductive outcome :=
| Returns (ed : editor)
| Throws (ed : editor).

Section Renderer.
(** Whether [updateObjectList()] and [redraw()] return for a store, an
    object list and a selection; the canvas, the bounds and the colour
    registry are those of the editor. *)
Variable renders : list plot_object -> list ref -> option ref -> bool.

Definition redraw (ed : editor) : outcome :=
  if renders (eheap ed) (plot_objects ed) (selected_object ed) then Returns ed else Throws ed.

(** [command.execute()] with its redraw; Delete's [execute] does nothing,
    and draws nothing, when its index is [-1]. *)
Definition execute_redraw (c : command) (ed : editor) : option outcome :=
  match c with
  | DeleteObjectCommand object object_index =>
      if bool_decide (object_index <> -1) then redraw <$> execute c ed else Some (Returns ed)
  | _ => redraw <$> execute c ed
  end.

(** [command.undo()] with its redraw; Add's [undo] does nothing when no
    listed object has the id. *)
Definition undo_command_redraw (c : command) (ed : editor) : option outcome :=
  match c with
  | AddObjectCommand object =>
      let index := findIndex (same_id (eheap ed) object) (plot_objects ed) in
      if bool_decide (index <> -1) then redraw <$> undo_command c ed else Some (Returns ed)
  | _ => redraw <$> undo_command c ed
  end.

(** [executeCommand(command)]: the history is cut before the command runs
    and the command is pushed after it has returned. *)
Definition executeCommand_redraw (c : command) (ed : editor) : option outcome :=
  match execute_redraw c (truncate_history ed) with
  | Some (Returns ed) => Some (Returns (push_history c ed))
  | Some (Throws ed) => Some (Throws ed)
  | None => None
  end.

(** [undo()]: the cursor moves after the command's [undo] has returned. *)
Definition undo_redraw (ed : editor) : option outcome :=
  if 0 <=? current_command_index ed then
    match index (command_history ed) (current_command_index ed) with
    | Some c =>
        match undo_command_redraw c ed with
        | Some (Returns ed) =>
            Some (Returns (set_history (command_history ed) (current_command_index ed - 1) ed))
        | Some (Throws ed) => Some (Throws ed)
        | None => None
        end
    | None => None
    end
  else Some (Returns ed).

(** [redo()]: the cursor moves before the command runs. *)
Definition redo_redraw (ed : editor) : option outcome :=
  if current_command_index ed <? Z.of_nat (length (command_history ed)) - 1 then
    let ed := set_history (command_history ed) (current_command_index ed + 1) ed in
    match index (command_history ed) (current_command_index ed) with
    | Some c => execute_redraw c ed
    | None => None
    end
  else Some (Returns ed).

(** [updateObjectProperty(property, value)]. *)
Definition updateObjectProperty (p : property) (v : value) (ed : editor)
  : option outcome :=
  match selected_object ed with
  | Some obj =>
      match eheap ed !! obj with
      | Some o =>
          let old_value := get_property p o in
          if value_eq_dec old_value v then Some (Returns ed)
          else executeCommand_redraw (ModifyObjectCommand obj p old_value v) ed
      | None => None
      end
  | None => Some (Returns ed)
  end.

End Renderer.

(** A renderer for scenes of points: [drawPoint] throws when the size of a
    listed point is negative. *)
Definition points_render (h : list plot_object) (l : list ref) (s : option ref) : bool :=
  forallb (fun r => match h !! r with
                    | Some o => if Rle_dec 0 (obj_size o) then true else false
                    | None => true
                    end) l.

End Entry.

(* ===================================================================== *)
(** ** BraceTip: where the halves of a 45deg brace end *)
(* ===================================================================== *)

Module BraceTip.
Import Transform Scene Brace.
Local Open Scope R_scope.

(** Where a path ends when its last command is an arc: at the point of the
    arc's end angle on its circle. *)
Definition ends_at (cmds : list path_command) (p : xy) : Prop :=
  match last cmds with
  | Some (arc cx cy radius startAngle endAngle counterclockwise) =>
      at_angle (mkXY cx cy) radius endAngle p
  | _ => False
  end.

(** The tip of a 45deg brace from [S] to [E]: the point at the distance
    [outerR] from the middle of the segment, square to it, on the side the
    mirror multiplier [mm] selects. *)
Definition brace_tip (S E : xy) (mm outerR : R) : xy :=
  let len := half_length S E in
  mkXY ((px S + px E) / 2 - mm * outerR * ((py E - py S) / len))
       ((py S + py E) / 2 + mm * outerR * ((px E - px S) / len)).

End BraceTip.

(* ===================================================================== *)
(** ** Svg: the path data of the SVG export of braces *)
(* ===================================================================== *)

Module Svg.
Import Transform Scene Brace.
Local Open Scope R_scope.

(** The commands of the path data of an SVG [<path d="...">]:
    [M x y], [L x y], [Q cx cy x y] and
    [A rx ry 0 largeArcFlag sweepFlag x y].  A generator that returns the
    empty string has no commands. *)
Inductive svg_command :=
| svgM (x y : R)
| svgL (x y : R)
| svgQ (cx cy x y : R)
| svgA (rx ry : R) (largeArcFlag sweepFlag : bool) (x y : R).

(** [generateSmoothBraceSVG(brace, start_coords, end_coords)]. *)
Definition generateSmoothBraceSVG (brace : plot_object) (start_coords end_coords : xy)
  : list svg_command :=
  let dx := px end_coords - px start_coords in
  let dy := py end_coords - py start_coords in
  let length := sqrt (dx * dx + dy * dy) in
  let brace_elevation :=
    or_else (obj_elevation brace) (or_else (obj_width brace) (Rmin 20 (length * 0.125))) in
  let mirror_multiplier := mirror_multiplier brace in
  let perpX := - dy / length * brace_elevation * mirror_multiplier in
  let perpY := dx / length * brace_elevation * mirror_multiplier in
  let midX := (px start_coords + px end_coords) / 2 in
  let midY := (py start_coords + py end_coords) / 2 in
  let controlX := midX + perpX in
  let controlY := midY + perpY in
  [ svgM (px start_coords) (py start_coords);
    svgQ controlX controlY midX midY;
    svgQ controlX controlY (px end_coords) (py end_coords) ].

(** [generateTraditionalBraceSVG(brace, start_coords, end_coords)]. *)
Definition generateTraditionalBraceSVG (brace : plot_object) (start_coords end_coords : xy)
  : list svg_command :=
  let dx := px end_coords - px start_coords in
  let dy := py end_coords - py start_coords in
  let length := sqrt (dx * dx + dy * dy) in
  if Rlt_dec length 20 then []
  else
    let brace_elevation :=
      or_else (obj_elevation brace) (or_else (obj_width brace) (Rmin (length * 0.125) 20)) in
    let mirror_multiplier := mirror_multiplier brace in
    let alongUnitX := dx / length in
    let alongUnitY := dy / length in
    let perpUnitX := - dy / length * mirror_multiplier in
    let perpUnitY := dx / length * mirror_multiplier in
    let radius := brace_elevation / 2 in
    let quarter_distance := length / 4 in
    let p1_pos := radius in
    let p2_pos := quarter_distance in
    let tip_pos := length / 2 in
    let p3_pos := length - quarter_distance in
    let p4_pos := length - radius in
    let q1_end_x := px start_coords + alongUnitX * p1_pos + perpUnitX * radius in
    let q1_end_y := py start_coords + alongUnitY * p1_pos + perpUnitY * radius in
    let q1_ctrl_x := px start_coords + perpUnitX * radius in
    let q1_ctrl_y := py start_coords + perpUnitY * radius in
    let line1_end_x := px start_coords + alongUnitX * p2_pos + perpUnitX * radius in
    let line1_end_y := py start_coords + alongUnitY * p2_pos + perpUnitY * radius in
    let tip_x := px start_coords + alongUnitX * tip_pos + perpUnitX * brace_elevation in
    let tip_y := py start_coords + alongUnitY * tip_pos + perpUnitY * brace_elevation in
    let q2_ctrl_x := px start_coords + alongUnitX * tip_pos + perpUnitX * radius in
    let q2_ctrl_y := py start_coords + alongUnitY * tip_pos + perpUnitY * radius in
    let q3_end_x := px start_coords + alongUnitX * p3_pos + perpUnitX * radius in
    let q3_end_y := py start_coords + alongUnitY * p3_pos + perpUnitY * radius in
    let q3_ctrl_x := px start_coords + alongUnitX * tip_pos + perpUnitX * radius in
    let q3_ctrl_y := py start_coords + alongUnitY * tip_pos + perpUnitY * radius in
    let line2_end_x := px start_coords + alongUnitX * p4_pos + perpUnitX * radius in
    let line2_end_y := py start_coords + alongUnitY * p4_pos + perpUnitY * radius in
    let q4_ctrl_x := px end_coords + perpUnitX * radius in
    let q4_ctrl_y := py end_coords + perpUnitY * radius in
    [ svgM (px start_coords) (py start_coords);
      svgQ q1_ctrl_x q1_ctrl_y q1_end_x q1_end_y;
      svgL line1_end_x line1_end_y;
      svgQ q2_ctrl_x q2_ctrl_y tip_x tip_y;
      svgQ q3_ctrl_x q3_ctrl_y q3_end_x q3_end_y;
      svgL line2_end_x line2_end_y;
      svgQ q4_ctrl_x q4_ctrl_y (px end_coords) (py end_coords) ].

(** The [sweepFlag] of [arcCmd]: [delta >= 0] for the difference of the two
    angles brought into [(-PI, PI]], that is, unless its sine is
    negative. *)
Definition sweepFlag (startAngle endAngle : angle) : bool :=
  if Rlt_dec (dir_x startAngle * dir_y endAngle - dir_y startAngle * dir_x endAngle) 0
  then false else true.

(** [arcCmd(cx, cy, r, sx, sy, ex, ey)]. *)
Definition arcCmd (cx cy r sx sy ex ey : R) : svg_command :=
  let startAngle := atan2 (sy - cy) (sx - cx) in
  let endAngle := atan2 (ey - cy) (ex - cx) in
  let largeArcFlag := false in
  svgA r r largeArcFlag (sweepFlag startAngle endAngle) ex ey.

(** The closure [half(Sx, Sy, Ex, Ey, mirrorMultiplier)] of
    [generate45DegBraceSVG]. *)
Definition half (brace : plot_object) (Sx Sy Ex Ey mirrorMultiplier : R)
  : list svg_command :=
  let dx := Ex - Sx in
  let dy := Ey - Sy in
  let L := sqrt (dx * dx + dy * dy) in
  let ax := dx / L in
  let ay := dy / L in
  let px := - dy / L * mirrorMultiplier in
  let py := dx / L * mirrorMultiplier in
  let rIn :=
    if truthy (obj_elevation brace) || truthy (obj_width brace)
    then Rmin (or_else (obj_elevation brace) (or_else (obj_width brace) 0)) (L / 6)
    else L / 6 in
  let rOut := rIn * sqrt 2 in
  let seg := Rmax 0 (L / 2 - 2 * rIn) in
  let P1x := Sx + ax * rIn + px * (rIn - rOut) in
  let P1y := Sy + ay * rIn + py * (rIn - rOut) in
  let P2x := Sx + ax * (rIn + seg) + px * (rIn - rOut) in
  let P2y := Sy + ay * (rIn + seg) + py * (rIn - rOut) in
  let C1x := Sx + ax * rIn + px * rIn in
  let C1y := Sy + ay * rIn + py * rIn in
  let C2x := Sx + ax * (rIn + seg) - px * rOut in
  let C2y := Sy + ay * (rIn + seg) - py * rOut in
  let Mx := Sx + ax * (L / 2) - px * rOut in
  let My := Sy + ay * (L / 2) - py * rOut in
  [ svgM Sx Sy;
    arcCmd C1x C1y rOut Sx Sy P1x P1y;
    svgL P2x P2y;
    arcCmd C2x C2y rIn P2x P2y Mx My ].

(** [generate45DegBraceSVG(brace, start_coords, end_coords)]. *)
Definition generate45DegBraceSVG (brace : plot_object) (start_coords end_coords : xy)
  : list svg_command :=
  let dx := px end_coords - px start_coords in
  let dy := py end_coords - py start_coords in
  let length := sqrt (dx * dx + dy * dy) in
  if Rlt_dec length 20 then []
  else
    let mm := mirror_multiplier brace in
    half brace (px start_coords) (py start_coords) (px end_coords) (py end_coords) (- mm)
    ++ half brace (px end_coords) (py end_coords) (px start_coords) (py start_coords) mm.

(** [generateBraceSVG(brace)]. *)
Definition generateBraceSVG (v : view) (brace : plot_object) : list svg_command :=
  let start_coords := plotToCanvas v (mkXY (obj_x1 brace) (obj_y1 brace)) in
  let end_coords := plotToCanvas v (mkXY (obj_x2 brace) (obj_y2 brace)) in
  let brace_style := if bool_decide (obj_style brace = EmptyString) then "45deg"%string
                     else obj_style brace in
  if bool_decide (brace_style = "traditional"%string)
  then generateTraditionalBraceSVG brace start_coords end_coords
  else if bool_decide (brace_style = "45deg"%string)
  then generate45DegBraceSVG brace start_coords end_coords
  else generateSmoothBraceSVG brace start_coords end_coords.

(** The calls on the canvas trace the curve the path data describes.
    [beginPath] and [stroke] have no counterpart in the data; [moveTo],
    [lineTo] and [quadraticCurveTo] have the commands [M], [L] and [Q] with
    the same numbers.  [arc(cx, cy, r, a0, a1, ccw)] has
    [A r r 0 0 sweep x y] when it starts at the current point, ends at
    [(x, y)] and turns the same way: [sweep] is set for growing angles, [ccw]
    for shrinking ones.  (The arcs at hand are minor arcs, which the radius,
    the two ends and the direction determine.) *)
Fixpoint same_path (current : option xy) (calls : list path_command)
    (data : list svg_command) : Prop :=
  match calls with
  | [] => data = []
  | beginPath :: calls' => same_path current calls' data
  | stroke :: calls' => same_path current calls' data
  | moveTo x y :: calls' =>
      match data with
      | svgM x' y' :: data' =>
          x' = x /\ y' = y /\ same_path (Some (mkXY x y)) calls' data'
      | _ => False
      end
  | lineTo x y :: calls' =>
      match data with
      | svgL x' y' :: data' =>
          x' = x /\ y' = y /\ same_path (Some (mkXY x y)) calls' data'
      | _ => False
      end
  | quadraticCurveTo cpx cpy x y :: calls' =>
      match data with
      | svgQ cpx' cpy' x' y' :: data' =>
          cpx' = cpx /\ cpy' = cpy /\ x' = x /\ y' = y /\
          same_path (Some (mkXY x y)) calls' data'
      | _ => False
      end
  | arc cx cy radius a0 a1 ccw :: calls' =>
      match data, current with
      | svgA rx ry largeArcFlag sweep x y :: data', Some p =>
          rx = radius /\ ry = radius /\ largeArcFlag = false /\ sweep = negb ccw /\
          at_angle (mkXY cx cy) radius a0 p /\
          at_angle (mkXY cx cy) radius a1 (mkXY x y) /\
          same_path (Some (mkXY x y)) calls' data'
      | _, _ => False
      end
  end.

(** A 45deg brace along the x axis, as [addBrace] creates it. *)
Definition sample_brace : plot_object :=
  brace_object "b" (-5) 0 5 0 (Some 15) "45deg".

End Svg.

(* ===================================================================== *)
(** ** Xml: [escapeXML] *)
(* ===================================================================== *)

Module Xml.
Local Open Scope string_scope.

(** The double quote, character 34. *)
Definition dquote : ascii := "034"%char.

(** [text.replace(/c/g, by)] for a pattern that is one character.  A
    JavaScript string is a sequence of 16-bit code units; the five
    characters replaced are ASCII, and a string is kept here as the
    sequence of its bytes, in which a byte of a character outside ASCII is
    none of the five. *)
Fixpoint replace_all (c : ascii) (by_text : string) (text : string) : string :=
  match text with
  | EmptyString => EmptyString
  | String a rest =>
      if Ascii.eqb a c then by_text ++ replace_all c by_text rest
      else String a (replace_all c by_text rest)
  end.

(** [escapeXML(text)]: the five replacements, in the order of the calls. *)
Definition escapeXML (text : string) : string :=
  replace_all "'" "&#39;"
    (replace_all dquote "&quot;"
       (replace_all ">" "&gt;"
          (replace_all "<" "&lt;"
             (replace_all "&" "&amp;" text)))).

(** The characters that end or open markup and attribute values. *)
Definition markup (c : ascii) : Prop :=
  c = "<"%char \/ c = ">"%char \/ c = dquote \/ c = "'"%char.

(** What [escapeXML] makes of one character. *)
Definition escape_char (a : ascii) : string :=
  if Ascii.eqb a "&" then "&amp;"
  else if Ascii.eqb a "<" then "&lt;"
  else if Ascii.eqb a ">" then "&gt;"
  else if Ascii.eqb a dquote then "&quot;"
  else if Ascii.eqb a "'" then "&#39;"
  else String a EmptyString.

End Xml.

(* ===================================================================== *)
(** * Properties                                                           *)
(* ===================================================================== *)

Module TransformFacts.
Import Transform.
Local Open Scope R_scope.

Lemma layout_nonzero v :
  non_degenerate v -> 0 < aspect_ratio v ->
  effective_width (plotToCanvas_layout v) <> 0 /\
  effective_height (plotToCanvas_layout v) <> 0.
Proof.
  intros (Hx & Hy & Hw & Hh) Ha.
  assert (Hxr : 0 < x_max (plot_bounds v) - x_min (plot_bounds v)) by lra.
  assert (Hyr : 0 < y_max (plot_bounds v) - y_min (plot_bounds v)) by lra.
  assert (Hpa : 0 < (x_max (plot_bounds v) - x_min (plot_bounds v)) * aspect_ratio v
                    / (y_max (plot_bounds v) - y_min (plot_bounds v))).
  { apply Rdiv_lt_0_compat; [apply Rmult_lt_0_compat|]; assumption. }
  unfold plotToCanvas_layout. cbv zeta.
  destruct (Rlt_dec _ _); cbn [effective_width effective_height]; split.
  - lra.
  - apply Rgt_not_eq, Rdiv_lt_0_compat; assumption.
  - apply Rgt_not_eq, Rmult_lt_0_compat; assumption.
  - lra.
Qed.

(** C1. With non-degenerate bounds and viewport and a positive aspect ratio,
    [canvasToPlot] and [plotToCanvas] are inverse to each other in both
    directions (for every plot point within the bounds, and for every device
    point), and both derive the same effective width, effective height and
    offsets. *)
Theorem canvasToPlot_plotToCanvas_inverse (v : view) :
  non_degenerate v -> 0 < aspect_ratio v ->
  canvasToPlot_layout v = plotToCanvas_layout v /\
  (forall p, within_bounds v p -> canvasToPlot v (plotToCanvas v p) = p) /\
  (forall d, plotToCanvas v (canvasToPlot v d) = d).
Proof.
  intros Hnd Ha.
  destruct (layout_nonzero v Hnd Ha) as [Hew Heh].
  destruct Hnd as (Hx & Hy & Hw & Hh).
  assert (Hxr : x_max (plot_bounds v) - x_min (plot_bounds v) <> 0) by lra.
  assert (Hyr : y_max (plot_bounds v) - y_min (plot_bounds v) <> 0) by lra.
  split; [reflexivity|].
  split.
  - intros [a b] _. unfold canvasToPlot, plotToCanvas.
    change (canvasToPlot_layout v) with (plotToCanvas_layout v).
    cbn [px py]. f_equal; field; auto.
  - intros [a b]. unfold canvasToPlot, plotToCanvas.
    change (canvasToPlot_layout v) with (plotToCanvas_layout v).
    cbn [px py]. f_equal; field; auto.
Qed.

Lemma canvasToPlot_plotToCanvas_inverse_witness :
  canvasToPlot default_view (plotToCanvas default_view (mkXY 3 4)) = mkXY 3 4.
Proof.
  assert (Hnd : non_degenerate default_view).
  { unfold non_degenerate, default_view; cbn. lra. }
  assert (Ha : 0 < aspect_ratio default_view) by (cbn; lra).
  apply (proj1 (proj2 (canvasToPlot_plotToCanvas_inverse default_view Hnd Ha))).
  unfold within_bounds, default_view; cbn. lra.
Defined.

End TransformFacts.


Module BraceFacts.
Import Transform Scene Brace.
Local Open Scope R_scope.

Lemma atan2_nonzero (dy dx : R) :
  0 < dx * dx + dy * dy -> atan2 dy dx = mkAngle dx dy.
Proof.
  intros H. unfold atan2.
  destruct (Req_dec_T dx 0) as [Hx|Hx]; [|reflexivity].
  destruct (Req_dec_T dy 0) as [Hy|Hy]; [|reflexivity].
  subst. lra.
Qed.

Lemma ccwForMinorArc_true a0 a1 :
  dir_x a0 * dir_y a1 - dir_y a0 * dir_x a1 < 0 -> ccwForMinorArc a0 a1 = true.
Proof. intros H. unfold ccwForMinorArc. destruct (Rlt_dec _ _); [reflexivity | contradiction]. Qed.

Lemma ccwForMinorArc_false a0 a1 :
  0 <= dir_x a0 * dir_y a1 - dir_y a0 * dir_x a1 -> ccwForMinorArc a0 a1 = false.
Proof. intros H. unfold ccwForMinorArc. destruct (Rlt_dec _ _); [lra | reflexivity]. Qed.

Section HalfBrace.
(** The half brace in the frame of its own construction: a start point, a
    unit vector along the brace, the perpendicular with the mirror sign, the
    two radii and the length of the straight run. *)
Variables Sx Sy Ex Ey ax ay perpX perpY mm r ro seg len : R.
Hypothesis unit_along : ax * ax + ay * ay = 1.
Hypothesis mirror : mm = 1 \/ mm = -1.
Hypothesis perpX_def : perpX = - ay * mm.
Hypothesis perpY_def : perpY = ax * mm.
Hypothesis r_pos : 0 < r.
Hypothesis ro_pos : 0 < ro.
Hypothesis ro_sq : ro * ro = 2 * (r * r).
Hypothesis seg_pos : 0 < seg.
Hypothesis seg_def : seg = len / 2 - 2 * r.
Hypothesis len_pos : 0 < len.
Hypothesis E_x : Ex - Sx = len * ax.
Hypothesis E_y : Ey - Sy = len * ay.

Let pt (s p : R) : xy := mkXY (Sx + ax * s + perpX * p) (Sy + ay * s + perpY * p).
Let angle (cx cy x y : R) : angle := atan2 (y - cy) (x - cx).
Let C1 := pt r r.
Let P1 := pt r (r - ro).
Let P2 := pt (r + seg) (r - ro).
Let C2 := pt (r + seg) (- ro).
Let PM := pt (len / 2) (- ro).
Let a0 := angle (px C1) (py C1) Sx Sy.
Let a1 := angle (px C1) (py C1) (px P1) (py P1).
Let b0 := angle (px C2) (py C2) (px P2) (py P2).
Let b1 := angle (px C2) (py C2) (px PM) (py PM).

Lemma mm_sq : mm * mm = 1.
Proof. destruct mirror; subst mm; ring. Qed.

Lemma a0_eq : a0 = mkAngle (Sx - px C1) (Sy - py C1).
Proof.
  apply atan2_nonzero. subst C1 pt. cbn. rewrite perpX_def, perpY_def.
  pose proof mm_sq as Hm.
  replace ((Sx - (Sx + ax * r + - ay * mm * r)) * (Sx - (Sx + ax * r + - ay * mm * r)) +
           (Sy - (Sy + ay * r + ax * mm * r)) * (Sy - (Sy + ay * r + ax * mm * r)))
    with (2 * (r * r)) by nsatz.
  nra.
Qed.

Lemma a1_eq : a1 = mkAngle (px P1 - px C1) (py P1 - py C1).
Proof.
  apply atan2_nonzero. subst P1 C1 pt. cbn. rewrite perpX_def, perpY_def.
  pose proof mm_sq as Hm.
  match goal with |- 0 < ?e => replace e with (ro * ro) by nsatz end.
  nra.
Qed.

Lemma b0_eq : b0 = mkAngle (px P2 - px C2) (py P2 - py C2).
Proof.
  apply atan2_nonzero. subst P2 C2 pt. cbn. rewrite perpX_def, perpY_def.
  pose proof mm_sq as Hm.
  match goal with |- 0 < ?e => replace e with (r * r) by nsatz end.
  nra.
Qed.

Lemma b1_eq : b1 = mkAngle (px PM - px C2) (py PM - py C2).
Proof.
  apply atan2_nonzero. subst PM C2 pt. cbn. rewrite perpX_def, perpY_def.
  match goal with |- 0 < ?e => replace e with (r * r) by (rewrite seg_def; nsatz) end.
  nra.
Qed.

Lemma outer_ccw : ccwForMinorArc a0 a1 = if Rlt_dec mm 0 then true else false.
Proof.
  rewrite a0_eq, a1_eq. pose proof mm_sq as Hm.
  assert (Hcross : dir_x (mkAngle (Sx - px C1) (Sy - py C1)) *
                   dir_y (mkAngle (px P1 - px C1) (py P1 - py C1)) -
                   dir_y (mkAngle (Sx - px C1) (Sy - py C1)) *
                   dir_x (mkAngle (px P1 - px C1) (py P1 - py C1)) = r * ro * mm).
  { subst P1 C1 pt. cbn. rewrite perpX_def, perpY_def. nsatz. }
  assert (0 < r * ro) by (apply Rmult_lt_0_compat; assumption).
  destruct (Rlt_dec mm 0).
  - apply ccwForMinorArc_true. rewrite Hcross. nra.
  - apply ccwForMinorArc_false. rewrite Hcross. nra.
Qed.

Lemma inner_ccw : ccwForMinorArc b0 b1 = if Rlt_dec mm 0 then false else true.
Proof.
  rewrite b0_eq, b1_eq. pose proof mm_sq as Hm.
  assert (Hcross : dir_x (mkAngle (px P2 - px C2) (py P2 - py C2)) *
                   dir_y (mkAngle (px PM - px C2) (py PM - py C2)) -
                   dir_y (mkAngle (px P2 - px C2) (py P2 - py C2)) *
                   dir_x (mkAngle (px PM - px C2) (py PM - py C2)) = - (r * r * mm)).
  { subst P2 PM C2 pt. cbn. rewrite perpX_def, perpY_def, seg_def. nsatz. }
  assert (0 < r * r) by (apply Rmult_lt_0_compat; assumption).
  destruct mirror; subst mm.
  - destruct (Rlt_dec 1 0); [lra|]. apply ccwForMinorArc_true. rewrite Hcross. nra.
  - destruct (Rlt_dec (-1) 0); [|lra]. apply ccwForMinorArc_false. rewrite Hcross. nra.
Qed.

Lemma half_core :
  smooth_junctions (mkXY Sx Sy) (mkXY Ex Ey)
    [ moveTo Sx Sy;
      arc (px C1) (py C1) ro a0 a1 (ccwForMinorArc a0 a1);
      lineTo (px P2) (py P2);
      arc (px C2) (py C2) r b0 b1 (ccwForMinorArc b0 b1) ].
Proof.
  cbn [smooth_junctions]. exists P1.
  rewrite outer_ccw, inner_ccw, a0_eq, a1_eq, b0_eq.
  pose proof mm_sq as Hm.
  assert (Hseg : seg <> 0) by lra.
  assert (Hlen : len <> 0) by lra.
  assert (HP : px P2 - px P1 = ax * seg /\ py P2 - py P1 = ay * seg).
  { subst P1 P2 pt. cbn. split; ring. }
  destruct HP as [HPx HPy].
  cbn [px py]. rewrite HPx, HPy, E_x, E_y.
  split; [reflexivity|]. split; [reflexivity|].
  split.
  { (* the outer arc starts at S *)
    split; [assumption|]. split.
    - subst C1 pt. cbn. rewrite perpX_def, perpY_def. nsatz.
    - exists 1. cbn. split; [lra|]. split; ring. }
  split.
  { (* it ends at P1 *)
    split; [assumption|]. split.
    - subst P1 C1 pt. cbn. rewrite perpX_def, perpY_def. nsatz.
    - exists 1. cbn. split; [lra|]. split; ring. }
  split.
  { (* travelling along the brace *)
    exists (ro / seg). split; [apply Rdiv_lt_0_compat; assumption|].
    subst P1 C1 pt. cbn. rewrite perpX_def, perpY_def.
    destruct mirror; subst mm.
    - destruct (Rlt_dec 1 0); [lra|]. cbn. split; field; assumption.
    - destruct (Rlt_dec (-1) 0); [|lra]. cbn. split; field; assumption. }
  split.
  { exists (seg / len). split; [apply Rdiv_lt_0_compat; assumption|]. split; field; assumption. }
  split.
  { (* the inner arc starts at P2 *)
    split; [assumption|]. split.
    - subst P2 C2 pt. cbn. rewrite perpX_def, perpY_def. nsatz.
    - exists 1. cbn. split; [lra|]. split; ring. }
  { exists (r / seg). split; [apply Rdiv_lt_0_compat; assumption|].
    subst P2 C2 pt. cbn. rewrite perpX_def, perpY_def.
    destruct mirror; subst mm.
    - destruct (Rlt_dec 1 0); [lra|]. cbn. split; field; assumption.
    - destruct (Rlt_dec (-1) 0); [|lra]. cbn. split; field; assumption. }
Qed.

End HalfBrace.

Lemma truthy_or_else (e w : option R) :
  truthy e || truthy w = true -> or_else e (or_else w 0) <> 0.
Proof.
  unfold truthy, or_else.
  destruct e as [x|]; [destruct (Req_dec_T x 0)|];
    (destruct w as [y|]; [destruct (Req_dec_T y 0)|]); cbn; intros H; try discriminate; assumption.
Qed.

Lemma half_length_sq (S E : xy) :
  half_length S E * half_length S E
  = (px E - px S) * (px E - px S) + (py E - py S) * (py E - py S).
Proof.
  unfold half_length. apply sqrt_sqrt.
  pose proof (Rle_0_sqr (px E - px S)) as Hx.
  pose proof (Rle_0_sqr (py E - py S)) as Hy.
  unfold Rsqr in Hx, Hy. lra.
Qed.

(** C8 (as amended).  For a half brace whose ends are at least 20 pixels
    apart and whose elevation ([brace.elevation || brace.width]) is not
    negative, the path is [moveTo S; arc; lineTo P2; arc]; the outer arc, of
    radius [innerR * sqrt 2], starts at [S] and reaches the straight segment
    travelling in the segment's direction, and the inner arc leaves the
    segment in that same direction, which is the direction of the brace. *)
Theorem half_brace_smooth_junctions (S E : xy) (mm : R) (b : plot_object) :
  mm = 1 \/ mm = -1 ->
  20 <= half_length S E ->
  0 <= elevation_or_width b ->
  smooth_junctions S E (draw45DegBraceHalf S E mm b).
Proof.
  intros Hmm Hlen Helev.
  pose proof (half_length_sq S E) as Hsq.
  unfold draw45DegBraceHalf. fold (half_length S E).
  destruct (Rlt_dec (half_length S E) 20) as [Hlt|_]; [lra|].
  unfold half_locals. fold (half_length S E). cbn [h_C1 h_P1 h_P2 h_C2 h_PM h_outerR h_innerR px py].
  set (L := half_length S E) in *.
  set (innerR := if truthy (obj_elevation b) || truthy (obj_width b)
                 then Rmin (or_else (obj_elevation b) (or_else (obj_width b) 0)) (L / 6)
                 else L / 6).
  assert (HL : L <> 0) by lra.
  assert (Hr : 0 < innerR <= L / 6).
  { unfold innerR. destruct (truthy _ || truthy _) eqn:Ht; [|lra].
    apply truthy_or_else in Ht. unfold elevation_or_width in Helev.
    unfold Rmin. destruct (Rle_dec _ _); lra. }
  assert (Hs2 : 0 < sqrt 2) by (apply sqrt_lt_R0; lra).
  assert (Hs2sq : sqrt 2 * sqrt 2 = 2) by (apply sqrt_sqrt; lra).
  assert (Hseg : Rmax 0 (L / 2 - 2 * innerR) = L / 2 - 2 * innerR).
  { apply Rmax_right. lra. }
  destruct S as [Sx Sy], E as [Ex Ey]. cbn [px py] in *.
  apply (half_core Sx Sy Ex Ey ((Ex - Sx) / L) ((Ey - Sy) / L)
           (- (Ey - Sy) / L * mm) ((Ex - Sx) / L * mm) mm
           innerR (innerR * sqrt 2) (Rmax 0 (L / 2 - 2 * innerR)) L).
  - replace ((Ex - Sx) / L * ((Ex - Sx) / L) + (Ey - Sy) / L * ((Ey - Sy) / L))
      with (((Ex - Sx) * (Ex - Sx) + (Ey - Sy) * (Ey - Sy)) / (L * L)) by (field; assumption).
    rewrite <- Hsq. field. assumption.
  - assumption.
  - field. assumption.
  - reflexivity.
  - lra.
  - apply Rmult_lt_0_compat; lra.
  - replace (innerR * sqrt 2 * (innerR * sqrt 2)) with (innerR * innerR * (sqrt 2 * sqrt 2)) by ring.
    rewrite Hs2sq. ring.
  - rewrite Hseg. lra.
  - exact Hseg.
  - lra.
  - field. assumption.
  - field. assumption.
Qed.

Lemma half_length_60 : half_length (mkXY 0 0) (mkXY 60 0) = 60.
Proof.
  unfold half_length. cbn [px py].
  replace ((60 - 0) * (60 - 0) + (0 - 0) * (0 - 0)) with (60 * 60) by ring.
  apply sqrt_square. lra.
Qed.

Lemma elevation_or_width_wide (e : R) : e <> 0 -> elevation_or_width (wide_brace e) = e.
Proof.
  intros H. unfold elevation_or_width, wide_brace, brace_object, or_else. cbn.
  destruct (Req_dec_T e 0); [contradiction | reflexivity].
Qed.

Lemma half_brace_smooth_junctions_witness :
  smooth_junctions (mkXY 0 0) (mkXY 60 0)
    (draw45DegBraceHalf (mkXY 0 0) (mkXY 60 0) 1 (wide_brace 15)).
Proof.
  apply half_brace_smooth_junctions.
  - left. reflexivity.
  - rewrite half_length_60. lra.
  - rewrite elevation_or_width_wide; lra.
Defined.

(** C8 (as stated) fails for a negative elevation: with elevation [-3] the
    ends are 60 pixels apart, yet the radius handed to the outer arc is
    [-3 * sqrt 2], which is no arc at all (the canvas rejects a negative
    radius), and the junction is not smooth. *)
Lemma negative_elevation_not_smooth :
  (1 = 1 \/ 1 = -1) /\
  20 <= half_length (mkXY 0 0) (mkXY 60 0) /\
  ~ smooth_junctions (mkXY 0 0) (mkXY 60 0)
      (draw45DegBraceHalf (mkXY 0 0) (mkXY 60 0) 1 (wide_brace (-3))).
Proof.
  split; [left; reflexivity|]. split; [rewrite half_length_60; lra|].
  unfold draw45DegBraceHalf. fold (half_length (mkXY 0 0) (mkXY 60 0)).
  rewrite half_length_60.
  destruct (Rlt_dec 60 20) as [Hlt|_]; [lra|].
  unfold half_locals. fold (half_length (mkXY 0 0) (mkXY 60 0)). rewrite half_length_60.
  cbn [h_C1 h_P1 h_P2 h_C2 h_PM h_outerR h_innerR px py smooth_junctions].
  intros (P1 & _ & _ & (Hro & _) & _).
  revert Hro. unfold wide_brace, brace_object, truthy, or_else. cbn.
  destruct (Req_dec_T (-3) 0) as [H0|_]; [lra|]. cbn.
  assert (Hs2 : 0 < sqrt 2) by (apply sqrt_lt_R0; lra).
  unfold Rmin. destruct (Rle_dec (-3) (60 / 6)); [|lra]. nra.
Qed.

(** *** Degenerate braces *)

Lemma canvas_length_half_length v b :
  canvas_length v b
  = half_length (plotToCanvas v (mkXY (obj_x1 b) (obj_y1 b)))
                (plotToCanvas v (mkXY (obj_x2 b) (obj_y2 b))).
Proof. reflexivity. Qed.

Lemma half_length_sym S E : half_length S E = half_length E S.
Proof. unfold half_length. f_equal. ring. Qed.

(** The traditional and the 45deg style render nothing below their
    20-pixel threshold. *)
Lemma short_brace_renders_nothing v b :
  canvas_length v b < 20 ->
  renders_nothing (drawTraditionalBrace v b) /\ renders_nothing (draw45DegBrace v b).
Proof.
  intros H. split.
  - unfold drawTraditionalBrace. fold (canvas_length v b).
    destruct (Rlt_dec _ _); [reflexivity | contradiction].
  - unfold draw45DegBrace, draw45DegBraceHalf.
    rewrite canvas_length_half_length in H.
    set (S := plotToCanvas v (mkXY (obj_x1 b) (obj_y1 b))) in *.
    set (E := plotToCanvas v (mkXY (obj_x2 b) (obj_y2 b))) in *.
    fold (half_length S E). fold (half_length E S). rewrite (half_length_sym E S).
    destruct (Rlt_dec _ _); [reflexivity | contradiction].
Qed.

(** C7 (the code departs from the claim).  On the default view the ends of
    [tiny_smooth_brace] are a quarter of a pixel apart; [drawBrace] sends it
    to [drawSmoothBrace], which has no length test: it divides by the
    length and emits two curves and a stroke. *)
Theorem smooth_brace_draws_when_degenerate :
  canvas_length default_view tiny_smooth_brace < 1 /\
  drawBrace default_view tiny_smooth_brace = drawSmoothBrace default_view tiny_smooth_brace /\
  length (filter (fun c => is_segment c = true)
                 (drawBrace default_view tiny_smooth_brace)) = 2%nat /\
  ~ renders_nothing (drawBrace default_view tiny_smooth_brace).
Proof.
  assert (Hd : drawBrace default_view tiny_smooth_brace
               = drawSmoothBrace default_view tiny_smooth_brace) by reflexivity.
  split; [|split; [exact Hd | rewrite Hd; split]].
  - unfold canvas_length, plotToCanvas, plotToCanvas_layout, default_view, tiny_smooth_brace,
      brace_object.
    cbn [plot_bounds aspect_ratio canvas_padding plot_width plot_height
         x_min x_max y_min y_max obj_x1 obj_y1 obj_x2 obj_y2 px py].
    destruct (Rlt_dec _ _) as [Hlt|_]; [lra|].
    cbn [effective_width effective_height x_offset y_offset px py].
    match goal with |- sqrt ?e < 1 => replace e with ((6 / 25) * (6 / 25)) by field end.
    rewrite sqrt_square; lra.
  - reflexivity.
  - unfold renders_nothing, drawSmoothBrace. cbn [forallb is_segment negb andb]. discriminate.
Qed.

End BraceFacts.

Module PickingFacts.
Import Scene Color Picking.
Local Open Scope Z_scope.

Lemma extends_refl reg : extends reg reg.
Proof. intros i c H. exact H. Qed.

Lemma extends_trans r1 r2 r3 : extends r1 r2 -> extends r2 r3 -> extends r1 r3.
Proof. intros H1 H2 i c H. apply H2, H1, H. Qed.

Lemma getObjectColor_memo reg object_id c :
  id_color_map reg !! object_id = Some c -> getObjectColor reg object_id = (c, reg).
Proof. intros H. unfold getObjectColor. rewrite H. reflexivity. Qed.

Lemma getObjectColor_extends reg object_id c reg' :
  getObjectColor reg object_id = (c, reg') ->
  extends reg reg' /\ id_color_map reg' !! object_id = Some c.
Proof.
  unfold getObjectColor. destruct (id_color_map reg !! object_id) as [c0|] eqn:Hl.
  - intros H. injection H as <- <-. split; [apply extends_refl | exact Hl].
  - destruct (retry_loop _ _ _ _ _) as [n c1].
    destruct (Z.of_nat max_attempts <=? n).
    + unfold generateSequentialColor. cbn. intros H. injection H as <- <-. split.
      * intros i c' Hi. cbn. rewrite lookup_insert_ne; [exact Hi | congruence].
      * cbn. apply lookup_insert_eq.
    + intros H. injection H as <- <-. split.
      * intros i c' Hi. cbn. rewrite lookup_insert_ne; [exact Hi | congruence].
      * cbn. apply lookup_insert_eq.
Qed.

End PickingFacts.

Module CommandFacts.
Import Transform Scene Commands.
Local Open Scope Z_scope.

(** *** Array primitives *)

Lemma findIndex_from_found {A} (pred : A -> bool) (l : list A) (i : nat) (a : A) (k : Z) :
  l !! i = Some a -> pred a = true ->
  Forall (fun b => pred b = false) (take i l) ->
  findIndex_from pred l k = k + Z.of_nat i.
Proof.
  revert i k.
  induction l as [|b l IH]; intros i k Hl Hp Hall; [destruct i; discriminate|].
  cbn [findIndex_from]. destruct i as [|i].
  - cbn in Hl. injection Hl as ->. rewrite Hp. lia.
  - cbn in Hl, Hall. inversion Hall as [|? ? Hb Hall']; subst. rewrite Hb.
    rewrite (IH i (k + 1)); auto. lia.
Qed.

Lemma findIndex_found {A} (pred : A -> bool) (l : list A) (i : nat) (a : A) :
  l !! i = Some a -> pred a = true ->
  Forall (fun b => pred b = false) (take i l) ->
  findIndex pred l = Z.of_nat i.
Proof.
  intros Hl Hp Hall. unfold findIndex.
  rewrite (findIndex_from_found pred l i a 0 Hl Hp Hall). lia.
Qed.

Lemma splice_start_in_range {A} (l : list A) (i : nat) :
  (i <= length l)%nat -> splice_start l (Z.of_nat i) = i.
Proof.
  intros Hi. unfold splice_start.
  destruct (Z.ltb_spec (Z.of_nat i) 0); lia.
Qed.

Lemma splice_remove_insert {A} (l : list A) (i : nat) (a : A) :
  l !! i = Some a ->
  splice_insert (splice_remove l (Z.of_nat i)) (Z.of_nat i) a = l.
Proof.
  intros Hl. pose proof (lookup_lt_Some _ _ _ Hl) as Hlt.
  unfold splice_insert, splice_remove.
  rewrite (splice_start_in_range l i) by lia.
  assert (Hlen : (i <= length (take i l ++ drop (S i) l))%nat).
  { rewrite length_app, length_take. lia. }
  rewrite (splice_start_in_range _ i Hlen).
  rewrite take_app_le by (rewrite length_take; lia).
  rewrite take_take, Nat.min_id.
  rewrite drop_app_ge by (rewrite length_take; lia).
  rewrite length_take, Nat.min_l by lia. rewrite Nat.sub_diag. cbn [drop].
  apply take_drop_middle. assumption.
Qed.

(** *** What the history bookkeeping leaves alone *)

Lemma push_history_scene c ed :
  eheap (push_history c ed) = eheap ed /\
  plot_objects (push_history c ed) = plot_objects ed /\
  selected_object (push_history c ed) = selected_object ed /\
  max_history_size (push_history c ed) = max_history_size ed /\
  dragging (push_history c ed) = dragging ed.
Proof. unfold push_history. destruct (_ <? _); cbn; auto. Qed.

Lemma executeCommand_Add (r : ref) (ed : editor) :
  exists ed', executeCommand (AddObjectCommand r) ed = Some ed' /\
    eheap ed' = eheap ed /\
    plot_objects ed' = plot_objects ed ++ [r] /\
    selected_object ed' = Some r.
Proof.
  eexists. split; [reflexivity|].
  match goal with |- context [push_history ?c ?e] =>
    destruct (push_history_scene c e) as (Hh & Hl & Hs & _) end.
  rewrite Hh, Hl, Hs. auto.
Qed.

(** *** Creating an area *)

(** C10. The object that [addArea] creates and appends to the object list
    has normalised corners, whatever the direction of the drag:
    [x1 = min(start.x, end.x) <= x2 = max(start.x, end.x)] and likewise for
    [y]. *)
Theorem addArea_normalized (new_id : string) (start_coords end_coords : xy) (ed : editor) :
  exists ed' o,
    addArea new_id start_coords end_coords ed = Some ed' /\
    last (plot_objects ed') = Some (length (eheap ed)) /\
    eheap ed' !! length (eheap ed) = Some o /\
    obj_type o = TArea /\
    (obj_x1 o = Rmin (px start_coords) (px end_coords) /\
     obj_x2 o = Rmax (px start_coords) (px end_coords) /\
     obj_y1 o = Rmin (py start_coords) (py end_coords) /\
     obj_y2 o = Rmax (py start_coords) (py end_coords) /\
     obj_x1 o <= obj_x2 o /\ obj_y1 o <= obj_y2 o)%R.
Proof.
  unfold addArea.
  destruct (executeCommand_Add (length (eheap ed))
              (set_heap (eheap ed ++ [area_object new_id start_coords end_coords]) ed))
    as (ed' & Hex & Hh & Hl & _).
  exists ed', (area_object new_id start_coords end_coords).
  split; [exact Hex|].
  rewrite Hh, Hl. cbn [set_heap eheap plot_objects].
  split; [apply last_snoc|].
  split.
  { rewrite lookup_app_r by lia. rewrite Nat.sub_diag. reflexivity. }
  cbn. repeat split; try reflexivity.
  - apply Rle_trans with (px start_coords); [apply Rmin_l | apply Rmax_l].
  - apply Rle_trans with (py start_coords); [apply Rmin_l | apply Rmax_l].
Qed.

(** *** Delete and its inverse *)

Lemma newDeleteObjectCommand_index (ed : editor) (r : ref) (i : nat) :
  plot_objects ed !! i = Some r -> ids_unique ed ->
  newDeleteObjectCommand ed r = DeleteObjectCommand r (Z.of_nat i).
Proof.
  intros Hl Hnd. unfold newDeleteObjectCommand. f_equal.
  apply findIndex_found with (a := r); [assumption | |].
  - unfold same_id. apply bool_decide_eq_true. reflexivity.
  - apply Forall_forall. intros r' Hin.
    apply list_elem_of_lookup in Hin as [j Hj].
    apply lookup_take_Some in Hj as [Hj Hlt].
    unfold same_id. apply bool_decide_eq_false. intros Heq.
    assert (Hij : j = i).
    { apply (NoDup_lookup _ j i (id_of (eheap ed) r') Hnd);
        rewrite list_lookup_fmap; [rewrite Hj | rewrite Hl]; cbn; congruence. }
    lia.
Qed.

(** C5. Undoing a [DeleteObjectCommand] re-inserts the deleted object at the
    index it had when the command was created: in a scene with unique ids,
    deleting an object of the list and undoing the deletion gives back the
    object list in its original order. *)
Theorem delete_undo_restores_order (ed : editor) (r : ref) :
  r ∈ plot_objects ed -> ids_unique ed ->
  exists (i : nat) ed1 ed2,
    plot_objects ed !! i = Some r /\
    newDeleteObjectCommand ed r = DeleteObjectCommand r (Z.of_nat i) /\
    execute (newDeleteObjectCommand ed r) ed = Some ed1 /\
    plot_objects ed1 = take i (plot_objects ed) ++ drop (S i) (plot_objects ed) /\
    undo_command (newDeleteObjectCommand ed r) ed1 = Some ed2 /\
    plot_objects ed2 !! i = Some r /\
    plot_objects ed2 = plot_objects ed.
Proof.
  intros Hin Hnd. apply list_elem_of_lookup in Hin as [i Hi].
  pose proof (lookup_lt_Some _ _ _ Hi) as Hlt.
  rewrite (newDeleteObjectCommand_index ed r i Hi Hnd).
  exists i. eexists. eexists.
  split; [exact Hi|]. split; [reflexivity|].
  cbn [execute]. rewrite bool_decide_eq_true_2 by lia.
  split; [reflexivity|].
  split.
  { cbn. unfold splice_remove. rewrite splice_start_in_range by lia. reflexivity. }
  cbn [undo_command]. split; [reflexivity|].
  cbn. rewrite splice_remove_insert by assumption. split; [assumption | reflexivity].
Qed.

Lemma three_points_unique : ids_unique three_points.
Proof.
  unfold ids_unique, three_points. cbn.
  repeat (constructor; [rewrite ?elem_of_cons, elem_of_nil; intros H;
                        repeat destruct H as [H|H]; try discriminate; exact H|]).
  constructor.
Qed.

Lemma delete_undo_restores_order_witness :
  exists (i : nat) ed1 ed2,
    plot_objects three_points !! i = Some 1%nat /\
    newDeleteObjectCommand three_points 1%nat = DeleteObjectCommand 1%nat (Z.of_nat i) /\
    execute (newDeleteObjectCommand three_points 1%nat) three_points = Some ed1 /\
    plot_objects ed1 = take i (plot_objects three_points) ++ drop (S i) (plot_objects three_points) /\
    undo_command (newDeleteObjectCommand three_points 1%nat) ed1 = Some ed2 /\
    plot_objects ed2 !! i = Some 1%nat /\
    plot_objects ed2 = plot_objects three_points.
Proof.
  apply (delete_undo_restores_order three_points 1%nat).
  - cbn. apply elem_of_cons. right. apply elem_of_cons. left. reflexivity.
  - exact three_points_unique.
Defined.

(** *** Commands and the selection *)

Lemma update_object_scene f r ed ed' :
  update_object f r ed = Some ed' ->
  exists o o', eheap ed !! r = Some o /\ f o = Some o' /\
               ed' = set_heap (<[r := o']> (eheap ed)) ed.
Proof.
  unfold update_object. intros H.
  destruct (eheap ed !! r) as [o|] eqn:Ho; cbn in H; [|discriminate].
  destruct (f o) as [o'|] eqn:Hf; cbn in H; [|discriminate].
  injection H as <-. exists o, o'. auto.
Qed.

Lemma selection_live_set_heap h ed :
  selection_live ed -> selection_live (set_heap h ed).
Proof. intros H. exact H. Qed.

Lemma findIndex_from_range {A} (pred : A -> bool) (l : list A) (i : Z) :
  findIndex_from pred l i = -1 \/
  i <= findIndex_from pred l i < i + Z.of_nat (length l).
Proof.
  revert i. induction l as [|a l IH]; intros i; cbn [findIndex_from length]; [left; reflexivity|].
  destruct (pred a); [right; lia|].
  destruct (IH (i + 1)) as [->|H]; [left; reflexivity | right; lia].
Qed.

Lemma splice_remove_at {A} (l : list A) (k : nat) :
  (k <= length l)%nat -> splice_remove l (Z.of_nat k) = take k l ++ drop (S k) l.
Proof. intros H. unfold splice_remove. rewrite splice_start_in_range by assumption. reflexivity. Qed.

(** C6. Executing or undoing a command returns and keeps the selection,
    when there is one, among the objects of the list.  Delete's execute
    takes the object at its index off the list and clears the selection (and
    does nothing when the index is [-1]); Add's undo does the same for the
    listed object with the command's id; Clear's execute empties the list
    and clears the selection; undoing a Clear puts back the saved list and
    the saved selection as they were. *)
Theorem commands_preserve_selection (c : command) (ed : editor) :
  snapshot_live c -> selection_live ed -> command_fits c ed ->
  (exists ed1, execute c ed = Some ed1 /\ selection_live ed1) /\
  (exists ed2, undo_command c ed = Some ed2 /\ selection_live ed2) /\
  (forall r (k : nat), c = DeleteObjectCommand r (Z.of_nat k) ->
     (k <= length (plot_objects ed))%nat ->
     exists ed1, execute c ed = Some ed1 /\
       plot_objects ed1 = take k (plot_objects ed) ++ drop (S k) (plot_objects ed) /\
       selected_object ed1 = None) /\
  (forall r, c = DeleteObjectCommand r (-1) -> execute c ed = Some ed) /\
  (forall r (k : nat), c = AddObjectCommand r ->
     findIndex (same_id (eheap ed) r) (plot_objects ed) = Z.of_nat k ->
     exists ed2, undo_command c ed = Some ed2 /\
       plot_objects ed2 = take k (plot_objects ed) ++ drop (S k) (plot_objects ed) /\
       selected_object ed2 = None) /\
  (forall objs sel, c = ClearPlotCommand objs sel ->
     exists ed1, execute c ed = Some ed1 /\
       plot_objects ed1 = [] /\ selected_object ed1 = None) /\
  (forall objs sel, c = ClearPlotCommand objs sel ->
     exists ed2, undo_command c ed = Some ed2 /\
       plot_objects ed2 = objs /\ selected_object ed2 = sel).
Proof.
  intros Hc Hsel Hfit.
  split; [|split; [|split; [|split; [|split; [|split]]]]].
  - destruct c; cbn [execute].
    + eexists. split; [reflexivity|]. intros r Hr. cbn in Hr. injection Hr as <-. cbn.
      apply elem_of_app. right. apply list_elem_of_singleton. reflexivity.
    + destruct (bool_decide _); eexists; (split; [reflexivity|]); [|assumption].
      intros r Hr. discriminate.
    + destruct Hfit as [o Ho]. unfold update_object. rewrite Ho. cbn.
      eexists. split; [reflexivity|]. apply selection_live_set_heap; assumption.
    + destruct Hfit as (o & Ho & _ & [o' Ho']). unfold update_object. rewrite Ho. cbn.
      rewrite Ho'. cbn.
      eexists. split; [reflexivity|]. apply selection_live_set_heap; assumption.
    + eexists. split; [reflexivity|]. intros r Hr. discriminate.
  - destruct c; cbn [undo_command].
    + destruct (bool_decide _); eexists; (split; [reflexivity|]); [|assumption].
      intros r Hr. discriminate.
    + eexists. split; [reflexivity|]. intros r Hr. cbn in Hr. injection Hr as <-. cbn.
      unfold splice_insert. apply elem_of_app. right. apply elem_of_cons. left. reflexivity.
    + destruct Hfit as [o Ho]. unfold update_object. rewrite Ho. cbn.
      eexists. split; [reflexivity|]. apply selection_live_set_heap; assumption.
    + destruct Hfit as (o & Ho & [o' Ho'] & _). unfold update_object. rewrite Ho. cbn.
      rewrite Ho'. cbn.
      eexists. split; [reflexivity|]. apply selection_live_set_heap; assumption.
    + eexists. split; [reflexivity|]. intros r Hr. cbn in Hr |- *. apply Hc. assumption.
  - intros r k -> Hk. cbn [execute]. rewrite bool_decide_eq_true_2 by lia.
    eexists. split; [reflexivity|]. cbn. split; [apply splice_remove_at; assumption | reflexivity].
  - intros r ->. reflexivity.
  - intros r k -> Hk. cbn [undo_command]. rewrite Hk. rewrite bool_decide_eq_true_2 by lia.
    eexists. split; [reflexivity|]. cbn. split; [|reflexivity].
    apply splice_remove_at.
    destruct (findIndex_from_range (same_id (eheap ed) r) (plot_objects ed) 0) as [H|H];
      unfold findIndex in Hk; lia.
  - intros objs sel ->. eexists. split; [reflexivity|]. split; reflexivity.
  - intros objs sel ->. eexists. split; [reflexivity|]. split; reflexivity.
Qed.

Lemma newClearPlotCommand_snapshot_live (ed : editor) :
  selection_live ed -> snapshot_live (newClearPlotCommand ed).
Proof. intros H. exact H. Qed.

Lemma three_points_selection_live : selection_live three_points.
Proof.
  intros r Hr. cbn in Hr. injection Hr as <-. cbn.
  apply elem_of_cons. right. apply elem_of_cons. left. reflexivity.
Qed.

(** On the three points, with the second selected: deleting it, and
    clearing the plot and undoing that. *)
Lemma commands_preserve_selection_witness :
  (exists ed1, execute (DeleteObjectCommand 1%nat 1) three_points = Some ed1 /\
     plot_objects ed1 = [0%nat; 2%nat] /\ selected_object ed1 = None) /\
  (exists ed1 ed2,
     execute (newClearPlotCommand three_points) three_points = Some ed1 /\
     plot_objects ed1 = [] /\ selected_object ed1 = None /\
     undo_command (newClearPlotCommand three_points) ed1 = Some ed2 /\
     plot_objects ed2 = [0%nat; 1%nat; 2%nat] /\ selected_object ed2 = Some 1%nat /\
     selection_live ed2).
Proof.
  split.
  - destruct (commands_preserve_selection (DeleteObjectCommand 1%nat 1) three_points
                I three_points_selection_live I) as (_ & _ & H & _).
    apply (H 1%nat 1%nat eq_refl). cbn. lia.
  - destruct (commands_preserve_selection (newClearPlotCommand three_points) three_points
                (newClearPlotCommand_snapshot_live _ three_points_selection_live)
                three_points_selection_live I) as (_ & _ & _ & _ & _ & H & _).
    destruct (H _ _ eq_refl) as (ed1 & He & Hl & Hs).
    assert (Hlive1 : selection_live ed1).
    { intros r Hr. rewrite Hs in Hr. discriminate. }
    destruct (commands_preserve_selection (newClearPlotCommand three_points) ed1
                (newClearPlotCommand_snapshot_live _ three_points_selection_live)
                Hlive1 I) as (_ & [ed2' [Hu' Hlive2]] & _ & _ & _ & _ & H2).
    destruct (H2 _ _ eq_refl) as (ed2 & Hu & Hl2 & Hs2).
    exists ed1, ed2. repeat (split; [assumption|]).
    rewrite Hu in Hu'. injection Hu' as <-. exact Hlive2.
Defined.

(** *** The history *)

Lemma execute_keeps_history c ed ed' :
  execute c ed = Some ed' ->
  command_history ed' = command_history ed /\
  current_command_index ed' = current_command_index ed /\
  max_history_size ed' = max_history_size ed /\
  dragging ed' = dragging ed.
Proof.
  intros H. destruct c; cbn in H.
  - injection H as <-. auto.
  - destruct (bool_decide _); injection H as <-; auto.
  - apply update_object_scene in H as (o & o' & _ & _ & ->). auto.
  - apply update_object_scene in H as (o & o' & _ & _ & ->). auto.
  - injection H as <-. auto.
Qed.

Lemma undo_command_keeps_history c ed ed' :
  undo_command c ed = Some ed' ->
  command_history ed' = command_history ed /\
  current_command_index ed' = current_command_index ed /\
  max_history_size ed' = max_history_size ed /\
  dragging ed' = dragging ed.
Proof.
  intros H. destruct c; cbn in H.
  - destruct (bool_decide _); injection H as <-; auto.
  - injection H as <-. auto.
  - apply update_object_scene in H as (o & o' & _ & _ & ->). auto.
  - apply update_object_scene in H as (o & o' & _ & _ & ->). auto.
  - injection H as <-. auto.
Qed.

Lemma slice0_take {A} (l : list A) (e : Z) :
  0 <= e -> slice0 l e = take (Z.to_nat e) l.
Proof. intros H. unfold slice0. destruct (Z.ltb_spec e 0); [lia | reflexivity]. Qed.

Lemma push_history_spec c ed :
  let h := command_history ed ++ [c] in
  (max_history_size ed < Z.of_nat (length h) ->
   command_history (push_history c ed) = tail h /\
   current_command_index (push_history c ed) = current_command_index ed) /\
  (Z.of_nat (length h) <= max_history_size ed ->
   command_history (push_history c ed) = h /\
   current_command_index (push_history c ed) = current_command_index ed + 1).
Proof.
  cbn zeta. unfold push_history.
  destruct (Z.ltb_spec (max_history_size ed) (Z.of_nat (length (command_history ed ++ [c]))));
    split; intros; try lia; cbn; split; auto; lia.
Qed.

Lemma executeCommand_inv c ed ed' :
  executeCommand c ed = Some ed' ->
  exists ed1, execute c (truncate_history ed) = Some ed1 /\ ed' = push_history c ed1.
Proof.
  unfold executeCommand. intros H.
  destruct (execute c (truncate_history ed)) as [ed1|]; cbn in H; [|discriminate].
  injection H as <-. eauto.
Qed.

Lemma length_tail_snoc {A} (l : list A) (a : A) : length (tail (l ++ [a])) = length l.
Proof. destruct l; cbn; [reflexivity|]. rewrite length_app. cbn. lia. Qed.

Lemma run_op_preserves (op : history_op) (ed ed' : editor) :
  cursor_in_range ed -> history_bounded ed -> run_op op ed = Some ed' ->
  cursor_in_range ed' /\ history_bounded ed' /\ max_history_size ed' = max_history_size ed.
Proof.
  unfold cursor_in_range, history_bounded. intros Hc Hb H.
  destruct op as [c| |]; cbn [run_op] in H.
  - apply executeCommand_inv in H as (ed1 & He & ->).
    apply execute_keeps_history in He as (Hh & Hi & Hm & _).
    cbn in Hh, Hi, Hm.
    rewrite slice0_take in Hh by lia.
    destruct (push_history_scene c ed1) as (_ & _ & _ & Hm' & _).
    assert (Hlen : length (command_history ed1) = Z.to_nat (current_command_index ed + 1)).
    { rewrite Hh, length_take. lia. }
    destruct (push_history_spec c ed1) as [Hevict Hkeep]. cbn zeta in *.
    rewrite Hm'.
    destruct (Z.lt_ge_cases (max_history_size ed1)
                (Z.of_nat (length (command_history ed1 ++ [c])))) as [Hlt|Hge].
    + destruct (Hevict Hlt) as [-> ->]. rewrite length_tail_snoc. lia.
    + destruct (Hkeep Hge) as [-> ->]. rewrite length_app in *. cbn in *. lia.
  - unfold undo in H. destruct (Z.leb_spec 0 (current_command_index ed)).
    + destruct (index _ _) as [c|]; cbn in H; [|discriminate].
      destruct (undo_command c ed) as [ed1|] eqn:Hu; cbn in H; [|discriminate].
      injection H as <-. apply undo_command_keeps_history in Hu as (Hh & Hi & Hm & _).
      cbn. rewrite Hh, Hi, Hm. lia.
    + injection H as <-. lia.
  - unfold redo in H.
    destruct (Z.ltb_spec (current_command_index ed)
                (Z.of_nat (length (command_history ed)) - 1)).
    + cbn in H. destruct (index _ _) as [c|]; cbn in H; [|discriminate].
      apply execute_keeps_history in H as (Hh & Hi & Hm & _).
      cbn in Hh, Hi, Hm. rewrite Hh, Hi, Hm. lia.
    + injection H as <-. lia.
Qed.

Lemma tail_drop {A} (l : list A) : tail l = drop 1 l.
Proof. destruct l; reflexivity. Qed.

(** Executing a run of commands with the cursor at the end of the history
    keeps the most recent [max_history_size] commands. *)
Lemma executeCommands_history (cs : list command) (ed ed' : editor) :
  current_command_index ed = Z.of_nat (length (command_history ed)) - 1 ->
  history_bounded ed ->
  executeCommands cs ed = Some ed' ->
  command_history ed'
  = drop (length (command_history ed ++ cs) - Z.to_nat (max_history_size ed))
         (command_history ed ++ cs) /\
  current_command_index ed' = Z.of_nat (length (command_history ed')) - 1 /\
  max_history_size ed' = max_history_size ed.
Proof.
  revert ed. induction cs as [|c cs IH]; intros ed Hi Hb H; unfold history_bounded in Hb.
  - cbn in H. injection H as <-. rewrite app_nil_r.
    replace (length (command_history ed) - Z.to_nat (max_history_size ed))%nat with 0%nat by lia.
    auto.
  - cbn [executeCommands] in H.
    destruct (executeCommand c ed) as [ed2|] eqn:He; cbn in H; [|discriminate].
    apply executeCommand_inv in He as (ed1 & He & ->).
    apply execute_keeps_history in He as (Hh & Hi1 & Hm & _).
    cbn in Hh, Hi1, Hm. rewrite slice0_take in Hh by lia.
    rewrite take_ge in Hh by lia.
    destruct (push_history_scene c ed1) as (_ & _ & _ & Hm' & _).
    destruct (push_history_spec c ed1) as [Hevict Hkeep]. cbn zeta in *.
    rewrite Hh, Hm, Hi1 in Hevict, Hkeep. rewrite Hm in Hm'.
    destruct (Z.lt_ge_cases (max_history_size ed)
                (Z.of_nat (length (command_history ed ++ [c])))) as [Hlt|Hge].
    + destruct (Hevict Hlt) as [Hh2 Hi2].
      rewrite length_app in Hlt. cbn in Hlt.
      destruct (IH (push_history c ed1)) as (IH1 & IH2 & IH3); [| |exact H|].
      * rewrite Hh2, Hi2, length_tail_snoc. lia.
      * unfold history_bounded. rewrite Hh2, Hm', length_tail_snoc. lia.
      * split; [|split; [exact IH2 | congruence]].
        rewrite IH1, Hm', Hh2.
        rewrite tail_drop. rewrite <- drop_app_le by (rewrite length_app; cbn; lia).
        rewrite <- app_assoc. cbn [app]. rewrite drop_drop. f_equal.
        rewrite length_drop, !length_app. cbn. lia.
    + destruct (Hkeep Hge) as [Hh2 Hi2].
      rewrite length_app in Hge. cbn in Hge.
      destruct (IH (push_history c ed1)) as (IH1 & IH2 & IH3); [| |exact H|].
      * rewrite Hh2, Hi2, length_app. cbn. lia.
      * unfold history_bounded. rewrite Hh2, Hm', length_app. cbn. lia.
      * split; [|split; [exact IH2 | congruence]].
        rewrite IH1, Hm', Hh2. rewrite <- app_assoc. cbn [app]. reflexivity.
Qed.

Lemma undo_times_cursor (n : nat) (ed e : editor) :
  -1 <= current_command_index ed ->
  undo_times n ed = Some e ->
  command_history e = command_history ed /\
  current_command_index e = Z.max (-1) (current_command_index ed - Z.of_nat n).
Proof.
  revert ed. induction n as [|n IH]; intros ed Hi H.
  - cbn in H. injection H as <-. split; [reflexivity | lia].
  - cbn [undo_times] in H.
    destruct (undo ed) as [ed1|] eqn:Hu; cbn in H; [|discriminate].
    unfold undo in Hu. destruct (Z.leb_spec 0 (current_command_index ed)).
    + destruct (index _ _) as [c|]; cbn in Hu; [|discriminate].
      destruct (undo_command c ed) as [ed2|] eqn:Hc; cbn in Hu; [|discriminate].
      injection Hu as <-. apply undo_command_keeps_history in Hc as (Hh & Hi2 & _).
      apply IH in H; [|cbn; lia]. destruct H as [IH1 IH2]. cbn in IH1, IH2.
      rewrite IH1, IH2, Hh, Hi2. split; [reflexivity | lia].
    + injection Hu as <-. destruct (IH _ Hi H) as [IH1 IH2].
      rewrite IH1, IH2. split; [reflexivity | lia].
Qed.

(** C4. Starting from an empty history, executing [cap + 5] commands leaves
    exactly [cap] commands in the history, the five oldest evicted and the
    cursor at [cap - 1]; no number of undos leaves the cursor below [-1] or
    brings an evicted command back, and at [-1] undo does nothing.  Every
    execute, undo and redo keeps the cursor in [-1 .. length - 1] and the
    length at most [cap]. *)
Theorem history_cap_and_cursor (ed : editor) (cs : list command) (ed' : editor) :
  command_history ed = [] -> current_command_index ed = -1 ->
  0 <= max_history_size ed ->
  Z.of_nat (length cs) = max_history_size ed + 5 ->
  executeCommands cs ed = Some ed' ->
  Z.of_nat (length (command_history ed')) = max_history_size ed /\
  current_command_index ed' = max_history_size ed - 1 /\
  command_history ed' = drop 5 cs /\
  (forall n e, undo_times n ed' = Some e ->
     command_history e = drop 5 cs /\
     current_command_index e = Z.max (-1) (max_history_size ed - 1 - Z.of_nat n)) /\
  (forall e, current_command_index e = -1 -> undo e = Some e) /\
  (forall op e e', cursor_in_range e -> history_bounded e -> run_op op e = Some e' ->
     cursor_in_range e' /\ history_bounded e').
Proof.
  intros Hh Hi Hcap Hlen H.
  destruct (executeCommands_history cs ed ed') as (H1 & H2 & H3);
    [rewrite Hh, Hi; cbn; lia | unfold history_bounded; rewrite Hh; cbn; lia | exact H |].
  rewrite Hh in H1. cbn [app] in H1.
  replace (length cs - Z.to_nat (max_history_size ed))%nat with 5%nat in H1 by lia.
  assert (Hl : Z.of_nat (length (command_history ed')) = max_history_size ed).
  { rewrite H1, length_drop. lia. }
  split; [exact Hl|]. split; [lia|]. split; [exact H1|].
  split; [|split].
  - intros n e Hu. destruct (undo_times_cursor n ed' e) as [U1 U2]; [lia | exact Hu |].
    rewrite U1, U2, H1. split; [reflexivity | lia].
  - intros e He. unfold undo. rewrite He. reflexivity.
  - intros op e e' Hc Hb Hr. destruct (run_op_preserves op e e' Hc Hb Hr) as (? & ? & ?). auto.
Qed.

Lemma history_cap_and_cursor_witness :
  exists ed', executeCommands (replicate 55 (AddObjectCommand 0%nat)) new_editor = Some ed' /\
              Z.of_nat (length (command_history ed')) = 50 /\
              current_command_index ed' = 49.
Proof.
  eexists. split; [vm_compute; reflexivity|].
  match goal with |- Z.of_nat (length (command_history ?e)) = _ /\ _ =>
    destruct (history_cap_and_cursor new_editor (replicate 55 (AddObjectCommand 0%nat)) e)
      as (H1 & H2 & _) end.
  - reflexivity.
  - reflexivity.
  - cbn. lia.
  - reflexivity.
  - vm_compute. reflexivity.
  - split; [exact H1 | exact H2].
Defined.

(** *** Dragging *)

Lemma same_but_coords_refl o : same_but_coords o o.
Proof. unfold same_but_coords, setObjectCoordinates, getObjectCoordinates. destruct o as [[] ? ? ? ? ? ? ? ? ? ? ? ? ?]; reflexivity. Qed.

Lemma updateObjectCoordinates_same_but_coords original o o' o0 dx dy :
  same_but_coords o o0 ->
  updateObjectCoordinates original o dx dy = Some o' ->
  same_but_coords o' o0.
Proof.
  unfold same_but_coords, updateObjectCoordinates, setObjectCoordinates, getObjectCoordinates.
  destruct o as [[] ? ? ? ? ? ? ? ? ? ? ? ? ?], o0 as [[] ? ? ? ? ? ? ? ? ? ? ? ? ?];
    cbn; intros H; try discriminate;
    destruct original; cbn; intros H'; try discriminate;
    injection H' as <-; cbn; exact H.
Qed.

Lemma moved_true a b : a <> b -> moved a b = true.
Proof. intros H. unfold moved. destruct (coords_eq_dec a b); [contradiction | reflexivity]. Qed.

Lemma moved_false a : moved a a = false.
Proof. unfold moved. destruct (coords_eq_dec a a); [reflexivity | contradiction]. Qed.

Lemma updateDragging_all_in_session r o0 ed0 moves ed ed' :
  in_session r o0 ed0 ed -> updateDragging_all moves ed = Some ed' ->
  in_session r o0 ed0 ed'.
Proof.
  revert ed. induction moves as [|[m p] moves IH]; intros ed Hs H.
  - cbn in H. injection H as <-. exact Hs.
  - cbn [updateDragging_all] in H.
    destruct (updateDragging m p ed) as [ed1|] eqn:Hu; cbn in H; [|discriminate].
    apply (IH ed1); [|exact H].
    destruct Hs as (Hd & Ho & Hc & Hh & Hi & Hm & Hl & Hsel & o & Hlk & Hsame).
    unfold updateDragging in Hu. rewrite Hd, Ho, Hc in Hu.
    destruct (drag_start_coords (dragging ed)) as [st|]; cbn in Hu; [|discriminate].
    apply update_object_scene in Hu as (o1 & o' & Hlk1 & Hupd & ->).
    rewrite Hlk in Hlk1. injection Hlk1 as <-.
    repeat split; cbn; try assumption.
    exists o'. split.
    + apply list_lookup_insert_eq. eapply lookup_lt_Some; eassumption.
    + eapply updateObjectCoordinates_same_but_coords; eassumption.
Qed.

Lemma index_nonneg {A} (l : list A) (i : Z) :
  0 <= i -> index l i = l !! Z.to_nat i.
Proof. intros H. unfold index. destruct (Z.ltb_spec i 0); [lia | reflexivity]. Qed.

(** C2. A drag of the object [r]: pointer down, any pointer moves, pointer
    up.  Pointer up leaves the store as the drag left it (the move is not
    applied again).  When the final coordinates differ from the original
    ones, the history is truncated at the cursor and exactly one
    [MoveObjectCommand], from the original to the final coordinates, is
    appended under the usual eviction rule, with the cursor on it; [undo()]
    then gives the object back exactly as it was before the drag.  When the
    coordinates are the same, the history and the cursor are unchanged. *)
Theorem drag_commit (ed0 : editor) (r : ref) (mouse0 plot0 : xy)
    (moves : list (xy * xy)) (ed2 : editor) (o0 : plot_object) :
  cursor_in_range ed0 -> 0 < max_history_size ed0 ->
  eheap ed0 !! r = Some o0 ->
  (ed1 ← startDragging r mouse0 plot0 ed0; updateDragging_all moves ed1) = Some ed2 ->
  exists o2 ed3,
    eheap ed2 !! r = Some o2 /\
    stopDragging ed2 = Some ed3 /\
    eheap ed3 = eheap ed2 /\
    plot_objects ed3 = plot_objects ed0 /\
    dragging ed3 = no_drag /\
    (getObjectCoordinates o2 <> getObjectCoordinates o0 ->
       let c := MoveObjectCommand r (getObjectCoordinates o0) (getObjectCoordinates o2) in
       let h := slice0 (command_history ed0) (current_command_index ed0 + 1) ++ [c] in
       command_history ed3
       = (if max_history_size ed0 <? Z.of_nat (length h) then shift h else h) /\
       current_command_index ed3 = Z.of_nat (length (command_history ed3)) - 1 /\
       index (command_history ed3) (current_command_index ed3) = Some c /\
       exists ed4, undo ed3 = Some ed4 /\ eheap ed4 !! r = Some o0) /\
    (getObjectCoordinates o2 = getObjectCoordinates o0 ->
       command_history ed3 = command_history ed0 /\
       current_command_index ed3 = current_command_index ed0).
Proof.
  intros Hcur Hcap Hlk0 H.
  unfold startDragging in H. rewrite Hlk0 in H. cbn [mbind option_bind] in H.
  assert (Hs : in_session r o0 ed0 ed2).
  { eapply updateDragging_all_in_session; [|exact H].
    repeat split; cbn; try reflexivity.
    exists o0. split; [assumption | apply same_but_coords_refl]. }
  destruct Hs as (Hd & Ho & Hc & Hh & Hi & Hm & Hl & _ & o2 & Hlk2 & Hsame).
  unfold cursor_in_range in Hcur.
  exists o2.
  destruct (coords_eq_dec (getObjectCoordinates o0) (getObjectCoordinates o2)) as [Heq|Hne].
  - (* not moved *)
    exists (set_dragging no_drag ed2).
    split; [assumption|]. split.
    { unfold stopDragging. rewrite Hd, Ho, Hc, Hlk2. cbn [mbind option_bind].
      rewrite Heq, moved_false. reflexivity. }
    split; [reflexivity|]. split; [exact Hl|]. split; [reflexivity|].
    split; [intros Hn; congruence|]. intros _. cbn. auto.
  - (* moved *)
    set (c := MoveObjectCommand r (getObjectCoordinates o0) (getObjectCoordinates o2)).
    exists (set_dragging no_drag (push_history c (truncate_history ed2))).
    split; [assumption|]. split.
    { unfold stopDragging. rewrite Hd, Ho, Hc, Hlk2. cbn [mbind option_bind].
      rewrite moved_true by assumption. reflexivity. }
    destruct (push_history_scene c (truncate_history ed2)) as (Ph & Pl & _ & Pm & _).
    split; [exact Ph|]. split; [cbn; rewrite Pl; exact Hl|]. split; [reflexivity|].
    split; [|intros Hn; congruence]. intros _.
    cbn zeta. fold c.
    destruct (push_history_spec c (truncate_history ed2)) as [Hevict Hkeep].
    cbn zeta in Hevict, Hkeep. cbn [truncate_history set_history command_history
      current_command_index max_history_size] in Hevict, Hkeep.
    rewrite Hh, Hi, Hm in Hevict, Hkeep.
    set (h := slice0 (command_history ed0) (current_command_index ed0 + 1) ++ [c]) in *.
    assert (Hlen : Z.of_nat (length h) = current_command_index ed0 + 2).
    { unfold h. rewrite length_app, slice0_take, length_take by lia. cbn. lia. }
    assert (Hlast : h !! Z.to_nat (current_command_index ed0 + 1) = Some c).
    { unfold h. rewrite lookup_app_r; rewrite slice0_take, length_take by lia; [|lia].
      replace (_ - _)%nat with 0%nat by lia. reflexivity. }
    cbn [set_dragging command_history current_command_index].
    assert (Hfacts :
      command_history (push_history c (truncate_history ed2))
      = (if max_history_size ed0 <? Z.of_nat (length h) then shift h else h) /\
      current_command_index (push_history c (truncate_history ed2))
      = Z.of_nat (length (command_history (push_history c (truncate_history ed2)))) - 1 /\
      index (command_history (push_history c (truncate_history ed2)))
            (current_command_index (push_history c (truncate_history ed2))) = Some c).
    { destruct (Z.ltb_spec (max_history_size ed0) (Z.of_nat (length h))) as [Hlt|Hge].
      - destruct (Hevict Hlt) as [-> ->]. split; [reflexivity|].
        unfold shift. rewrite tail_drop, length_drop. split; [lia|].
        rewrite index_nonneg by lia. rewrite lookup_drop.
        replace (1 + Z.to_nat (current_command_index ed0))%nat
          with (Z.to_nat (current_command_index ed0 + 1)) by lia.
        exact Hlast.
      - destruct (Hkeep Hge) as [-> ->]. split; [reflexivity|]. split; [lia|].
        rewrite index_nonneg by lia. exact Hlast. }
    destruct Hfacts as (F1 & F2 & F3).
    split; [exact F1|]. split; [exact F2|]. split; [exact F3|].
    eexists. split.
    + unfold undo. cbn [set_dragging command_history current_command_index].
      assert (Hpos : 0 <= current_command_index (push_history c (truncate_history ed2))).
      { rewrite index_nonneg in F3.
        - apply lookup_lt_Some in F3. lia.
        - destruct (Z.le_gt_cases 0 (current_command_index (push_history c (truncate_history ed2))));
            [assumption|]. unfold index in F3.
          destruct (Z.ltb_spec (current_command_index (push_history c (truncate_history ed2))) 0);
            [discriminate | lia]. }
      destruct (Z.leb_spec 0 (current_command_index (push_history c (truncate_history ed2))));
        [|lia].
      rewrite F3. cbn [mbind option_bind]. unfold c at 1. cbn [undo_command].
      unfold update_object. cbn [set_dragging eheap]. rewrite Ph.
      cbn [truncate_history set_history eheap]. rewrite Hlk2. cbn [mbind option_bind].
      rewrite Hsame. cbn [mbind option_bind]. reflexivity.
    + cbn [set_history set_heap eheap].
      apply list_lookup_insert_eq. eapply lookup_lt_Some; eassumption.
Qed.

Lemma drag_commit_witness :
  exists ed2,
    (ed1 ← startDragging 0%nat (mkXY 340 240) (mkXY 0 0) one_point;
     updateDragging_all [(mkXY 412 144, mkXY 3 4)] ed1) = Some ed2 /\
    exists o2 ed3,
      eheap ed2 !! 0%nat = Some o2 /\
      stopDragging ed2 = Some ed3 /\
      eheap ed3 = eheap ed2.
Proof.
  eexists. split; [reflexivity|].
  match goal with |- exists o2 ed3, eheap ?e !! _ = _ /\ _ =>
    destruct (drag_commit one_point 0%nat (mkXY 340 240) (mkXY 0 0)
                [(mkXY 412 144, mkXY 3 4)] e (sample_object "p" 0%R 0%R))
      as (o2 & ed3 & H1 & H2 & H3 & _) end.
  - unfold cursor_in_range. cbn. lia.
  - cbn. lia.
  - reflexivity.
  - reflexivity.
  - exists o2, ed3. auto.
Defined.

End CommandFacts.

Module ColorFacts.
Import Color.
Local Open Scope Z_scope.

(** *** The hash depends on the id modulo [2^32] only *)

Lemma to_int32_wrap z : exists k, to_int32 z = z + k * 4294967296.
Proof.
  unfold to_int32. cbv zeta.
  change 0xffffffff with (Z.ones 32). rewrite Z.land_ones by lia.
  change (2 ^ 32) with 4294967296.
  pose proof (Z.div_mod z 4294967296 ltac:(lia)) as Hd.
  destruct (_ <? _).
  - exists (- (z / 4294967296)). lia.
  - exists (- (z / 4294967296) - 1). lia.
Qed.

Lemma to_int32_congr a b k : a = b + k * 4294967296 -> to_int32 a = to_int32 b.
Proof.
  intros ->. unfold to_int32. cbv zeta.
  change 0xffffffff with (Z.ones 32). rewrite !Z.land_ones by lia.
  change (2 ^ 32) with 4294967296. rewrite Z_mod_plus_full. reflexivity.
Qed.

(** One round of the hash loop. *)
Lemma hash_round h c :
  js_and (js_shl h 5 - h + c) 0xffffffff = to_int32 (31 * h + c).
Proof.
  unfold js_and, js_shl. change (to_int32 0xffffffff) with (-1).
  rewrite Z.land_m1_r. rewrite Z.shiftl_mul_pow2 by lia. change (2 ^ 5) with 32.
  destruct (to_int32_wrap h) as [k1 H1]. rewrite H1.
  destruct (to_int32_wrap ((h + k1 * 4294967296) * 32)) as [k2 H2]. rewrite H2.
  destruct (to_int32_wrap ((h + k1 * 4294967296) * 32 + k2 * 4294967296 - h + c)) as [k3 H3].
  rewrite H3. apply to_int32_congr with (k := 32 * k1 + k2 + k3). lia.
Qed.

Lemma hash_two_rounds h c1 c2 :
  to_int32 (31 * to_int32 (31 * h + c1) + c2) = to_int32 (961 * h + (31 * c1 + c2)).
Proof.
  destruct (to_int32_wrap (31 * h + c1)) as [k H]. rewrite H.
  apply to_int32_congr with (k := 31 * k). lia.
Qed.

Lemma hash_loop_app h u w : hash_loop h (u ++ w) = hash_loop (hash_loop h u) w.
Proof. revert h. induction u as [|c u IH]; intros h; cbn; [reflexivity | apply IH]. Qed.

(** The blocks ["Ay"] and ["BZ"] take every hash to the same hash. *)
Lemma hash_loop_blocks h : hash_loop h "Ay" = hash_loop h "BZ".
Proof.
  cbn [hash_loop]. rewrite !hash_round, !hash_two_rounds. reflexivity.
Qed.

Lemma block_words_hash n w h :
  w ∈ block_words "Ay" "BZ" n ->
  hash_loop h w = hash_loop h (String.concat "" (replicate n "Ay"%string)).
Proof.
  revert w h. induction n as [|n IH]; intros w h Hw; cbn [block_words] in Hw.
  - apply list_elem_of_singleton in Hw as ->. reflexivity.
  - cbn [replicate]. 
    assert (Hc : String.concat "" ("Ay"%string :: replicate n "Ay"%string)
                 = ("Ay" ++ String.concat "" (replicate n "Ay"%string))%string).
    { destruct n; cbn; reflexivity. }
    rewrite Hc. rewrite (hash_loop_app h "Ay").
    apply elem_of_app in Hw as [Hw|Hw];
      apply list_elem_of_fmap in Hw as (w' & -> & Hw');
      rewrite hash_loop_app; [|rewrite <- hash_loop_blocks]; apply IH; assumption.
Qed.

Lemma colliding_ids_candidates i :
  i ∈ colliding_ids -> candidates i = candidates base_id.
Proof.
  intros Hi. apply (subseteq_take 235 (block_words "Ay" "BZ" 8)) in Hi.
  unfold candidates. apply map_ext. intros n.
  unfold generateUniqueColor. rewrite (block_words_hash 8 i _ Hi). reflexivity.
Qed.

Lemma colliding_ids_gen i s :
  i ∈ colliding_ids -> generateUniqueColor i s = generateUniqueColor base_id s.
Proof.
  intros Hi. apply (subseteq_take 235 (block_words "Ay" "BZ" 8)) in Hi.
  unfold generateUniqueColor. rewrite (block_words_hash 8 i _ Hi). reflexivity.
Qed.

(** *** The retry loop on the list of candidates *)

Lemma retry_loop_spec reg object_id n j :
  let bad := fun c => has_color reg c || isBackgroundColor c in
  let gen := fun k => generateUniqueColor object_id (Z.of_nat k) in
  let run := retry_loop reg object_id n (Z.of_nat j) (gen j) in
  match skip_bad bad (map gen (seq j n)) with
  | [] => fst run = Z.of_nat (j + n)
  | c :: rest => run = (Z.of_nat (j + n - length (c :: rest)), c)
  end.
Proof.
  cbv zeta. revert j. induction n as [|n IH]; intros j.
  - cbn. f_equal. lia.
  - cbn [seq map skip_bad retry_loop].
    destruct (has_color reg _ || isBackgroundColor _) eqn:Hbad.
    + specialize (IH (S j)).
      replace (Z.of_nat j + 1) with (Z.of_nat (S j)) by lia.
      destruct (skip_bad _ _) as [|c rest].
      * rewrite IH. f_equal. lia.
      * rewrite IH. f_equal. f_equal. lia.
    + f_equal. rewrite length_cons, length_map, length_seq. lia.
Qed.

Lemma skip_bad_ext bad bad' l :
  (forall c, bad c = bad' c) -> skip_bad bad l = skip_bad bad' l.
Proof.
  intros H. induction l as [|c l IH]; cbn; [reflexivity|].
  rewrite <- H, IH. reflexivity.
Qed.

Lemma skip_bad_app bad passed rest :
  Forall (fun c => bad c = true) passed ->
  skip_bad bad (passed ++ rest) = skip_bad bad rest.
Proof.
  induction 1 as [|c passed Hc _ IH]; cbn; [reflexivity|]. rewrite Hc. exact IH.
Qed.

Lemma skip_bad_split bad l :
  exists passed, l = passed ++ skip_bad bad l /\ Forall (fun c => bad c = true) passed.
Proof.
  induction l as [|c l (passed & Hl & Hp)]; cbn.
  - exists []. split; [reflexivity | constructor].
  - destruct (bad c) eqn:Hc.
    + exists (c :: passed). split; [cbn; congruence | constructor; assumption].
    + exists []. split; [reflexivity | constructor].
Qed.

(** *** The colour map as a list of entries *)

Lemma color_eqb_eq c d : color_eqb c d = true <-> c = d.
Proof.
  destruct c as [[r1 g1] b1], d as [[r2 g2] b2]. cbn.
  rewrite !andb_true_iff, !Z.eqb_eq. split; [intros [[-> ->] ->]; reflexivity|].
  intros H. injection H as -> -> ->. auto.
Qed.

Lemma owner_insert (m : gmap (Z * Z * Z) string) taken c0 i :
  (forall c, m !! c = owner taken c) ->
  forall c, <[c0 := i]> m !! c = owner ((c0, i) :: taken) c.
Proof.
  intros H c. cbn [owner]. rewrite lookup_insert.
  destruct (color_eqb c c0) eqn:He.
  - apply color_eqb_eq in He as ->. rewrite decide_True by reflexivity. reflexivity.
  - rewrite decide_False; [apply H|]. intros ->.
    assert (color_eqb c c = true) by (apply color_eqb_eq; reflexivity). congruence.
Qed.

Lemma taken_or_background_has reg taken :
  (forall c, object_color_map reg !! c = owner taken c) ->
  forall c, has_color reg c || isBackgroundColor c = taken_or_background taken c.
Proof.
  intros H c. unfold has_color, taken_or_background. rewrite H.
  destruct (owner taken c); cbn; reflexivity.
Qed.

Lemma taken_or_background_mono taken e c :
  taken_or_background taken c = true -> taken_or_background (e :: taken) c = true.
Proof.
  unfold taken_or_background. destruct e as [c' i]. cbn [owner].
  destruct (color_eqb c c'); [reflexivity | auto].
Qed.

(** The registry and the state of [fill] describe the same maps. *)
Record agrees (table : list (Z * Z * Z)) (reg : registry) (st : fill_state) : Prop := {
  agrees_owner : forall c, object_color_map reg !! c = owner (fill_taken st) c;
  agrees_next : next_color_id reg = fill_next st;
  agrees_rest : exists passed,
      table = passed ++ fill_rest st /\
      Forall (fun c => taken_or_background (fill_taken st) c = true) passed;
  agrees_ids : forall i c, id_color_map reg !! i = Some c -> i ∈ (fill_taken st).*2
}.

Lemma agrees_empty table : agrees table empty_registry (mkFill [] 1 table).
Proof.
  split; cbn.
  - intros c. apply lookup_empty.
  - reflexivity.
  - exists []. split; [reflexivity | constructor].
  - intros i c H. rewrite lookup_empty in H. discriminate.
Qed.

Lemma skip_taken_agrees table reg st object_id :
  agrees table reg st -> candidates object_id = table ->
  skip_bad (fun c => has_color reg c || isBackgroundColor c)
           (map (fun k => generateUniqueColor object_id (Z.of_nat k)) (seq 0 max_attempts))
  = skip_taken (fill_taken st) (fill_rest st).
Proof.
  intros [Ho _ (passed & Ht & Hp) _] Hc. fold (candidates object_id). rewrite Hc, Ht.
  rewrite (skip_bad_ext _ _ _ (taken_or_background_has reg _ Ho)).
  apply skip_bad_app. exact Hp.
Qed.

(** When no candidate remains, the retry loop runs out of attempts. *)
Lemma retry_loop_exhausted table reg st object_id :
  agrees table reg st -> candidates object_id = table ->
  skip_taken (fill_taken st) (fill_rest st) = [] ->
  fst (retry_loop reg object_id max_attempts 0 (generateUniqueColor object_id 0))
  = Z.of_nat max_attempts.
Proof.
  intros Ha Hc Hs. pose proof (retry_loop_spec reg object_id max_attempts 0) as Hr.
  cbv zeta in Hr. rewrite (skip_taken_agrees table reg st object_id Ha Hc), Hs in Hr.
  exact Hr.
Qed.

(** One call of [getObjectColor] for a fresh id with the candidates of the
    table is one step of [fill]. *)
Lemma getObjectColor_fill_step table reg st object_id :
  agrees table reg st -> candidates object_id = table ->
  object_id ∉ (fill_taken st).*2 ->
  exists reg', getObjectColor reg object_id = ((fill_step st object_id).1, reg') /\
               agrees table reg' (fill_step st object_id).2.
Proof.
  intros Ha Hc Hfresh.
  assert (Hnone : id_color_map reg !! object_id = None).
  { destruct (id_color_map reg !! object_id) as [c|] eqn:Hl; [|reflexivity].
    exfalso. apply Hfresh. eapply agrees_ids; eassumption. }
  pose proof (retry_loop_spec reg object_id max_attempts 0) as Hr. cbv zeta in Hr.
  rewrite (skip_taken_agrees table reg st object_id Ha Hc) in Hr.
  destruct Ha as [Ho Hn (passed & Ht & Hp) Hids].
  unfold getObjectColor. rewrite Hnone. unfold fill_step.
  change (Z.of_nat 0) with 0 in Hr.
  destruct (skip_taken (fill_taken st) (fill_rest st)) as [|c rest'] eqn:Hs.
  - destruct (retry_loop _ _ _ _ _) as [n c1]. cbn in Hr. subst n.
    rewrite Z.leb_refl. unfold generateSequentialColor. cbv zeta.
    fold (sequential_color (next_color_id reg)). rewrite Hn.
    eexists. split; [reflexivity|]. split; cbn.
    + apply owner_insert. exact Ho.
    + rewrite ?Hn. reflexivity.
    + exists (passed ++ fill_rest st). split; [rewrite app_nil_r; exact Ht|].
      apply Forall_app. split.
      * eapply Forall_impl; [exact Hp|]. intros c. apply taken_or_background_mono.
      * destruct (skip_bad_split (taken_or_background (fill_taken st)) (fill_rest st))
          as (p' & Hp1 & Hp2).
        unfold skip_taken in Hs. rewrite Hs, app_nil_r in Hp1. rewrite Hp1.
        eapply Forall_impl; [exact Hp2|]. intros c. apply taken_or_background_mono.
    + intros i c. rewrite lookup_insert. destruct (decide (object_id = i)) as [->|Hne].
      * intros _. apply elem_of_cons. left. reflexivity.
      * intros H. apply elem_of_cons. right. eapply Hids. exact H.
  - rewrite Hr. cbn [length].
    destruct (Z.leb_spec (Z.of_nat max_attempts)
                (Z.of_nat (0 + max_attempts - S (length rest')))) as [Hle|_]; [unfold max_attempts in Hle; lia|].
    eexists. split; [reflexivity|]. split; cbn.
    + apply owner_insert. exact Ho.
    + exact Hn.
    + destruct (skip_bad_split (taken_or_background (fill_taken st)) (fill_rest st))
        as (p' & Hp1 & Hp2).
      unfold skip_taken in Hs. rewrite Hs in Hp1.
      exists (passed ++ p'). split; [rewrite <- app_assoc, <- Hp1; exact Ht|].
      apply Forall_app. split; (eapply Forall_impl; [eassumption|]);
        intros c'; apply taken_or_background_mono.
    + intros i c'. rewrite lookup_insert. destruct (decide (object_id = i)) as [->|Hne].
      * intros _. apply elem_of_cons. left. reflexivity.
      * intros H. apply elem_of_cons. right. eapply Hids. exact H.
Qed.

Lemma fill_step_taken st i :
  (fill_taken (fill_step st i).2).*2 = i :: (fill_taken st).*2.
Proof. unfold fill_step. destruct (skip_taken _ _); reflexivity. Qed.

Lemma assign_colors_fill table ids reg st :
  agrees table reg st ->
  Forall (fun i => candidates i = table) ids ->
  NoDup ids ->
  Forall (fun i => i ∉ (fill_taken st).*2) ids ->
  exists reg', assign_colors reg ids = ((fill st ids).1, reg') /\
               agrees table reg' (fill st ids).2.
Proof.
  revert reg st. induction ids as [|i ids IH]; intros reg st Ha Hc Hnd Hfresh.
  - exists reg. split; [reflexivity | exact Ha].
  - apply Forall_cons in Hc as [Hci Hc']. apply NoDup_cons in Hnd as [Hni Hnd'].
    apply Forall_cons in Hfresh as [Hfi Hf'].
    destruct (getObjectColor_fill_step table reg st i Ha Hci Hfi) as (reg1 & Hg & Ha1).
    destruct (IH reg1 (fill_step st i).2 Ha1 Hc' Hnd') as (reg2 & Hg2 & Ha2).
    { apply Forall_forall. intros j Hj. rewrite fill_step_taken.
      intros Hin. apply elem_of_cons in Hin as [->|Hin]; [contradiction|].
      rewrite Forall_forall in Hf'. exact (Hf' j Hj Hin). }
    exists reg2. cbn [assign_colors fill]. rewrite Hg.
    destruct (fill_step st i) as [c st1]. cbn [fst snd] in *. rewrite Hg2.
    destruct (fill st1 ids) as [cs st2]. split; [reflexivity | exact Ha2].
Qed.

Lemma fill_taken_ids ids st :
  (fill_taken (fill st ids).2).*2 = reverse ids ++ (fill_taken st).*2.
Proof.
  revert st. induction ids as [|i ids IH]; intros st; [reflexivity|].
  cbn [fill]. pose proof (fill_step_taken st i) as Hs.
  destruct (fill_step st i) as [c st1]. cbn [snd] in Hs.
  specialize (IH st1). destruct (fill st1 ids) as [cs st2]. cbn [snd] in *.
  rewrite IH, Hs, reverse_cons, <- app_assoc. reflexivity.
Qed.

(** What [fallback_report] computes, read off the state of [fill], when no
    candidate remains for the last id. *)
Lemma fallback_from_fill (ids : list string) (last : string) cs st :
  fill (mkFill [] 1 (candidates base_id)) ids = (cs, st) ->
  NoDup (ids ++ [last]) ->
  (forall i, i ∈ ids ++ [last] -> candidates i = candidates base_id) ->
  skip_taken (fill_taken st) (fill_rest st) = [] ->
  fallback_report ids last
  = (Z.of_nat max_attempts, sequential_color (fill_next st),
     owner (fill_taken st) (sequential_color (fill_next st)), Some last, cs !! 45%nat).
Proof.
  intros Hfill Hnd Hcand Hskip.
  apply NoDup_app in Hnd as (Hnd_ids & Hdisj & _).
  assert (Hlast : last ∉ ids).
  { intros Hin. apply (Hdisj last Hin). apply list_elem_of_singleton. reflexivity. }
  destruct (assign_colors_fill (candidates base_id) ids empty_registry
              (mkFill [] 1 (candidates base_id))) as (reg & Hassign & Hagree).
  { apply agrees_empty. }
  { apply Forall_forall. intros i Hi. apply Hcand. apply elem_of_app. left. exact Hi. }
  { exact Hnd_ids. }
  { apply Forall_forall. intros i _. apply not_elem_of_nil. }
  pose proof (fill_taken_ids ids (mkFill [] 1 (candidates base_id))) as Htaken.
  rewrite Hfill in Hassign, Hagree, Htaken.
  cbn [fst snd fill_taken fmap list_fmap] in Hassign, Hagree, Htaken.
  rewrite app_nil_r in Htaken.
  unfold fallback_report. rewrite Hassign.
  assert (Hcl : candidates last = candidates base_id).
  { apply Hcand. apply elem_of_app. right. apply list_elem_of_singleton. reflexivity. }
  rewrite (retry_loop_exhausted _ reg st last Hagree Hcl Hskip).
  destruct (getObjectColor_fill_step _ reg st last Hagree Hcl) as (reg' & Hg & Hagree').
  { rewrite Htaken. rewrite elem_of_reverse. exact Hlast. }
  rewrite Hg. unfold fill_step in Hg, Hagree' |- *. rewrite Hskip in Hagree' |- *.
  cbn [fst snd] in Hagree' |- *.
  rewrite (agrees_owner _ _ _ Hagree), (agrees_owner _ _ _ Hagree').
  cbn [fill_taken owner].
  assert (He : color_eqb (sequential_color (fill_next st)) (sequential_color (fill_next st)) = true)
    by (apply color_eqb_eq; reflexivity).
  rewrite He. reflexivity.
Qed.

(** C3 (the code departs from the claim).  Registering the 235 distinct
    identifiers [colliding_ids] in a fresh registry, the last one,
    ["BZBZBZAyBZAyBZAy"], exhausts the 1000 attempts of the retry loop; the
    sequential fallback hands it [rgb(2,0,0)], which is the colour already
    held by the live identifier ["AyAyBZAyBZBZAyBZ"] (position 45), and the
    colour map entry of that identifier is overwritten.  The colours are not
    pairwise distinct. *)
Theorem getObjectColor_fallback_collides :
  NoDup colliding_ids /\
  colliding_ids !! 45%nat = Some "AyAyBZAyBZBZAyBZ"%string /\
  colliding_ids !! 234%nat = Some "BZBZBZAyBZAyBZAy"%string /\
  fallback_report (take 234 colliding_ids) "BZBZBZAyBZAyBZAy"
  = (1000, (2, 0, 0), Some "AyAyBZAyBZBZAyBZ"%string,
     Some "BZBZBZAyBZAyBZAy"%string, Some (2, 0, 0)).
Proof.
  assert (Hnd : NoDup colliding_ids).
  { apply (bool_decide_unpack _). vm_compute. reflexivity. }
  assert (Hsplit : colliding_ids = take 234 colliding_ids ++ ["BZBZBZAyBZAyBZAy"%string])
    by (vm_compute; reflexivity).
  split; [exact Hnd|]. split; [vm_compute; reflexivity|]. split; [vm_compute; reflexivity|].
  rewrite (fallback_from_fill (take 234 colliding_ids) "BZBZBZAyBZAyBZAy"
             (fst (fill (mkFill [] 1 (candidates base_id)) (take 234 colliding_ids)))
             (snd (fill (mkFill [] 1 (candidates base_id)) (take 234 colliding_ids)))).
  - vm_compute. reflexivity.
  - apply surjective_pairing.
  - rewrite <- Hsplit. exact Hnd.
  - intros i Hi. apply colliding_ids_candidates. rewrite Hsplit. exact Hi.
  - vm_compute. reflexivity.
Qed.

End ColorFacts.

Module LayoutFacts.
Import Transform Layout.
Local Open Scope R_scope.

Lemma drawAxes_rect_layout v :
  drawAxes_rect v =
  let l := plotToCanvas_layout v in
  mkRect (canvas_padding v + x_offset l)
         (canvas_padding v + x_offset l + effective_width l)
         (canvas_padding v + y_offset l)
         (canvas_padding v + y_offset l + effective_height l).
Proof. reflexivity. Qed.

Lemma plot_aspect_pos v :
  non_degenerate v -> 0 < aspect_ratio v ->
  0 < (x_max (plot_bounds v) - x_min (plot_bounds v)) * aspect_ratio v
      / (y_max (plot_bounds v) - y_min (plot_bounds v)).
Proof.
  intros (Hx & Hy & Hw & Hh) Ha.
  apply Rdiv_lt_0_compat; [apply Rmult_lt_0_compat|]; lra.
Qed.

(** X1.  The layout fits the drawable area, is centred in it, and honours the
    aspect ratio. *)
Theorem layout_letterbox (v : view) :
  non_degenerate v -> 0 < aspect_ratio v ->
  let l := plotToCanvas_layout v in
  let x_range := x_max (plot_bounds v) - x_min (plot_bounds v) in
  let y_range := y_max (plot_bounds v) - y_min (plot_bounds v) in
  0 < effective_width l <= plot_width v /\
  0 < effective_height l <= plot_height v /\
  (effective_width l = plot_width v \/ effective_height l = plot_height v) /\
  x_offset l = (plot_width v - effective_width l) / 2 /\
  y_offset l = (plot_height v - effective_height l) / 2 /\
  effective_width l / x_range = aspect_ratio v * (effective_height l / y_range).
Proof.
  intros Hnd Ha l x_range y_range.
  pose proof (plot_aspect_pos v Hnd Ha) as Hpa.
  destruct Hnd as (Hx & Hy & Hw & Hh).
  assert (Hxr : 0 < x_range) by (unfold x_range; lra).
  assert (Hyr : 0 < y_range) by (unfold y_range; lra).
  fold x_range y_range in Hpa.
  unfold l, plotToCanvas_layout. cbv zeta. fold x_range y_range.
  set (pa := x_range * aspect_ratio v / y_range) in *.
  destruct (Rlt_dec (plot_width v / plot_height v) pa) as [Hlt|Hge];
    cbn [effective_width effective_height x_offset y_offset].
  - assert (Hq : plot_width v / pa < plot_height v).
    { apply (Rmult_lt_reg_r pa); [assumption|].
      replace (plot_width v / pa * pa) with (plot_width v) by (field; lra).
      apply (Rmult_lt_compat_r (plot_height v)) in Hlt; [|assumption].
      replace (plot_width v / plot_height v * plot_height v) with (plot_width v) in Hlt
        by (field; lra). lra. }
    assert (0 < plot_width v / pa) by (apply Rdiv_lt_0_compat; assumption).
    split; [lra|]. split; [lra|]. split; [left; reflexivity|].
    split; [lra|]. split; [lra|]. unfold pa. field. repeat split; lra.
  - assert (Hq : plot_height v * pa <= plot_width v).
    { apply Rnot_lt_le in Hge.
      apply (Rmult_le_compat_r (plot_height v)) in Hge; [|lra].
      replace (plot_width v / plot_height v * plot_height v) with (plot_width v) in Hge
        by (field; lra). lra. }
    assert (0 < plot_height v * pa) by (apply Rmult_lt_0_compat; assumption).
    split; [lra|]. split; [lra|]. split; [right; reflexivity|].
    split; [lra|]. split; [lra|]. unfold pa. field. repeat split; lra.
Qed.

Lemma default_view_non_degenerate : non_degenerate default_view.
Proof. unfold non_degenerate, default_view; cbn. lra. Qed.

Lemma default_view_aspect : 0 < aspect_ratio default_view.
Proof. cbn. lra. Qed.

Lemma layout_letterbox_witness :
  effective_width (plotToCanvas_layout default_view) / 20 =
  aspect_ratio default_view * (effective_height (plotToCanvas_layout default_view) / 20).
Proof.
  pose proof (layout_letterbox default_view default_view_non_degenerate default_view_aspect)
    as H.
  cbv zeta in H. destruct H as (_ & _ & _ & _ & _ & H).
  cbn [default_view plot_bounds x_max x_min y_max y_min] in H.
  replace 20 with (10 - -10) by lra. exact H.
Defined.


Lemma inside_area_true a c :
  inside_area a c = true <->
  (rect_left a <= px c <= rect_right a /\ rect_top a <= py c <= rect_bottom a).
Proof.
  unfold inside_area.
  repeat destruct (Rle_dec _ _); cbn; split; intros H; try discriminate; try lra; try reflexivity.
Qed.

Lemma inside_area_false_left a c :
  px c < rect_left a -> inside_area a c = false.
Proof.
  intros H. destruct (inside_area a c) eqn:E; [|reflexivity].
  apply inside_area_true in E. lra.
Qed.

Lemma scaled_nonneg d a b : 0 < a -> 0 < b -> (0 <= d / a * b <-> 0 <= d).
Proof.
  intros Ha Hb. assert (Hk : 0 < b / a) by (apply Rdiv_lt_0_compat; assumption).
  replace (d / a * b) with (d * (b / a)) by (field; lra). split; intros H; nra.
Qed.

Lemma scaled_le d a b : 0 < a -> 0 < b -> (d / a * b <= b <-> d <= a).
Proof.
  intros Ha Hb. assert (Hk : 0 < b / a) by (apply Rdiv_lt_0_compat; assumption).
  assert (Hb' : b = a * (b / a)) by (field; lra).
  replace (d / a * b) with (d * (b / a)) by (field; lra).
  split; intros H; nra.
Qed.


Lemma layout_positive v :
  non_degenerate v -> 0 < aspect_ratio v ->
  0 < effective_width (plotToCanvas_layout v) /\
  0 < effective_height (plotToCanvas_layout v).
Proof.
  intros Hnd Ha. pose proof (plot_aspect_pos v Hnd Ha) as Hpa.
  destruct Hnd as (Hx & Hy & Hw & Hh).
  unfold plotToCanvas_layout. cbv zeta.
  destruct (Rlt_dec _ _); cbn [effective_width effective_height]; split; try lra.
  - apply Rdiv_lt_0_compat; assumption.
  - apply Rmult_lt_0_compat; assumption.
Qed.

Lemma inside_axes_rect v p :
  non_degenerate v -> 0 < aspect_ratio v ->
  (within_bounds v p <->
   (rect_left (drawAxes_rect v) <= px (plotToCanvas v p) <= rect_right (drawAxes_rect v) /\
    rect_top (drawAxes_rect v) <= py (plotToCanvas v p) <= rect_bottom (drawAxes_rect v))).
Proof.
  intros Hnd Ha. destruct (layout_positive v Hnd Ha) as [Hew Heh].
  destruct Hnd as (Hx & Hy & Hw & Hh).
  rewrite drawAxes_rect_layout. cbv zeta. unfold plotToCanvas, within_bounds.
  cbn [rect_left rect_right rect_top rect_bottom px py].
  set (l := plotToCanvas_layout v) in *.
  set (xr := x_max (plot_bounds v) - x_min (plot_bounds v)).
  set (yr := y_max (plot_bounds v) - y_min (plot_bounds v)).
  assert (Hxr : 0 < xr) by (unfold xr; lra).
  assert (Hyr : 0 < yr) by (unfold yr; lra).
  replace (1 - (py p - y_min (plot_bounds v)) / yr)
    with ((y_max (plot_bounds v) - py p) / yr) by (unfold yr; field; lra).
  pose proof (scaled_nonneg (px p - x_min (plot_bounds v)) xr (effective_width l) Hxr Hew) as A1.
  pose proof (scaled_le (px p - x_min (plot_bounds v)) xr (effective_width l) Hxr Hew) as A2.
  pose proof (scaled_nonneg (y_max (plot_bounds v) - py p) yr (effective_height l) Hyr Heh) as B1.
  pose proof (scaled_le (y_max (plot_bounds v) - py p) yr (effective_height l) Hyr Heh) as B2.
  unfold xr, yr in *. split; intros H.
  - destruct H as [[Hx1 Hx2] [Hy1 Hy2]].
    assert (0 <= px p - x_min (plot_bounds v)) as C1 by lra.
    assert (px p - x_min (plot_bounds v) <= x_max (plot_bounds v) - x_min (plot_bounds v))
      as C2 by lra.
    assert (0 <= y_max (plot_bounds v) - py p) as D1 by lra.
    assert (y_max (plot_bounds v) - py p <= y_max (plot_bounds v) - y_min (plot_bounds v))
      as D2 by lra.
    apply A1 in C1. apply A2 in C2. apply B1 in D1. apply B2 in D2. lra.
  - destruct H as [[Hx1 Hx2] [Hy1 Hy2]].
    assert (0 <= (px p - x_min (plot_bounds v)) / (x_max (plot_bounds v) - x_min (plot_bounds v))
                 * effective_width l) as C1 by lra.
    assert ((px p - x_min (plot_bounds v)) / (x_max (plot_bounds v) - x_min (plot_bounds v))
                 * effective_width l <= effective_width l) as C2 by lra.
    assert (0 <= (y_max (plot_bounds v) - py p) / (y_max (plot_bounds v) - y_min (plot_bounds v))
                 * effective_height l) as D1 by lra.
    assert ((y_max (plot_bounds v) - py p) / (y_max (plot_bounds v) - y_min (plot_bounds v))
                 * effective_height l <= effective_height l) as D2 by lra.
    apply A1 in C1. apply A2 in C2. apply B1 in D1. apply B2 in D2. lra.
Qed.

(** X2.  The rectangle the axes are drawn in is the image of the plot bounds:
    its corners are the images of the corners of the bounds, and a plot
    point lies within the bounds exactly when its image lies in the
    rectangle. *)
Theorem axes_rect_is_image_of_bounds (v : view) :
  non_degenerate v -> 0 < aspect_ratio v ->
  let b := plot_bounds v in
  let r := drawAxes_rect v in
  plotToCanvas v (mkXY (x_min b) (y_max b)) = mkXY (rect_left r) (rect_top r) /\
  plotToCanvas v (mkXY (x_max b) (y_min b)) = mkXY (rect_right r) (rect_bottom r) /\
  forall p, within_bounds v p <-> inside_area r (plotToCanvas v p) = true.
Proof.
  intros Hnd Ha b r. split; [|split].
  - destruct Hnd as (Hx & Hy & Hw & Hh). unfold r, b. rewrite drawAxes_rect_layout.
    unfold plotToCanvas. cbn [px py rect_left rect_top]. f_equal; field; lra.
  - destruct Hnd as (Hx & Hy & Hw & Hh). unfold r, b. rewrite drawAxes_rect_layout.
    unfold plotToCanvas. cbn [px py rect_right rect_bottom]. f_equal; field; lra.
  - intros p. rewrite inside_area_true. apply inside_axes_rect; assumption.
Qed.

Lemma axes_rect_is_image_of_bounds_witness :
  inside_area (drawAxes_rect default_view) (plotToCanvas default_view (mkXY 3 4)) = true.
Proof.
  apply (proj2 (proj2 (axes_rect_is_image_of_bounds default_view
                         default_view_non_degenerate default_view_aspect))).
  unfold within_bounds, default_view; cbn. lra.
Defined.

Lemma effective_area_contains_axes v :
  non_degenerate v -> aspect_ratio v = 1 ->
  rect_left (getEffectivePlotArea v) <= rect_left (drawAxes_rect v) /\
  rect_right (drawAxes_rect v) <= rect_right (getEffectivePlotArea v) /\
  rect_top (getEffectivePlotArea v) <= rect_top (drawAxes_rect v) /\
  rect_bottom (drawAxes_rect v) <= rect_bottom (getEffectivePlotArea v).
Proof.
  intros Hnd Ha. assert (Ha' : 0 < aspect_ratio v) by lra.
  pose proof (plot_aspect_pos v Hnd Ha') as Hpa.
  destruct Hnd as (Hx & Hy & Hw & Hh).
  unfold getEffectivePlotArea, drawAxes_rect. cbv zeta. rewrite Ha in *.
  set (pa := (x_max (plot_bounds v) - x_min (plot_bounds v)) * 1
             / (y_max (plot_bounds v) - y_min (plot_bounds v))) in *.
  destruct (Rlt_dec (plot_width v / plot_height v) pa) as [Hlt|Hge];
    cbn [rect_left rect_right rect_top rect_bottom
         effective_width effective_height x_offset y_offset].
  - assert (Hq : plot_width v < plot_height v * pa).
    { apply (Rmult_lt_compat_r (plot_height v)) in Hlt; [|assumption].
      replace (plot_width v / plot_height v * plot_height v) with (plot_width v) in Hlt
        by (field; lra). lra. }
    assert (Hq' : plot_width v / pa < plot_height v).
    { apply (Rmult_lt_reg_r pa); [assumption|].
      replace (plot_width v / pa * pa) with (plot_width v) by (field; lra). lra. }
    replace (plot_height v * pa / 1) with (plot_height v * pa) by field.
    lra.
  - apply Rnot_lt_le in Hge.
    assert (Hq : plot_height v * pa <= plot_width v).
    { apply (Rmult_le_compat_r (plot_height v)) in Hge; [|lra].
      replace (plot_width v / plot_height v * plot_height v) with (plot_width v) in Hge
        by (field; lra). lra. }
    assert (Hq' : plot_height v <= plot_width v * 1 / pa).
    { apply (Rmult_le_reg_r pa); [assumption|].
      replace (plot_width v * 1 / pa * pa) with (plot_width v) by (field; lra). lra. }
    lra.
Qed.

(** X3.  With the aspect ratio 1, no sample of a function that lies within
    the plot bounds fails the test that [drawFunction] makes against the
    area [getEffectivePlotArea] returns. *)
Theorem effective_area_keeps_samples_in_bounds (v : view) (p : xy) :
  non_degenerate v -> aspect_ratio v = 1 -> within_bounds v p ->
  inside_area (getEffectivePlotArea v) (plotToCanvas v p) = true.
Proof.
  intros Hnd Ha Hp. assert (Ha' : 0 < aspect_ratio v) by lra.
  apply inside_area_true.
  pose proof (effective_area_contains_axes v Hnd Ha) as (A & B & C & D).
  apply (inside_axes_rect v p Hnd Ha') in Hp. lra.
Qed.

Lemma effective_area_keeps_samples_in_bounds_witness :
  inside_area (getEffectivePlotArea default_view)
              (plotToCanvas default_view (mkXY (-10) 10)) = true.
Proof.
  apply (effective_area_keeps_samples_in_bounds default_view (mkXY (-10) 10)
           default_view_non_degenerate).
  - reflexivity.
  - unfold within_bounds, default_view; cbn. lra.
Defined.


(** X4.  When the x range constrains the layout and the aspect ratio is large
    enough that the bare ratio of the ranges is below the aspect of the
    canvas, [getEffectivePlotArea] is narrower than the axes, and a sample
    on the left edge of the bounds fails the test against it. *)
Theorem effective_area_rejects_left_edge (v : view) (y : R) :
  non_degenerate v -> 0 < aspect_ratio v ->
  let x_range := x_max (plot_bounds v) - x_min (plot_bounds v) in
  let y_range := y_max (plot_bounds v) - y_min (plot_bounds v) in
  plot_width v / plot_height v < x_range * aspect_ratio v / y_range ->
  x_range / y_range < plot_width v / plot_height v ->
  inside_area (getEffectivePlotArea v) (plotToCanvas v (mkXY (x_min (plot_bounds v)) y)) = false.
Proof.
  intros Hnd Ha x_range y_range Hlt Hnarrow.
  destruct Hnd as (Hx & Hy & Hw & Hh).
  apply inside_area_false_left.
  unfold getEffectivePlotArea, plotToCanvas, plotToCanvas_layout. cbv zeta.
  fold x_range y_range.
  destruct (Rlt_dec (plot_width v / plot_height v) (x_range * aspect_ratio v / y_range))
    as [_|Hn]; [|contradiction].
  cbn [rect_left px effective_width x_offset].
  assert (Hxr : 0 < x_range) by (unfold x_range; lra).
  assert (Hyr : 0 < y_range) by (unfold y_range; lra).
  replace (plot_height v * (x_range * aspect_ratio v / y_range) / aspect_ratio v)
    with (plot_height v * (x_range / y_range)) by (field; lra).
  assert (Hq : plot_height v * (x_range / y_range) < plot_width v).
  { apply (Rmult_lt_compat_r (plot_height v)) in Hnarrow; [|assumption].
    replace (plot_width v / plot_height v * plot_height v) with (plot_width v) in Hnarrow
      by (field; lra). lra. }
  replace ((x_min (plot_bounds v) - x_min (plot_bounds v)) / x_range * plot_width v)
    with 0 by (field; lra).
  lra.
Qed.

Lemma effective_area_rejects_left_edge_witness :
  inside_area (getEffectivePlotArea stretched_view)
              (plotToCanvas stretched_view (mkXY (-10) 0)) = false.
Proof.
  apply (effective_area_rejects_left_edge stretched_view 0).
  - unfold non_degenerate, stretched_view; cbn. lra.
  - cbn. lra.
  - cbn. lra.
  - cbn. lra.
Defined.

Lemma tick_loop_stuck fuel x to step :
  x <= to -> step = 0 -> tick_loop fuel x to step = None.
Proof.
  intros Hx ->. revert x Hx. induction fuel as [|fuel IH]; intros x Hx; [reflexivity|].
  cbn. destruct (Rle_dec x to) as [_|Hn]; [|contradiction].
  rewrite IH by lra. reflexivity.
Qed.

(** X6.  With an empty range, [x_min = x_max], the step is zero and the loop of
    [drawXTicksAndLabels] never ends: whatever the number of iterations
    allowed, it is still running. *)
Theorem x_ticks_never_end_on_empty_range (v : view) (plot_left plot_right x_axis_y : R)
    (fuel : nat) :
  x_min (plot_bounds v) = x_max (plot_bounds v) ->
  drawXTicksAndLabels fuel v plot_left plot_right x_axis_y = None.
Proof.
  intros H. unfold drawXTicksAndLabels. cbv zeta.
  rewrite tick_loop_stuck; [reflexivity| lra |].
  rewrite H. unfold Rdiv. ring.
Qed.

Lemma x_ticks_never_end_on_empty_range_witness :
  drawXTicksAndLabels 1000 collapsed_view 60 740 300 = None.
Proof. apply x_ticks_never_end_on_empty_range. reflexivity. Defined.

Lemma Rabs_between a b y : a <= y <= b -> Rabs y <= Rmax (Rabs a) (Rabs b).
Proof.
  intros [H1 H2]. unfold Rabs, Rmax.
  destruct (Rcase_abs y), (Rcase_abs a), (Rcase_abs b);
    destruct (Rle_dec _ _); lra.
Qed.

Lemma Rabs_le_bounds x y : Rabs x <= y -> - y <= x <= y.
Proof. unfold Rabs. destruct (Rcase_abs x); lra. Qed.

Section Rounding.
Variable rnd : R -> R.
Variable u : R.
Variable eta : R.
Variable hi : R.
Hypothesis u_nonneg : 0 <= u.
Hypothesis eta_nonneg : 0 <= eta.
(** The standard model of rounding to nearest: below the overflow
    threshold [hi] the error is at most the relative error [u], or the
    absolute error [eta] of the subnormal range. *)
Hypothesis rnd_error : forall x, Rabs x <= hi -> Rabs (rnd x - x) <= u * Rabs x + eta.

Lemma tick_loop_rounded_run (n fuel : nat) (x to step : R) :
  (forall k, (k < n)%nat -> after_steps rnd step k x <= to) ->
  ~ after_steps rnd step n x <= to ->
  (n < fuel)%nat ->
  tick_loop_rounded rnd fuel x to step
  = Some ((fun k => after_steps rnd step k x) <$> seq 0 n).
Proof.
  revert fuel x. induction n as [|n IH]; intros fuel x Hin Hout Hfuel.
  - destruct fuel as [|fuel]; [lia|]. cbn [tick_loop_rounded after_steps] in *.
    destruct (Rle_dec x to); [contradiction | reflexivity].
  - destruct fuel as [|fuel]; [lia|]. cbn [tick_loop_rounded].
    destruct (Rle_dec x to) as [_|Hn]; [|exfalso; apply Hn, (Hin 0%nat); lia].
    rewrite (IH fuel (rnd (x + step))).
    + cbn [seq fmap list_fmap option_fmap option_map after_steps]. do 2 f_equal.
      rewrite <- seq_shift, <- list_fmap_compose. reflexivity.
    + intros k Hk. apply (Hin (S k)). lia.
    + exact Hout.
    + lia.
Qed.

Lemma after_steps_S step k x :
  after_steps rnd step (S k) x = rnd (after_steps rnd step k x + step).
Proof.
  revert x. induction k as [|k IH]; intros x; [reflexivity|].
  change (after_steps rnd step (S (S k)) x) with (after_steps rnd step (S k) (rnd (x + step))).
  rewrite IH. reflexivity.
Qed.

Section Bounds.
Variables a b : R.
Let r := b - a.
Let M := Rmax (Rabs a) (Rabs b).
Let E := u * (M + r).
Let s := rnd (rnd (b - a) / 10).
Hypothesis range_pos : a < b.
Hypothesis no_underflow : eta <= u * r.
Hypothesis no_overflow : 2 * M + r <= hi.
Hypothesis moderate : 1000 * u * (M + r) <= r.

Lemma M_bounds : Rabs a <= M /\ Rabs b <= M /\ 0 <= M /\ r <= 2 * M.
Proof.
  unfold M, r. pose proof (Rmax_l (Rabs a) (Rabs b)). pose proof (Rmax_r (Rabs a) (Rabs b)).
  pose proof (Rabs_pos a). pose proof (Rle_abs b). pose proof (Rle_abs (- a)).
  rewrite Rabs_Ropp in *. repeat split; lra.
Qed.

Lemma E_small : 0 <= E /\ 1000 * E <= r /\ u * r <= E /\ eta <= E.
Proof.
  destruct M_bounds as (_ & _ & HM & _). unfold E.
  assert (0 <= u * M) by (apply Rmult_le_pos; assumption).
  assert (0 <= u * r) by (apply Rmult_le_pos; [assumption | unfold r; lra]).
  repeat split; lra.
Qed.

Lemma step_error : Rabs (s - r / 10) <= 2 * E.
Proof.
  destruct M_bounds as (Ha & Hb & HM & Hr). destruct E_small as (HE & HE' & HuE & HeE).
  assert (Hr0 : 0 < r) by (unfold r; lra).
  assert (Hu : u <= / 1000).
  { assert (1000 * u * r <= r) by (unfold E in HE'; nra). 
    apply Rmult_le_reg_r with r; [assumption|]. lra. }
  assert (H1 : Rabs (rnd r - r) <= 2 * (u * r)).
  { pose proof (rnd_error r) as H. rewrite (Rabs_right r) in H by lra.
    specialize (H ltac:(lra)). lra. }
  apply Rabs_le_bounds in H1. 
  assert (Hq : Rabs (rnd r / 10) <= r).
  { apply Rabs_le. nra. }
  pose proof (rnd_error (rnd r / 10) ltac:(lra)) as H2.
  pose proof (Rmult_le_compat_l u _ _ u_nonneg Hq) as Huq.
  assert (H3 : Rabs (rnd (rnd r / 10) - rnd r / 10) <= u * r + eta) by lra.
  apply Rabs_le_bounds in H3.
  assert (HuM : u * r <= u * (2 * M)) by (apply Rmult_le_compat_l; lra).
  unfold s. fold r. apply Rabs_le. unfold E. lra.
Qed.

(** The loop variable stays near the marks that divide the range in
    tenths. *)
Lemma after_steps_error (k : nat) :
  (k <= 11)%nat ->
  Rabs (after_steps rnd s k a - (a + INR k * (r / 10))) <= 4 * INR k * E.
Proof.
  destruct M_bounds as (Ha & Hb & HM & Hr). destruct E_small as (HE & HE' & HuE & HeE).
  assert (Hr0 : 0 < r) by (unfold r; lra).
  pose proof step_error as Hs. apply Rabs_le_bounds in Hs.
  induction k as [|k IH]; intros Hk.
  - cbn [after_steps INR]. replace (a - (a + 0 * (r / 10))) with 0 by lra.
    rewrite Rabs_R0. lra.
  - specialize (IH ltac:(lia)). rewrite after_steps_S, S_INR.
    assert (Hk10 : 0 <= INR k <= 10).
    { split; [apply pos_INR|]. replace 10 with (INR 10) by (simpl; lra).
      apply le_INR. lia. }
    set (x := after_steps rnd s k a) in *.
    set (t := INR k * (r / 10)) in *.
    assert (Ht : 0 <= t <= r) by (unfold t; nra).
    apply Rabs_le_bounds in IH.
    assert (He : 4 * INR k * E <= 40 * E) by nra.
    assert (Hy : a <= a + t <= b) by (unfold r in Ht; lra).
    pose proof (Rabs_between a b (a + t) Hy) as Hat. fold M in Hat.
    assert (Hxs : Rabs (x + s) <= M + r).
    { apply Rabs_le_bounds in Hat. apply Rabs_le. lra. }
    pose proof (rnd_error (x + s) ltac:(lra)) as Hrn.
    assert (Hrn' : Rabs (rnd (x + s) - (x + s)) <= 2 * E).
    { unfold E at 1. unfold E in HeE. nra. }
    apply Rabs_le_bounds in Hrn'. apply Rabs_le.
    replace ((INR k + 1) * (r / 10)) with (t + r / 10) by (unfold t; ring).
    replace (4 * (INR k + 1) * E) with (4 * INR k * E + 4 * E) by ring.
    lra.
Qed.

Lemma tick_loop_ten_or_eleven (fuel : nat) :
  (12 <= fuel)%nat ->
  exists xs,
    tick_loop_rounded rnd fuel a b s = Some xs /\
    (length xs = 10%nat \/ length xs = 11%nat) /\
    forall k x, xs !! k = Some x ->
      x <= b /\ Rabs (x - (a + INR k * (r / 10))) <= 4 * INR k * E.
Proof.
  intros Hfuel.
  destruct E_small as (HE & HE' & HuE & HeE).
  assert (Hr0 : 0 < r) by (unfold r; lra).
  assert (Hin : forall k, (k < 10)%nat -> after_steps rnd s k a <= b).
  { intros k Hk. pose proof (after_steps_error k ltac:(lia)) as H.
    apply Rabs_le_bounds in H.
    assert (Hk9 : 0 <= INR k <= 9).
    { split; [apply pos_INR|]. replace 9 with (INR 9) by (simpl; lra). apply le_INR. lia. }
    unfold r in *. nra. }
  assert (Hout : ~ after_steps rnd s 11 a <= b).
  { pose proof (after_steps_error 11 ltac:(lia)) as H. apply Rabs_le_bounds in H.
    replace (INR 11) with 11 in H by (simpl; lra). unfold r in *. lra. }
  assert (Hspec : forall n, (n <= 11)%nat ->
            forall k x, ((fun k => after_steps rnd s k a) <$> seq 0 n) !! k = Some x ->
            (forall k', (k' < n)%nat -> after_steps rnd s k' a <= b) ->
            x <= b /\ Rabs (x - (a + INR k * (r / 10))) <= 4 * INR k * E).
  { intros n Hn k x Hk Hall. rewrite list_lookup_fmap in Hk.
    destruct (seq 0 n !! k) as [k'|] eqn:Hs; [|discriminate].
    apply lookup_seq in Hs as [-> Hlt]. cbn in Hk. injection Hk as <-.
    split; [apply Hall; assumption | apply after_steps_error; lia]. }
  destruct (Rle_dec (after_steps rnd s 10 a) b) as [H10|H10].
  - exists ((fun k => after_steps rnd s k a) <$> seq 0 11). split.
    { apply tick_loop_rounded_run; [|assumption|lia].
      intros k Hk. destruct (decide (k = 10%nat)) as [->|]; [assumption | apply Hin; lia]. }
    split; [right; rewrite length_fmap, length_seq; reflexivity|].
    intros k x Hk. apply (Hspec 11%nat); [lia | assumption|].
    intros k' Hk'. destruct (decide (k' = 10%nat)) as [->|]; [assumption | apply Hin; lia].
  - exists ((fun k => after_steps rnd s k a) <$> seq 0 10). split.
    { apply tick_loop_rounded_run; [assumption | assumption | lia]. }
    split; [left; rewrite length_fmap, length_seq; reflexivity|].
    intros k x Hk. apply (Hspec 10%nat); [lia | assumption | assumption].
Qed.

End Bounds.
End Rounding.


Lemma round_up_error x :
  Rabs (round_up x - x) <= / 9007199254740992 * Rabs x + 0.
Proof.
  unfold round_up. replace (x + / 9007199254740992 * Rabs x - x)
    with (/ 9007199254740992 * Rabs x) by ring.
  pose proof (Rabs_pos x). rewrite Rabs_right; [lra|]. apply Rle_ge. lra.
Qed.

(** With [round_up] every sum comes out too large, and over the range from
    0 to 7 the loop variable has passed 7 after ten rounds. *)
Lemma round_up_ge x : x <= round_up x.
Proof.
  unfold round_up. pose proof (Rabs_pos x).
  assert (0 <= / 9007199254740992 * Rabs x) by (apply Rmult_le_pos; lra). lra.
Qed.

Lemma round_up_steps step k x :
  0 <= step -> x + INR k * step <= after_steps round_up step k x.
Proof.
  intros Hs. revert x. induction k as [|k IH]; intros x.
  - cbn [after_steps INR]. lra.
  - rewrite S_INR. cbn [after_steps].
    pose proof (IH (round_up (x + step))). pose proof (round_up_ge (x + step)). lra.
Qed.

Lemma seven_view_step : 7 / 10 < x_step_rounded round_up seven_view.
Proof.
  unfold x_step_rounded, seven_view. cbn [plot_bounds x_min x_max].
  replace (7 - 0) with 7 by lra.
  assert (H7 : round_up 7 = 7 + / 9007199254740992 * 7).
  { unfold round_up. rewrite Rabs_right by lra. reflexivity. }
  pose proof (round_up_ge (round_up 7 / 10)). rewrite H7 in *. lra.
Qed.

Lemma seven_view_ten_rounds :
  exists xs, x_tick_values round_up 12 seven_view = Some xs /\ length xs = 10%nat.
Proof.
  pose proof seven_view_step as Hs.
  set (s := x_step_rounded round_up seven_view) in *.
  assert (HM : Rmax (Rabs 0) (Rabs 7) = 7).
  { rewrite Rabs_R0, (Rabs_right 7) by lra. apply Rmax_right. lra. }
  exists ((fun k => after_steps round_up s k 0) <$> seq 0 10). split.
  - unfold x_tick_values. fold s. cbn [seven_view plot_bounds x_min x_max].
    apply tick_loop_rounded_run; [| |lia].
    + intros k Hk.
      pose proof (after_steps_error round_up (/ 9007199254740992) 0 100
                    ltac:(lra) ltac:(lra) (fun x _ => round_up_error x) 0 7
                    ltac:(lra) ltac:(lra) ltac:(rewrite HM; lra) ltac:(rewrite HM; lra)
                    k ltac:(lia)) as H.
      cbv zeta in H. rewrite HM in H. apply Rabs_le_bounds in H.
      assert (Hk9 : 0 <= INR k <= 9).
      { split; [apply pos_INR|]. replace 9 with (INR 9) by (simpl; lra). apply le_INR. lia. }
      unfold s, x_step_rounded, seven_view. cbn [plot_bounds x_min x_max]. nra.
    + intros H. pose proof (round_up_steps s 10 0 ltac:(lra)) as H10.
      replace (INR 10) with 10 in H10 by (simpl; lra). lra.
  - rewrite length_fmap, length_seq. reflexivity.
Qed.


End LayoutFacts.

Module HitTestFacts.
Import Transform Scene HitTest.
Local Open Scope R_scope.

Lemma pow2_mult x : x ^ 2 = x * x.
Proof. ring. Qed.

Lemma sum_sq_nonneg a b : 0 <= a * a + b * b.
Proof. pose proof (Rle_0_sqr a). pose proof (Rle_0_sqr b). unfold Rsqr in *. lra. Qed.

Lemma sum_sq_zero a b : a * a + b * b = 0 -> a = 0 /\ b = 0.
Proof.
  intros H. pose proof (Rle_0_sqr a) as Ha. pose proof (Rle_0_sqr b) as Hb.
  unfold Rsqr in *. split; apply Rsqr_0_uniq; unfold Rsqr; lra.
Qed.

Lemma distance_nonneg p q : 0 <= distance p q.
Proof. apply sqrt_pos. Qed.

Lemma distance_zero p q : distance p q = 0 <-> p = q.
Proof.
  destruct p as [x y], q as [x' y']. unfold distance. cbn [px py].
  rewrite !pow2_mult. split.
  - intros H. apply sqrt_eq_0 in H; [|apply sum_sq_nonneg].
    apply sum_sq_zero in H. f_equal; lra.
  - intros [= -> ->]. replace ((x' - x') * (x' - x') + (y' - y') * (y' - y')) with 0 by ring.
    apply sqrt_0.
Qed.

(** The distance is attained on the segment, at the clamped parameter of
    the projection. *)
Lemma distanceToLine_attained p a b :
  exists t, 0 <= t <= 1 /\ distanceToLine p a b = distance p (along a b t).
Proof.
  unfold distanceToLine. cbv zeta.
  destruct (Req_dec_T _ 0) as [Hz|Hnz].
  - exists 0. split; [lra|]. unfold distance, along. cbn [px py].
    f_equal. ring.
  - eexists. split; [|reflexivity].
    split; [apply Rmax_l|].
    apply Rmax_lub; [lra|apply Rmin_l].
Qed.

Lemma distanceToLine_le p a b t :
  0 <= t <= 1 -> distanceToLine p a b <= distance p (along a b t).
Proof.
  intros Ht. unfold distanceToLine, distance, along. cbv zeta. cbn [px py].
  destruct p as [x y], a as [ax ay], b as [bx by']. cbn [px py].
  set (dx := bx - ax). set (dy := by' - ay).
  set (wx := x - ax). set (wy := y - ay).
  rewrite !pow2_mult.
  destruct (Req_dec_T (dx * dx + dy * dy) 0) as [Hz|Hnz]; apply sqrt_le_1_alt.
  - apply sum_sq_zero in Hz. destruct Hz as [-> ->].
    rewrite !Rmult_0_r, !Rplus_0_r. apply Rle_refl.
  - assert (HL : 0 < dx * dx + dy * dy).
    { pose proof (sum_sq_nonneg dx dy). lra. }
    set (L := dx * dx + dy * dy) in *.
    set (tau := (wx * dx + wy * dy) / L).
    assert (Htau : tau * L = wx * dx + wy * dy) by (unfold tau; field; lra).
    set (ts := Rmax 0 (Rmin 1 tau)).
    assert (Hdiff : forall u, (x - (ax + u * dx)) * (x - (ax + u * dx))
                              + (y - (ay + u * dy)) * (y - (ay + u * dy))
                              = wx * wx + wy * wy - 2 * u * (tau * L) + u * u * L).
    { intros u. rewrite Htau. unfold L, wx, wy. ring. }
    rewrite !Hdiff.
    assert (Hkey : 0 <= L * ((t - ts) * (t + ts - 2 * tau))).
    { apply Rmult_le_pos; [lra|].
      unfold ts, Rmax, Rmin.
      destruct (Rle_dec 1 tau); destruct (Rle_dec 0 _); try lra.
      - replace ((t - 1) * (t + 1 - 2 * tau)) with ((1 - t) * (2 * tau - 1 - t)) by ring.
        apply Rmult_le_pos; lra.
      - replace ((t - tau) * (t + tau - 2 * tau)) with ((t - tau) * (t - tau)) by ring.
        apply Rle_0_sqr.
      - apply Rmult_le_pos; lra. }
    replace (wx * wx + wy * wy - 2 * t * (tau * L) + t * t * L)
      with (wx * wx + wy * wy - 2 * ts * (tau * L) + ts * ts * L
            + L * ((t - ts) * (t + ts - 2 * tau))) by ring.
    lra.
Qed.

(** X7.  [distanceToLine] is the distance to the nearest point of the closed
    segment: no point of the segment is nearer, and some point of it is at
    that distance.  A segment of length zero is its one point. *)
Theorem distanceToLine_is_minimum (p a b : xy) :
  (forall t, 0 <= t <= 1 -> distanceToLine p a b <= distance p (along a b t)) /\
  (exists t, 0 <= t <= 1 /\ distanceToLine p a b = distance p (along a b t)).
Proof.
  split; [intros t; apply distanceToLine_le | apply distanceToLine_attained].
Qed.

(** X8.  The distance to a segment is zero exactly for the points of the
    segment. *)
Theorem distanceToLine_zero_iff_on_segment (p a b : xy) :
  distanceToLine p a b = 0 <-> on_segment p a b.
Proof.
  split.
  - intros H. destruct (distanceToLine_attained p a b) as (t & Ht & E).
    exists t. split; [assumption|]. apply distance_zero. congruence.
  - intros (t & Ht & ->).
    pose proof (distanceToLine_le (along a b t) a b t Ht) as Hle.
    assert (Hz : distance (along a b t) (along a b t) = 0) by (apply distance_zero; reflexivity).
    assert (Hp : 0 <= distanceToLine (along a b t) a b).
    { destruct (distanceToLine_attained (along a b t) a b) as (u & _ & ->).
      apply distance_nonneg. }
    lra.
Qed.

(** X9.  The distance to a rectangle is zero exactly for the points with
    [x1 <= x <= x2] and [y1 <= y <= y2]; a rectangle whose corners are not
    in that order is at distance zero from no point. *)
Theorem distanceToRectangle_zero_iff_inside (p : xy) (rect : plot_object) :
  distanceToRectangle p rect = 0 <->
  (obj_x1 rect <= px p <= obj_x2 rect /\ obj_y1 rect <= py p <= obj_y2 rect).
Proof.
  unfold distanceToRectangle. cbv zeta.
  set (dx := Rmax (Rmax (obj_x1 rect - px p) 0) (px p - obj_x2 rect)).
  set (dy := Rmax (Rmax (obj_y1 rect - py p) 0) (py p - obj_y2 rect)).
  assert (Hdx : 0 <= dx /\ obj_x1 rect - px p <= dx /\ px p - obj_x2 rect <= dx /\
                (dx = 0 \/ dx = obj_x1 rect - px p \/ dx = px p - obj_x2 rect)).
  { unfold dx, Rmax. repeat destruct (Rle_dec _ _); lra. }
  assert (Hdy : 0 <= dy /\ obj_y1 rect - py p <= dy /\ py p - obj_y2 rect <= dy /\
                (dy = 0 \/ dy = obj_y1 rect - py p \/ dy = py p - obj_y2 rect)).
  { unfold dy, Rmax. repeat destruct (Rle_dec _ _); lra. }
  clearbody dx dy. split.
  - intros H. apply sqrt_eq_0 in H; [|apply sum_sq_nonneg].
    apply sum_sq_zero in H. lra.
  - intros H. assert (dx = 0) by lra. assert (dy = 0) by lra. subst.
    replace (0 * 0 + 0 * 0) with 0 by ring. apply sqrt_0.
Qed.

End HitTestFacts.

Module HitBoxFacts.
Import Transform Scene Brace HitBox.
Local Open Scope R_scope.

Lemma Rmin_Rabs a b : Rmin a b + Rabs (b - a) = Rmax a b.
Proof.
  unfold Rmin, Rmax, Rabs.
  destruct (Rle_dec a b); destruct (Rcase_abs (b - a)); lra.
Qed.

Lemma span_min a b : Rmin (Rmin a b) (Rmin a b + Rabs (b - a)) = Rmin a b.
Proof.
  rewrite Rmin_Rabs. unfold Rmin, Rmax. repeat destruct (Rle_dec _ _); lra.
Qed.

Lemma span_max a b : Rmax (Rmin a b) (Rmin a b + Rabs (b - a)) = Rmax a b.
Proof.
  rewrite Rmin_Rabs. unfold Rmin, Rmax. repeat destruct (Rle_dec _ _); lra.
Qed.

Lemma plotToCanvas_px v x y y' : px (plotToCanvas v (mkXY x y)) = px (plotToCanvas v (mkXY x y')).
Proof. reflexivity. Qed.

Lemma plotToCanvas_py v x x' y : py (plotToCanvas v (mkXY x y)) = py (plotToCanvas v (mkXY x' y)).
Proof. reflexivity. Qed.

(** X10.  The hit box of an area is the rectangle the area is drawn as, whatever
    the order of its corners and whatever the view. *)
Theorem area_hit_box_is_drawn_rectangle (v : view) (area : plot_object) (q : xy) :
  covers (drawPickingAreaBBox v area) q <-> covers (drawArea v area) q.
Proof.
  unfold covers, drawPickingAreaBBox, drawArea. cbv zeta.
  cbn [rc_x rc_y rc_width rc_height].
  rewrite !span_min, !span_max.
  rewrite (plotToCanvas_px v (obj_x1 area) (obj_y2 area) (obj_y1 area)).
  rewrite (plotToCanvas_px v (obj_x2 area) (obj_y1 area) (obj_y2 area)).
  rewrite (plotToCanvas_py v (obj_x1 area) (obj_x2 area) (obj_y2 area)).
  rewrite (plotToCanvas_py v (obj_x2 area) (obj_x1 area) (obj_y1 area)).
  set (X1 := px (plotToCanvas v (mkXY (obj_x1 area) (obj_y1 area)))).
  set (X2 := px (plotToCanvas v (mkXY (obj_x2 area) (obj_y2 area)))).
  set (Y1 := py (plotToCanvas v (mkXY (obj_x1 area) (obj_y1 area)))).
  set (Y2 := py (plotToCanvas v (mkXY (obj_x2 area) (obj_y2 area)))).
  replace (X1 + (X2 - X1)) with X2 by ring.
  replace (Y2 + (Y1 - Y2)) with Y1 by ring.
  rewrite (Rmin_comm Y2 Y1), (Rmax_comm Y2 Y1). tauto.
Qed.


Lemma plotToCanvas_px_le v a b y y' :
  non_degenerate v -> 0 < aspect_ratio v ->
  (px (plotToCanvas v (mkXY a y)) <= px (plotToCanvas v (mkXY b y')) <-> a <= b).
Proof.
  intros Hnd Ha. destruct (LayoutFacts.layout_positive v Hnd Ha) as [Hew _].
  destruct Hnd as (Hx & _). unfold plotToCanvas. cbn [px].
  set (xr := x_max (plot_bounds v) - x_min (plot_bounds v)).
  assert (Hxr : 0 < xr) by (unfold xr; lra).
  assert (Hk : 0 < effective_width (plotToCanvas_layout v) / xr)
    by (apply Rdiv_lt_0_compat; assumption).
  replace ((a - x_min (plot_bounds v)) / xr * effective_width (plotToCanvas_layout v))
    with ((a - x_min (plot_bounds v)) * (effective_width (plotToCanvas_layout v) / xr))
    by (field; lra).
  replace ((b - x_min (plot_bounds v)) / xr * effective_width (plotToCanvas_layout v))
    with ((b - x_min (plot_bounds v)) * (effective_width (plotToCanvas_layout v) / xr))
    by (field; lra).
  split; intros H; nra.
Qed.

Lemma plotToCanvas_py_le v a b x x' :
  non_degenerate v -> 0 < aspect_ratio v ->
  (py (plotToCanvas v (mkXY x a)) <= py (plotToCanvas v (mkXY x' b)) <-> b <= a).
Proof.
  intros Hnd Ha. destruct (LayoutFacts.layout_positive v Hnd Ha) as [_ Heh].
  destruct Hnd as (_ & Hy & _). unfold plotToCanvas. cbn [py].
  set (yr := y_max (plot_bounds v) - y_min (plot_bounds v)).
  assert (Hyr : 0 < yr) by (unfold yr; lra).
  assert (Hk : 0 < effective_height (plotToCanvas_layout v) / yr)
    by (apply Rdiv_lt_0_compat; assumption).
  replace ((1 - (a - y_min (plot_bounds v)) / yr) * effective_height (plotToCanvas_layout v))
    with (effective_height (plotToCanvas_layout v)
          - (a - y_min (plot_bounds v)) * (effective_height (plotToCanvas_layout v) / yr))
    by (field; lra).
  replace ((1 - (b - y_min (plot_bounds v)) / yr) * effective_height (plotToCanvas_layout v))
    with (effective_height (plotToCanvas_layout v)
          - (b - y_min (plot_bounds v)) * (effective_height (plotToCanvas_layout v) / yr))
    by (field; lra).
  split; intros H; nra.
Qed.

(** X11.  In a non-degenerate view the hit box of an area covers the image of a
    plot point exactly when the point lies between the corners of the area,
    in x and in y. *)
Theorem area_hit_box_covers_area (v : view) (area : plot_object) (p : xy) :
  non_degenerate v -> 0 < aspect_ratio v ->
  (covers (drawPickingAreaBBox v area) (plotToCanvas v p) <->
   (Rmin (obj_x1 area) (obj_x2 area) <= px p <= Rmax (obj_x1 area) (obj_x2 area) /\
    Rmin (obj_y1 area) (obj_y2 area) <= py p <= Rmax (obj_y1 area) (obj_y2 area))).
Proof.
  intros Hnd Ha. unfold covers, drawPickingAreaBBox. cbv zeta.
  cbn [rc_x rc_y rc_width rc_height].
  rewrite !span_min, !span_max. destruct p as [x y]. cbn [px py].
  pose proof (fun a b => plotToCanvas_px_le v a b (obj_y1 area) y Hnd Ha) as X1.
  pose proof (fun a b => plotToCanvas_px_le v a b (obj_y2 area) y Hnd Ha) as X2.
  pose proof (fun a b => plotToCanvas_px_le v a b y (obj_y1 area) Hnd Ha) as X3.
  pose proof (fun a b => plotToCanvas_px_le v a b y (obj_y2 area) Hnd Ha) as X4.
  pose proof (fun a b => plotToCanvas_py_le v a b (obj_x1 area) x Hnd Ha) as Y1.
  pose proof (fun a b => plotToCanvas_py_le v a b (obj_x2 area) x Hnd Ha) as Y2.
  pose proof (fun a b => plotToCanvas_py_le v a b x (obj_x1 area) Hnd Ha) as Y3.
  pose proof (fun a b => plotToCanvas_py_le v a b x (obj_x2 area) Hnd Ha) as Y4.
  specialize (X1 (obj_x1 area) x). specialize (X2 (obj_x2 area) x).
  specialize (X3 x (obj_x1 area)). specialize (X4 x (obj_x2 area)).
  specialize (Y1 (obj_y1 area) y). specialize (Y2 (obj_y2 area) y).
  specialize (Y3 y (obj_y1 area)). specialize (Y4 y (obj_y2 area)).
  set (cx := px (plotToCanvas v (mkXY x y))) in *.
  set (cy := py (plotToCanvas v (mkXY x y))) in *.
  set (sx := px (plotToCanvas v (mkXY (obj_x1 area) (obj_y1 area)))) in *.
  set (ex := px (plotToCanvas v (mkXY (obj_x2 area) (obj_y2 area)))) in *.
  set (sy := py (plotToCanvas v (mkXY (obj_x1 area) (obj_y1 area)))) in *.
  set (ey := py (plotToCanvas v (mkXY (obj_x2 area) (obj_y2 area)))) in *.
  clearbody cx cy sx ex sy ey.
  unfold Rmin, Rmax. repeat destruct (Rle_dec _ _); intuition lra.
Qed.

Lemma area_hit_box_covers_area_witness :
  covers (drawPickingAreaBBox default_view (Commands.area_object "a" (mkXY 4 5) (mkXY 1 2)))
         (plotToCanvas default_view (mkXY 3 4)).
Proof.
  apply (area_hit_box_covers_area default_view _ (mkXY 3 4)
           LayoutFacts.default_view_non_degenerate LayoutFacts.default_view_aspect).
  cbn. unfold Rmin, Rmax. repeat destruct (Rle_dec _ _); lra.
Defined.

Lemma unit_direction dx dy :
  0 < sqrt (dx * dx + dy * dy) ->
  let len := sqrt (dx * dx + dy * dy) in
  dx / len * (dx / len) + dy / len * (dy / len) = 1.
Proof.
  intros Hlen len.
  assert (Hsq : len * len = dx * dx + dy * dy).
  { apply sqrt_sqrt. apply HitTestFacts.sum_sq_nonneg. }
  fold len in Hlen.
  replace (dx / len * (dx / len) + dy / len * (dy / len))
    with ((dx * dx + dy * dy) / (len * len)) by (field; lra).
  rewrite <- Hsq. field. lra.
Qed.

Lemma oriented_box s e half :
  0 < sqrt ((px e - px s) * (px e - px s) + (py e - py s) * (py e - py s)) ->
  let dx := px e - px s in
  let dy := py e - py s in
  let len := sqrt (dx * dx + dy * dy) in
  let perp_x := - (dy / len) in
  let perp_y := dx / len in
  box_along s e half
    [ mkXY (px s + perp_x * half) (py s + perp_y * half);
      mkXY (px s - perp_x * half) (py s - perp_y * half);
      mkXY (px e - perp_x * half) (py e - perp_y * half);
      mkXY (px e + perp_x * half) (py e + perp_y * half) ].
Proof.
  intros Hlen dx dy len perp_x perp_y.
  pose proof (unit_direction dx dy Hlen) as Hu. cbv zeta in Hu. fold len in Hu.
  assert (Hl : 0 < len) by exact Hlen.
  unfold box_along. cbn [px py].
  repeat split; try (unfold perp_x, perp_y, dx, dy; field; lra).
  unfold perp_x, perp_y.
  transitivity ((dx / len * (dx / len) + dy / len * (dy / len)) * (half * half));
    [ring | rewrite Hu; ring].
Qed.

(** X12.  The hit box of a line.  A line shorter than one pixel on the canvas has
    none; otherwise it is a rectangle laid along the line, reaching
    [max(8, 4 * width) / 2], at least four pixels, to either side of it. *)
Theorem line_hit_box (v : view) (line : plot_object) :
  let s := plotToCanvas v (mkXY (obj_x1 line) (obj_y1 line)) in
  let e := plotToCanvas v (mkXY (obj_x2 line) (obj_y2 line)) in
  let half := Rmax 8 (or_else (obj_width line) 2 * 4) / 2 in
  (canvas_length v line < 1 -> drawPickingLineBBox v line = None) /\
  (1 <= canvas_length v line ->
   4 <= half /\
   exists corners, drawPickingLineBBox v line = Some corners /\ box_along s e half corners).
Proof.
  intros s e half. unfold drawPickingLineBBox, canvas_length. cbv zeta. fold s e.
  destruct (Rlt_dec _ 1) as [Hlt|Hge]; split; intros H; try lra; try reflexivity.
  split.
  - unfold half. pose proof (Rmax_l 8 (or_else (obj_width line) 2 * 4)). lra.
  - eexists. split; [reflexivity|].
    apply (oriented_box s e half). lra.
Qed.

(** X13.  The hit box of a brace.  A brace shorter than one pixel has none;
    otherwise it is a rectangle laid along the brace that reaches
    [elevation || width || 15] to either side of the line through its
    ends. *)
Theorem brace_hit_box (v : view) (brace : plot_object) :
  let s := plotToCanvas v (mkXY (obj_x1 brace) (obj_y1 brace)) in
  let e := plotToCanvas v (mkXY (obj_x2 brace) (obj_y2 brace)) in
  let half := or_else (obj_elevation brace) (or_else (obj_width brace) 15) in
  (canvas_length v brace < 1 -> drawPickingBraceBBox v brace = None) /\
  (1 <= canvas_length v brace ->
   exists corners, drawPickingBraceBBox v brace = Some corners /\ box_along s e half corners).
Proof.
  intros s e half. unfold drawPickingBraceBBox, canvas_length. cbv zeta. fold s e.
  destruct (Rlt_dec _ 1) as [Hlt|Hge]; split; intros H; try lra; try reflexivity.
  eexists. split; [reflexivity|].
  replace (or_else (obj_elevation brace) (or_else (obj_width brace) 15) * 2 / 2)
    with half by (unfold half; field).
  apply (oriented_box s e half). lra.
Qed.


(** X14.  The [<rect>] of the SVG export has the numbers of the rectangle the
    canvas draws, and in a non-degenerate view its width is non-negative
    exactly when [x1 <= x2] and its height exactly when [y1 <= y2].  The
    areas [addArea] creates have non-negative ones. *)
Theorem area_svg_rect (v : view) (area : plot_object) :
  non_degenerate v -> 0 < aspect_ratio v ->
  generateAreaSVG v area = drawArea v area /\
  (0 <= rc_width (generateAreaSVG v area) <-> obj_x1 area <= obj_x2 area) /\
  (0 <= rc_height (generateAreaSVG v area) <-> obj_y1 area <= obj_y2 area) /\
  forall new_id start_coords end_coords,
    area = Commands.area_object new_id start_coords end_coords ->
    0 <= rc_width (generateAreaSVG v area) /\ 0 <= rc_height (generateAreaSVG v area).
Proof.
  intros Hnd Ha.
  pose proof (plotToCanvas_px_le v (obj_x1 area) (obj_x2 area) (obj_y2 area) (obj_y1 area)
                Hnd Ha) as HX.
  pose proof (plotToCanvas_py_le v (obj_y2 area) (obj_y1 area) (obj_x1 area) (obj_x2 area)
                Hnd Ha) as HY.
  assert (Hw : 0 <= rc_width (generateAreaSVG v area) <-> obj_x1 area <= obj_x2 area).
  { unfold generateAreaSVG. cbv zeta. cbn [rc_width]. rewrite <- HX. lra. }
  assert (Hh : 0 <= rc_height (generateAreaSVG v area) <-> obj_y1 area <= obj_y2 area).
  { unfold generateAreaSVG. cbv zeta. cbn [rc_height]. rewrite <- HY. lra. }
  split; [reflexivity|]. split; [exact Hw|]. split; [exact Hh|].
  intros new_id s e ->. split.
  - apply Hw. cbn. unfold Rmin, Rmax. repeat destruct (Rle_dec _ _); lra.
  - apply Hh. cbn. unfold Rmin, Rmax. repeat destruct (Rle_dec _ _); lra.
Qed.

Lemma area_svg_rect_witness :
  0 <= rc_width (generateAreaSVG default_view
                   (Commands.area_object "a" (mkXY 4 5) (mkXY 1 2))) /\
  0 <= rc_height (generateAreaSVG default_view
                    (Commands.area_object "a" (mkXY 4 5) (mkXY 1 2))).
Proof.
  apply (proj2 (proj2 (proj2 (area_svg_rect default_view _
                  LayoutFacts.default_view_non_degenerate LayoutFacts.default_view_aspect)))
           "a" (mkXY 4 5) (mkXY 1 2)).
  reflexivity.
Defined.

End HitBoxFacts.

Module RegistryFacts.
Import Color Registry Picking PickingFacts.
Local Open Scope Z_scope.

Lemma enhance_contrast_contrasted value : contrasted (enhance_contrast value).
Proof.
  unfold contrasted, enhance_contrast.
  destruct (value <? 85) eqn:E1; [lia|].
  destruct (170 <? value) eqn:E2; [lia|].
  destruct (value <? 128); lia.
Qed.

(** X16.  Whatever the id and the salt, every channel of the colour that
    [generateUniqueColor] returns is in [0 .. 54] or in [201 .. 255]. *)
Theorem generateUniqueColor_channels (object_id : string) (salt : Z) :
  contrasted (generateUniqueColor object_id salt).1.1 /\
  contrasted (generateUniqueColor object_id salt).1.2 /\
  contrasted (generateUniqueColor object_id salt).2.
Proof.
  unfold generateUniqueColor. cbv zeta. cbn [fst snd].
  repeat split; apply enhance_contrast_contrasted.
Qed.

Lemma to_int32_small z : 0 <= z < 0x80000000 -> to_int32 z = z.
Proof.
  intros H. unfold to_int32. cbv zeta.
  change 0xffffffff with (Z.ones 32). rewrite Z.land_ones by lia.
  change (2 ^ 32) with 4294967296.
  rewrite Z.mod_small by lia.
  destruct (z <? 0x80000000) eqn:E; lia.
Qed.

Lemma js_and_byte z : 0 <= z < 0x80000000 -> js_and z 0xFF = z mod 256.
Proof.
  intros H. unfold js_and. rewrite (to_int32_small z H).
  rewrite (to_int32_small 0xFF) by lia.
  change 0xFF with (Z.ones 8). rewrite Z.land_ones by lia.
  change (2 ^ 8) with 256.
  apply to_int32_small. pose proof (Z.mod_pos_bound z 256). lia.
Qed.

Lemma js_shr_div z n : 0 <= z < 0x80000000 -> 0 <= n -> js_shr z n = z / 2 ^ n.
Proof.
  intros H Hn. unfold js_shr. rewrite (to_int32_small z H).
  apply Z.shiftr_div_pow2. assumption.
Qed.

Lemma sequential_channels color_id :
  0 <= color_id < 16777216 ->
  sequential_color color_id =
  (color_id mod 256, color_id / 256 mod 256, color_id / 65536 mod 256).
Proof.
  intros H. unfold sequential_color.
  rewrite !js_shr_div by lia. change (2 ^ 8) with 256. change (2 ^ 16) with 65536.
  rewrite !js_and_byte; try lia; try reflexivity.
  - split; [apply Z.div_pos; lia|]. apply Z.div_lt_upper_bound; lia.
  - split; [apply Z.div_pos; lia|]. apply Z.div_lt_upper_bound; lia.
Qed.

(** X17.  [generateSequentialColor] advances the counter by one, and while the
    counter is below [2^24] the colour it returns determines the counter:
    two calls at different counters return different colours. *)
Theorem generateSequentialColor_injective (reg1 reg2 : registry) :
  0 <= next_color_id reg1 < 16777216 ->
  0 <= next_color_id reg2 < 16777216 ->
  next_color_id (generateSequentialColor reg1).2 = next_color_id reg1 + 1 /\
  ((generateSequentialColor reg1).1 = (generateSequentialColor reg2).1 ->
   next_color_id reg1 = next_color_id reg2).
Proof.
  intros H1 H2. split; [reflexivity|].
  unfold generateSequentialColor. cbv zeta. cbn [fst].
  change (js_and (next_color_id reg1) 255, js_and (js_shr (next_color_id reg1) 8) 255,
          js_and (js_shr (next_color_id reg1) 16) 255)
    with (sequential_color (next_color_id reg1)).
  change (js_and (next_color_id reg2) 255, js_and (js_shr (next_color_id reg2) 8) 255,
          js_and (js_shr (next_color_id reg2) 16) 255)
    with (sequential_color (next_color_id reg2)).
  rewrite !sequential_channels by assumption.
  set (a := next_color_id reg1) in *. set (b := next_color_id reg2) in *.
  intros [= E1 E2 E3].
  pose proof (Z.div_mod a 256 ltac:(lia)).
  pose proof (Z.div_mod b 256 ltac:(lia)).
  pose proof (Z.div_mod (a / 256) 256 ltac:(lia)).
  pose proof (Z.div_mod (b / 256) 256 ltac:(lia)).
  rewrite !Z.div_div in * by lia. change (256 * 256) with 65536 in *.
  assert (a / 65536 < 256) by (apply Z.div_lt_upper_bound; lia).
  assert (b / 65536 < 256) by (apply Z.div_lt_upper_bound; lia).
  assert (0 <= a / 65536) by (apply Z.div_pos; lia).
  assert (0 <= b / 65536) by (apply Z.div_pos; lia).
  rewrite (Z.mod_small (a / 65536)) in E3 by lia.
  rewrite (Z.mod_small (b / 65536)) in E3 by lia.
  lia.
Qed.

Lemma generateSequentialColor_injective_witness :
  next_color_id (generateSequentialColor empty_registry).2 = next_color_id empty_registry + 1 /\
  ((generateSequentialColor empty_registry).1
   = (generateSequentialColor (generateSequentialColor empty_registry).2).1 ->
   next_color_id empty_registry = next_color_id (generateSequentialColor empty_registry).2).
Proof.
  apply (generateSequentialColor_injective
           empty_registry (generateSequentialColor empty_registry).2); cbn; lia.
Defined.


Lemma retry_loop_free reg object_id n a c a' c' :
  retry_loop reg object_id n a c = (a', c') ->
  a' < a + Z.of_nat n ->
  has_color reg c' = false /\ isBackgroundColor c' = false.
Proof.
  revert a c. induction n as [|n IH]; intros a c H Hlt; cbn [retry_loop] in H.
  - injection H as <- <-. lia.
  - destruct (has_color reg c || isBackgroundColor c) eqn:Hbad.
    + apply IH in H; [assumption|lia].
    + injection H as <- <-. apply orb_false_iff in Hbad. assumption.
Qed.

Lemma retry_loop_bounds reg object_id n a c :
  a <= (retry_loop reg object_id n a c).1 <= a + Z.of_nat n.
Proof.
  revert a c. induction n as [|n IH]; intros a c; cbn [retry_loop].
  - cbn. lia.
  - destruct (has_color reg c || isBackgroundColor c).
    + specialize (IH (a + 1) (generateUniqueColor object_id (a + 1))). lia.
    + cbn. lia.
Qed.

(** The three ways a call of [getObjectColor] goes: the id is known; the
    id is new and the retry loop finds a colour that is free and no
    background; the id is new and the fallback is taken. *)
Lemma getObjectColor_cases reg object_id c reg' :
  getObjectColor reg object_id = (c, reg') ->
  (id_color_map reg !! object_id = Some c /\ reg' = reg) \/
  (id_color_map reg !! object_id = None /\
   has_color reg c = false /\ isBackgroundColor c = false /\
   reg' = mkRegistry (<[c := object_id]> (object_color_map reg))
                     (<[object_id := c]> (id_color_map reg)) (next_color_id reg)) \/
  (id_color_map reg !! object_id = None /\
   next_color_id reg' = next_color_id reg + 1).
Proof.
  unfold getObjectColor. destruct (id_color_map reg !! object_id) as [c0|] eqn:Hl.
  - intros [= <- <-]. left. split; reflexivity.
  - destruct (retry_loop _ _ _ _ _) as [n c1] eqn:Hr.
    destruct (Z.of_nat max_attempts <=? n) eqn:Hn.
    + unfold generateSequentialColor. cbn. intros [= <- <-]. right. right.
      split; reflexivity.
    + intros [= <- <-]. right. left.
      apply Z.leb_gt in Hn.
      destruct (retry_loop_free _ _ _ _ _ _ _ Hr) as [Hf Hb]; [lia|].
      repeat split; assumption.
Qed.

Lemma getObjectColor_counter reg object_id :
  next_color_id reg <= next_color_id (getObjectColor reg object_id).2.
Proof.
  destruct (getObjectColor reg object_id) as [c reg'] eqn:E. cbn [snd].
  apply getObjectColor_cases in E as [[_ ->]|[(_ & _ & _ & ->)|(_ & ->)]]; cbn; lia.
Qed.

Lemma has_color_false reg c : has_color reg c = false -> object_color_map reg !! c = None.
Proof.
  unfold has_color. intros H. apply bool_decide_eq_false in H.
  destruct (object_color_map reg !! c); [|reflexivity].
  exfalso. apply H. eexists. reflexivity.
Qed.

Lemma getObjectColor_keeps reg object_id c reg' :
  getObjectColor reg object_id = (c, reg') ->
  next_color_id reg' = next_color_id reg ->
  consistent reg -> no_background reg ->
  consistent reg' /\ no_background reg'.
Proof.
  intros E Hn Hc Hb.
  apply getObjectColor_cases in E as [[_ ->]|[(Hnew & Hfree & Hnb & ->)|(_ & Hs)]];
    [split; assumption| |lia].
  apply has_color_false in Hfree. split.
  - intros i c'. cbn. destruct (decide (i = object_id)) as [->|Hne].
    + rewrite lookup_insert_eq. intros [= <-]. apply lookup_insert_eq.
    + rewrite lookup_insert_ne by congruence. intros Hi.
      rewrite lookup_insert_ne; [apply Hc, Hi|].
      intros <-. apply Hc in Hi. congruence.
  - intros i c'. cbn. destruct (decide (i = object_id)) as [->|Hne].
    + rewrite lookup_insert_eq. intros [= <-]. assumption.
    + rewrite lookup_insert_ne by congruence. apply Hb.
Qed.

Lemma assign_colors_counter reg ids :
  next_color_id reg <= next_color_id (assign_colors reg ids).2.
Proof.
  revert reg. induction ids as [|i ids IH]; intros reg; cbn [assign_colors]; [cbn; lia|].
  pose proof (getObjectColor_counter reg i) as H1.
  destruct (getObjectColor reg i) as [c reg1]. cbn [snd] in H1.
  specialize (IH reg1). destruct (assign_colors reg1 ids) as [cs reg2]. cbn [snd] in *. lia.
Qed.

(** A run of calls: the registry only grows, and each call returns the
    colour the final registry holds for its id. *)
Lemma assign_colors_extends reg ids cs reg' :
  assign_colors reg ids = (cs, reg') ->
  extends reg reg' /\
  Forall2 (fun object_id c => id_color_map reg' !! object_id = Some c) ids cs.
Proof.
  revert reg cs reg'. induction ids as [|i ids IH]; intros reg cs reg' H; cbn [assign_colors] in H.
  - injection H as <- <-. split; [apply extends_refl | constructor].
  - destruct (getObjectColor reg i) as [c reg1] eqn:E1.
    destruct (assign_colors reg1 ids) as [cs1 reg2] eqn:E2.
    injection H as <- <-.
    apply getObjectColor_extends in E1 as [Hx1 Hc1].
    apply IH in E2 as [Hx2 Hall].
    split; [eapply extends_trans; eassumption|].
    constructor; [apply Hx2, Hc1 | assumption].
Qed.

Lemma assign_colors_keeps reg ids cs reg' :
  assign_colors reg ids = (cs, reg') ->
  next_color_id reg' = next_color_id reg ->
  consistent reg -> no_background reg ->
  consistent reg' /\ no_background reg'.
Proof.
  revert reg cs reg'. induction ids as [|i ids IH]; intros reg cs reg' H Hn Hc Hb;
    cbn [assign_colors] in H.
  - injection H as <- <-. split; assumption.
  - destruct (getObjectColor reg i) as [c reg1] eqn:E1.
    destruct (assign_colors reg1 ids) as [cs1 reg2] eqn:E2.
    injection H as <- <-.
    pose proof (getObjectColor_counter reg i) as M1. rewrite E1 in M1. cbn [snd] in M1.
    pose proof (assign_colors_counter reg1 ids) as M2. rewrite E2 in M2. cbn [snd] in M2.
    destruct (getObjectColor_keeps _ _ _ _ E1 ltac:(lia) Hc Hb) as [Hc1 Hb1].
    apply (IH _ _ _ E2 ltac:(lia) Hc1 Hb1).
Qed.

(** X18.  As long as the fallback has never been taken (the counter is still at
    its initial value), the colours handed out are sound: the two maps
    agree, no colour is a background sentinel, and two requests get the
    same colour exactly when they are for the same id. *)
Theorem colors_distinct_without_fallback (ids : list string) (cs : list color)
    (reg : registry) :
  assign_colors empty_registry ids = (cs, reg) ->
  next_color_id reg = 1 ->
  consistent reg /\
  Forall (fun c => isBackgroundColor c = false) cs /\
  forall i j a b ca cb,
    ids !! i = Some a -> ids !! j = Some b ->
    cs !! i = Some ca -> cs !! j = Some cb ->
    (a = b <-> ca = cb).
Proof.
  intros H Hn.
  assert (Hc0 : consistent empty_registry) by (intros i c; cbn; rewrite lookup_empty; discriminate).
  assert (Hb0 : no_background empty_registry)
    by (intros i c; cbn; rewrite lookup_empty; discriminate).
  destruct (assign_colors_keeps _ _ _ _ H Hn Hc0 Hb0) as [Hc Hb].
  destruct (assign_colors_extends _ _ _ _ H) as [_ Hall].
  split; [assumption|]. split.
  - apply Forall_forall. intros c Hin.
    apply list_elem_of_lookup in Hin as [k Hk].
    destruct (Forall2_lookup_r _ _ _ _ _ Hall Hk) as (i & _ & Hi).
    eapply Hb, Hi.
  - intros i j a b ca cb Ha Hb' Hca Hcb.
    pose proof (Forall2_lookup_lr _ _ _ _ _ _ Hall Ha Hca) as Ea.
    pose proof (Forall2_lookup_lr _ _ _ _ _ _ Hall Hb' Hcb) as Eb.
    cbn in Ea, Eb. split.
    + intros ->. congruence.
    + intros ->. apply Hc in Ea, Eb. congruence.
Qed.

Lemma colors_distinct_without_fallback_witness :
  consistent (assign_colors empty_registry sample_ids).2 /\
  Forall (fun c => isBackgroundColor c = false) (assign_colors empty_registry sample_ids).1 /\
  forall i j a b ca cb,
    sample_ids !! i = Some a -> sample_ids !! j = Some b ->
    (assign_colors empty_registry sample_ids).1 !! i = Some ca ->
    (assign_colors empty_registry sample_ids).1 !! j = Some cb ->
    (a = b <-> ca = cb).
Proof.
  apply (colors_distinct_without_fallback sample_ids).
  - apply surjective_pairing.
  - vm_compute. reflexivity.
Defined.

(** X19.  An object keeps its picking colour: once [getObjectColor] has returned
    a colour for an id, any run of later calls, for whatever ids, leaves
    the registry returning that colour for it, without touching the
    registry. *)
Theorem picking_color_is_stable (reg reg1 reg2 : registry) (object_id : string)
    (c : color) (ids : list string) (cs : list color) :
  getObjectColor reg object_id = (c, reg1) ->
  assign_colors reg1 ids = (cs, reg2) ->
  getObjectColor reg2 object_id = (c, reg2).
Proof.
  intros H1 H2.
  apply getObjectColor_extends in H1 as [_ Hc].
  apply assign_colors_extends in H2 as [Hx _].
  apply getObjectColor_memo, Hx, Hc.
Qed.

Lemma picking_color_is_stable_witness :
  getObjectColor (assign_colors (getObjectColor empty_registry "obj_a").2 sample_ids).2 "obj_a"
  = ((getObjectColor empty_registry "obj_a").1,
     (assign_colors (getObjectColor empty_registry "obj_a").2 sample_ids).2).
Proof.
  apply (picking_color_is_stable empty_registry (getObjectColor empty_registry "obj_a").2
           _ "obj_a" _ sample_ids (assign_colors (getObjectColor empty_registry "obj_a").2 sample_ids).1);
    apply surjective_pairing.
Defined.

End RegistryFacts.

Module PaintOrderFacts.
Import Scene Color Picking.
Local Open Scope Z_scope.

Lemma insert_by_z_perm o l : insert_by_z o l ≡ₚ o :: l.
Proof.
  induction l as [|o' l IH]; cbn [insert_by_z]; [reflexivity|].
  destruct (obj_z_index o' <? obj_z_index o); [|reflexivity].
  rewrite IH. apply Permutation_swap.
Qed.

Lemma insert_by_z_sorted o l :
  StronglySorted (fun a b => obj_z_index a <= obj_z_index b) l ->
  StronglySorted (fun a b => obj_z_index a <= obj_z_index b) (insert_by_z o l).
Proof.
  induction 1 as [|o' l Hs IH Hall]; cbn [insert_by_z].
  - repeat constructor.
  - destruct (obj_z_index o' <? obj_z_index o) eqn:E.
    + apply Z.ltb_lt in E. constructor; [assumption|].
      rewrite insert_by_z_perm. constructor; [lia | assumption].
    + apply Z.ltb_ge in E. constructor; [constructor; assumption|].
      constructor; [assumption|].
      eapply Forall_impl; [exact Hall|]. cbn. intros x Hx. lia.
Qed.

Lemma insert_by_z_filter o l z :
  filter (fun o' => obj_z_index o' = z) (insert_by_z o l)
  = filter (fun o' => obj_z_index o' = z) (o :: l).
Proof.
  induction l as [|o' l IH]; cbn [insert_by_z]; [reflexivity|].
  destruct (obj_z_index o' <? obj_z_index o) eqn:E; [|reflexivity].
  apply Z.ltb_lt in E.
  rewrite filter_cons, IH, !filter_cons.
  destruct (decide (obj_z_index o' = z)); destruct (decide (obj_z_index o = z));
    try reflexivity.
  lia.
Qed.

(** X15.  The order [redraw] and [renderPickingCanvas] paint in: every object
    once, by ascending [z_index], and objects with the same [z_index] in
    the order of the object list. *)
Theorem sort_by_z_is_stable_sort (objs : list plot_object) :
  sort_by_z objs ≡ₚ objs /\
  StronglySorted (fun a b => obj_z_index a <= obj_z_index b) (sort_by_z objs) /\
  forall z, filter (fun o => obj_z_index o = z) (sort_by_z objs)
            = filter (fun o => obj_z_index o = z) objs.
Proof.
  induction objs as [|o objs (IHp & IHs & IHf)]; cbn [sort_by_z].
  - repeat split; constructor.
  - split; [|split].
    + rewrite insert_by_z_perm, IHp. reflexivity.
    + apply insert_by_z_sorted, IHs.
    + intros z. rewrite insert_by_z_filter, !filter_cons, IHf. reflexivity.
Qed.

End PaintOrderFacts.

Module OcclusionFacts.
Import Transform Scene Color Picking HitBox PickingSamples PickingFacts PaintOrderFacts.
Local Open Scope Z_scope.

#[local] Instance object_type_eq_dec : EqDecision object_type.
Proof. solve_decision. Defined.

(** *** The paint order *)

Lemma sort_by_z_perm objs : sort_by_z objs ≡ₚ objs.
Proof.
  induction objs as [|o objs IH]; cbn [sort_by_z]; [reflexivity|].
  rewrite insert_by_z_perm, IH. reflexivity.
Qed.

Lemma sort_by_z_sorted objs :
  StronglySorted (fun a b => obj_z_index a <= obj_z_index b) (sort_by_z objs).
Proof.
  induction objs as [|o objs IH]; cbn [sort_by_z]; [constructor|].
  apply insert_by_z_sorted, IH.
Qed.

(** Where [insert_by_z] puts an object in a sorted list: everything behind
    it has a [z_index] that is not lower. *)
Lemma insert_by_z_behind b l :
  StronglySorted (fun a b => obj_z_index a <= obj_z_index b) l ->
  exists l1 l2, insert_by_z b l = l1 ++ b :: l2 /\
                Forall (fun o => o ∈ l /\ obj_z_index b <= obj_z_index o) l2.
Proof.
  induction 1 as [|o' l Hs IH Hall]; cbn [insert_by_z].
  - exists [], []. split; [reflexivity | constructor].
  - destruct (Z.ltb_spec (obj_z_index o') (obj_z_index b)) as [Hlt|Hge].
    + destruct IH as (l1 & l2 & -> & Hl2).
      exists (o' :: l1), l2. split; [reflexivity|].
      eapply Forall_impl; [exact Hl2|]. cbn. intros o [Hin Hz].
      split; [apply elem_of_cons; right; assumption | assumption].
    + exists [], (o' :: l). split; [reflexivity|].
      constructor.
      * split; [apply elem_of_cons; left; reflexivity | assumption].
      * rewrite Forall_forall in Hall. apply Forall_forall. intros o Hin.
        split; [apply elem_of_cons; right; assumption|].
        specialize (Hall o Hin). lia.
Qed.

(** Inserting another object leaves what lies behind [b] as it is, or adds
    the object to it, and then the object has the higher [z_index]. *)
Lemma insert_by_z_keeps (P : plot_object -> Prop) x b l1 l2 :
  Forall P l2 -> (obj_z_index b < obj_z_index x -> P x) ->
  exists l1' l2', insert_by_z x (l1 ++ b :: l2) = l1' ++ b :: l2' /\ Forall P l2'.
Proof.
  intros Hl2 Hx. induction l1 as [|o' l1 IH]; cbn [insert_by_z app].
  - destruct (Z.ltb_spec (obj_z_index b) (obj_z_index x)) as [Hlt|Hge].
    + exists [], (insert_by_z x l2). split; [reflexivity|].
      rewrite insert_by_z_perm. constructor; [apply Hx; assumption | assumption].
    + exists [x], l2. split; [reflexivity | assumption].
  - destruct (Z.ltb_spec (obj_z_index o') (obj_z_index x)) as [Hlt|Hge].
    + destruct IH as (l1' & l2' & -> & H'). exists (o' :: l1'), l2'.
      split; [reflexivity | assumption].
    + exists (x :: o' :: l1), l2. split; [reflexivity | assumption].
Qed.

(** The objects painted after the object at position [j]: each is at
    another position of the list, and is not painted before it. *)
Lemma sort_by_z_split objs j b :
  objs !! j = Some b ->
  exists l1 l2, sort_by_z objs = l1 ++ b :: l2 /\
    Forall (fun o => exists k, objs !! k = Some o /\ k <> j /\ ~ painted_before o k b j) l2.
Proof.
  revert j. induction objs as [|x objs IH]; intros j Hj; [destruct j; discriminate|].
  cbn [sort_by_z]. destruct j as [|j]; cbn in Hj.
  - injection Hj as ->.
    destruct (insert_by_z_behind b (sort_by_z objs) (sort_by_z_sorted objs))
      as (l1 & l2 & -> & Hl2).
    exists l1, l2. split; [reflexivity|].
    eapply Forall_impl; [exact Hl2|]. cbn. intros o [Hin Hz].
    rewrite sort_by_z_perm in Hin. apply list_elem_of_lookup in Hin as [k Hk].
    exists (S k). split; [exact Hk|]. split; [lia|].
    unfold painted_before. lia.
  - destruct (IH j Hj) as (l1 & l2 & -> & Hl2).
    apply insert_by_z_keeps.
    + eapply Forall_impl; [exact Hl2|]. cbn. intros o (k & Hk & Hne & Hnb).
      exists (S k). split; [exact Hk|]. split; [lia|].
      unfold painted_before in *. lia.
    + intros Hlt. exists 0%nat. split; [reflexivity|]. split; [lia|].
      unfold painted_before. lia.
Qed.

(** *** The raster at one pixel *)

Section Rasteriser.
Variable bbox_region : plot_object -> option (Z * Z -> coverage).
Variable shape_region : plot_object -> option (Z * Z -> coverage).

Local Abbreviation bbox_hit := (bbox_hit bbox_region).
Local Abbreviation shape_hit := (shape_hit shape_region).
Local Abbreviation bbox_draws := (bbox_draws bbox_region).
Local Abbreviation shape_draws := (shape_draws shape_region).

Lemma drawPickingBBox_at o c rs rs' p :
  drawPickingBBox bbox_region o c rs = Some rs' ->
  rs' p = touch (bbox_hit o p) c (rs p).
Proof.
  unfold drawPickingBBox, Picking.bbox_hit.
  destruct (obj_type o); destruct (bbox_region o);
    intros H; try discriminate; injection H as <-; reflexivity.
Qed.

Lemma drawPickingObject_at o c rs rs' p :
  obj_type o <> TArea ->
  drawPickingObject shape_region o c rs = Some rs' ->
  rs' p = touch (shape_hit o p) c (rs p).
Proof.
  unfold drawPickingObject, Picking.shape_hit.
  destruct (obj_type o); destruct (shape_region o);
    intros Ht H; try discriminate; try congruence; injection H as <-; reflexivity.
Qed.

Lemma shape_hit_area o p : obj_type o = TArea -> shape_hit o p = Outside.
Proof. unfold Picking.shape_hit. intros ->. reflexivity. Qed.

(** What the passes leave at a pixel, with the colours of a registry that
    extends the one they leave. *)
Lemma first_pass_spec objs reg rs reg' rs' :
  first_pass bbox_region objs reg rs = Some (reg', rs') ->
  extends reg reg' /\
  Forall (fun o => is_Some (id_color_map reg' !! obj_id o)) objs /\
  forall regF p, extends reg' regF ->
    rs' p = fold_left (fun cell o => touch (bbox_hit o p) (col_of regF (obj_id o)) cell)
                      objs (rs p).
Proof.
  revert reg rs. induction objs as [|o objs IH]; intros reg rs H; cbn in H.
  - injection H as <- <-. split; [apply extends_refl|]. split; [constructor | reflexivity].
  - destruct (getObjectColor reg (obj_id o)) as [c reg1] eqn:Hc.
    apply getObjectColor_extends in Hc as [He Hl].
    destruct (drawPickingBBox bbox_region o c rs) as [rs1|] eqn:Hd; [|discriminate].
    apply IH in H as (He' & Hall & Hrs).
    split; [eapply extends_trans; eassumption|].
    split; [constructor; [eexists; apply He', Hl | assumption]|].
    intros regF p HF. rewrite (Hrs regF p HF). cbn [fold_left].
    rewrite (drawPickingBBox_at _ _ _ _ p Hd).
    assert (Hcol : col_of regF (obj_id o) = c).
    { unfold col_of. rewrite (HF _ _ (He' _ _ Hl)). reflexivity. }
    rewrite Hcol. reflexivity.
Qed.

Lemma second_pass_spec objs reg rs reg' rs' :
  second_pass shape_region objs reg rs = Some (reg', rs') ->
  extends reg reg' /\
  forall regF p, extends reg' regF ->
    rs' p = fold_left (fun cell o => touch (shape_hit o p) (col_of regF (obj_id o)) cell)
                      objs (rs p).
Proof.
  revert reg rs. induction objs as [|o objs IH]; intros reg rs H; cbn [second_pass] in H.
  - injection H as <- <-. split; [apply extends_refl | reflexivity].
  - destruct (decide (obj_type o = TArea)) as [Ht|Ht].
    + rewrite Ht in H. apply IH in H as (He & Hrs). split; [assumption|].
      intros regF p HF. rewrite (Hrs regF p HF). cbn [fold_left].
      rewrite (shape_hit_area o p Ht). reflexivity.
    + assert (H' : (let '(c, reg1) := getObjectColor reg (obj_id o) in
                    match drawPickingObject shape_region o c rs with
                    | Some rs1 => second_pass shape_region objs reg1 rs1
                    | None => None
                    end) = Some (reg', rs')).
      { destruct (obj_type o); try congruence; exact H. }
      clear H. destruct (getObjectColor reg (obj_id o)) as [c reg1] eqn:Hc.
      apply getObjectColor_extends in Hc as [He Hl].
      destruct (drawPickingObject shape_region o c rs) as [rs1|] eqn:Hd; [|discriminate].
      apply IH in H' as (He' & Hrs).
      split; [eapply extends_trans; eassumption|].
      intros regF p HF. rewrite (Hrs regF p HF). cbn [fold_left].
      rewrite (drawPickingObject_at _ _ _ _ p Ht Hd).
      assert (Hcol : col_of regF (obj_id o) = c).
      { unfold col_of. rewrite (HF _ _ (He' _ _ Hl)). reflexivity. }
      rewrite Hcol. reflexivity.
Qed.

(** A pass that does not touch the pixel leaves it as it is, and the last
    object to touch it decides it. *)
Lemma fold_touch_outside (hit : plot_object -> coverage) col l cell :
  Forall (fun o => hit o = Outside) l ->
  fold_left (fun cell o => touch (hit o) (col o) cell) l cell = cell.
Proof.
  revert cell. induction l as [|o l IH]; intros cell H; [reflexivity|].
  inversion H as [|? ? Ho Hl]; subst. cbn [fold_left]. rewrite Ho. cbn [touch].
  apply IH. assumption.
Qed.

Lemma fold_touch_last (hit : plot_object -> coverage) col l1 b l2 cell :
  hit b = Full -> Forall (fun o => hit o = Outside) l2 ->
  fold_left (fun cell o => touch (hit o) (col o) cell) (l1 ++ b :: l2) cell = Some (col b).
Proof.
  intros Hb Hl2. rewrite fold_left_app. cbn [fold_left]. rewrite Hb. cbn [touch].
  apply fold_touch_outside. assumption.
Qed.

(** Both passes return exactly when every drawing call does. *)
Lemma first_pass_returns objs reg rs :
  Forall bbox_draws objs -> is_Some (first_pass bbox_region objs reg rs).
Proof.
  revert reg rs. induction objs as [|o objs IH]; intros reg rs H; [eexists; reflexivity|].
  inversion H as [|? ? Ho Hl]; subst. cbn [first_pass].
  destruct (getObjectColor reg (obj_id o)) as [c reg1].
  assert (Hd : is_Some (drawPickingBBox bbox_region o c rs)).
  { unfold drawPickingBBox. unfold Picking.bbox_draws in Ho. destruct Ho as [->|[region ->]]; [eexists; reflexivity|].
    destruct (obj_type o); eexists; reflexivity. }
  destruct Hd as [rs1 ->]. apply IH. assumption.
Qed.

Lemma second_pass_returns objs reg rs :
  Forall shape_draws objs -> is_Some (second_pass shape_region objs reg rs).
Proof.
  revert reg rs. induction objs as [|o objs IH]; intros reg rs H; [eexists; reflexivity|].
  inversion H as [|? ? Ho Hl]; subst. cbn [second_pass].
  destruct (decide (obj_type o = TArea)) as [Ht|Ht].
  - rewrite Ht. apply IH. assumption.
  - destruct Ho as [Ho|[region Hr]]; [contradiction|].
    assert (Hgoal : is_Some (let '(c, reg1) := getObjectColor reg (obj_id o) in
                             match drawPickingObject shape_region o c rs with
                             | Some rs1 => second_pass shape_region objs reg1 rs1
                             | None => None
                             end)).
    { destruct (getObjectColor reg (obj_id o)) as [c reg1].
      unfold drawPickingObject. rewrite Hr. apply IH. assumption. }
    destruct (obj_type o); try congruence; exact Hgoal.
Qed.

Lemma first_pass_draws objs reg rs r :
  first_pass bbox_region objs reg rs = Some r -> Forall bbox_draws objs.
Proof.
  revert reg rs. induction objs as [|o objs IH]; intros reg rs H; [constructor|].
  cbn [first_pass] in H. destruct (getObjectColor reg (obj_id o)) as [c reg1].
  destruct (drawPickingBBox bbox_region o c rs) as [rs1|] eqn:Hd; [|discriminate].
  constructor; [|eapply IH; eassumption].
  unfold drawPickingBBox in Hd. unfold Picking.bbox_draws.
  destruct (obj_type o); try (left; reflexivity);
    destruct (bbox_region o); try discriminate; right; eexists; reflexivity.
Qed.

Lemma second_pass_draws objs reg rs r :
  second_pass shape_region objs reg rs = Some r -> Forall shape_draws objs.
Proof.
  revert reg rs. induction objs as [|o objs IH]; intros reg rs H; [constructor|].
  cbn [second_pass] in H.
  destruct (decide (obj_type o = TArea)) as [Ht|Ht].
  - rewrite Ht in H. constructor; [left; assumption | eapply IH; eassumption].
  - assert (H' : (let '(c, reg1) := getObjectColor reg (obj_id o) in
                  match drawPickingObject shape_region o c rs with
                  | Some rs1 => second_pass shape_region objs reg1 rs1
                  | None => None
                  end) = Some r).
    { destruct (obj_type o); try congruence; exact H. }
    clear H. destruct (getObjectColor reg (obj_id o)) as [c reg1].
    destruct (drawPickingObject shape_region o c rs) as [rs1|] eqn:Hd; [|discriminate].
    constructor; [|eapply IH; eassumption].
    unfold drawPickingObject in Hd. right.
    destruct (shape_region o); [eexists; reflexivity | discriminate].
Qed.

(** A rebuild with a registry that knows every id leaves the registry as
    it is. *)
Lemma first_pass_memo objs reg rs reg' rs' :
  Forall (fun o => is_Some (id_color_map reg !! obj_id o)) objs ->
  first_pass bbox_region objs reg rs = Some (reg', rs') -> reg' = reg.
Proof.
  revert rs. induction objs as [|o objs IH]; intros rs H E; cbn [first_pass] in E.
  - congruence.
  - inversion H as [|? ? [c Hc] H']; subst.
    rewrite (getObjectColor_memo _ _ _ Hc) in E.
    destruct (drawPickingBBox bbox_region o c rs) as [rs1|]; [|discriminate].
    eapply IH; eassumption.
Qed.

Lemma second_pass_memo objs reg rs reg' rs' :
  Forall (fun o => is_Some (id_color_map reg !! obj_id o)) objs ->
  second_pass shape_region objs reg rs = Some (reg', rs') -> reg' = reg.
Proof.
  revert rs. induction objs as [|o objs IH]; intros rs H E; cbn [second_pass] in E.
  - congruence.
  - inversion H as [|? ? [c Hc] H']; subst.
    rewrite (getObjectColor_memo _ _ _ Hc) in E.
    destruct (obj_type o);
      try (destruct (drawPickingObject shape_region o c rs) as [rs1|]; [|discriminate]);
      eapply IH; eassumption.
Qed.

(** The raster that [renderPickingCanvas] leaves, at a pixel: the two
    passes painted with the colours of the registry it leaves, which holds
    a colour for every object. *)
Lemma renderPickingCanvas_spec reg objs reg' rs' :
  renderPickingCanvas bbox_region shape_region reg objs = Some (reg', rs') ->
  Forall (fun o => is_Some (id_color_map reg' !! obj_id o)) objs /\
  Forall bbox_draws objs /\ Forall shape_draws objs /\
  forall p,
    rs' p = fold_left (fun cell o => touch (shape_hit o p) (col_of reg' (obj_id o)) cell)
              (sort_by_z objs)
              (fold_left (fun cell o => touch (bbox_hit o p) (col_of reg' (obj_id o)) cell)
                 (sort_by_z objs) (Some (0, 0, 0))).
Proof.
  unfold renderPickingCanvas.
  destruct (first_pass _ _ _ _) as [[reg1 rs1]|] eqn:H1; [|discriminate]. intros H2.
  pose proof (first_pass_draws _ _ _ _ H1) as D1.
  pose proof (second_pass_draws _ _ _ _ H2) as D2.
  apply first_pass_spec in H1 as (E1 & A1 & R1).
  apply second_pass_spec in H2 as (E2 & R2).
  split.
  { rewrite <- (sort_by_z_perm objs). eapply Forall_impl; [exact A1|].
    cbn. intros o [c Hc]. exists c. apply E2, Hc. }
  split; [rewrite <- (sort_by_z_perm objs); assumption|].
  split; [rewrite <- (sort_by_z_perm objs); assumption|].
  intros p. rewrite (R2 reg' p (extends_refl _)), (R1 reg' p E2). reflexivity.
Qed.

Lemma renderPickingCanvas_returns reg objs :
  Forall bbox_draws objs -> Forall shape_draws objs ->
  is_Some (renderPickingCanvas bbox_region shape_region reg objs).
Proof.
  intros D1 D2. unfold renderPickingCanvas.
  rewrite <- (sort_by_z_perm objs) in D1, D2.
  destruct (first_pass_returns _ reg clearRect D1) as [[reg1 rs1] ->].
  apply second_pass_returns. assumption.
Qed.

Lemma renderPickingCanvas_memo reg objs reg' rs' :
  Forall (fun o => is_Some (id_color_map reg !! obj_id o)) objs ->
  renderPickingCanvas bbox_region shape_region reg objs = Some (reg', rs') -> reg' = reg.
Proof.
  intros H. rewrite <- (sort_by_z_perm objs) in H. unfold renderPickingCanvas.
  destruct (first_pass _ _ _ _) as [[reg1 rs1]|] eqn:H1; [|discriminate]. intros H2.
  apply first_pass_memo in H1; [|assumption]. subst reg1.
  apply second_pass_memo in H2; assumption.
Qed.

(** The pixel holds the colour of the object at position [j] when its shape
    covers the pixel and every other shape that touches the pixel is
    painted before it ... *)
Lemma render_shape_on_top objs j b p reg reg1 rs1 :
  objs !! j = Some b ->
  renderPickingCanvas bbox_region shape_region reg objs = Some (reg1, rs1) ->
  shape_hit b p = Full ->
  (forall k o, objs !! k = Some o -> k <> j ->
     shape_hit o p = Outside \/ painted_before o k b j) ->
  rs1 p = Some (col_of reg1 (obj_id b)).
Proof.
  intros Hj Hr Hb Hothers.
  apply renderPickingCanvas_spec in Hr as (_ & _ & _ & Hrs). rewrite Hrs.
  destruct (sort_by_z_split objs j b Hj) as (l1 & l2 & -> & Hl2).
  apply (fold_touch_last (fun o => shape_hit o p) (fun o => col_of reg1 (obj_id o)));
    [assumption|].
  eapply Forall_impl; [exact Hl2|]. cbn. intros o (k & Hk & Hne & Hnb).
  destruct (Hothers k o Hk Hne); [assumption | contradiction].
Qed.

(** ... or when no shape touches the pixel, its hit region covers it and
    every other hit region that touches the pixel is painted before it. *)
Lemma render_bbox_on_top objs j b p reg reg1 rs1 :
  objs !! j = Some b ->
  renderPickingCanvas bbox_region shape_region reg objs = Some (reg1, rs1) ->
  (forall k o, objs !! k = Some o -> shape_hit o p = Outside) ->
  bbox_hit b p = Full ->
  (forall k o, objs !! k = Some o -> k <> j ->
     bbox_hit o p = Outside \/ painted_before o k b j) ->
  rs1 p = Some (col_of reg1 (obj_id b)).
Proof.
  intros Hj Hr Hshapes Hb Hothers.
  apply renderPickingCanvas_spec in Hr as (_ & _ & _ & Hrs). rewrite Hrs.
  rewrite fold_touch_outside.
  2:{ apply Forall_forall. intros o Hin. rewrite sort_by_z_perm in Hin.
      apply list_elem_of_lookup in Hin as [k Hk]. eapply Hshapes; eassumption. }
  destruct (sort_by_z_split objs j b Hj) as (l1 & l2 & -> & Hl2).
  apply (fold_touch_last (fun o => bbox_hit o p) (fun o => col_of reg1 (obj_id o)));
    [assumption|].
  eapply Forall_impl; [exact Hl2|]. cbn. intros o (k & Hk & Hne & Hnb).
  destruct (Hothers k o Hk Hne); [assumption | contradiction].
Qed.

Lemma query_registered reg img (rs : raster) p o :
  registered reg o -> obj_id o <> EmptyString ->
  rs p = Some (col_of reg (obj_id o)) -> reads img rs ->
  getObjectIdFromPicking reg img p = Some (obj_id o).
Proof.
  intros (c & Hc & Hm & Hbg) Hne Hrs Hreads. unfold getObjectIdFromPicking. cbv zeta.
  rewrite (Hreads _ _ Hrs). unfold col_of. rewrite Hc. cbn [from_option]. unfold Datatypes.id.
  rewrite Hbg, Hm.
  rewrite bool_decide_eq_false_2 by assumption. reflexivity.
Qed.

Lemma lookup_swap (objs : list plot_object) i j a' b' k o :
  i <> j -> (i < length objs)%nat -> (j < length objs)%nat ->
  (<[i := a']> (<[j := b']> objs)) !! k = Some o ->
  (k = i /\ o = a') \/ (k = j /\ o = b') \/ (k <> i /\ k <> j /\ objs !! k = Some o).
Proof.
  intros Hne Hi Hj H.
  destruct (decide (k = i)) as [->|Hki].
  - rewrite list_lookup_insert_eq in H by (rewrite length_insert; assumption).
    left. split; congruence.
  - rewrite list_lookup_insert_ne in H by congruence.
    destruct (decide (k = j)) as [->|Hkj].
    + rewrite list_lookup_insert_eq in H by assumption. right. left. split; congruence.
    + rewrite list_lookup_insert_ne in H by congruence. right. right. auto.
Qed.

(** The drawing code never reads [z_index]. *)
Hypothesis bbox_ignores_z : forall o z, bbox_region (with_z_index o z) = bbox_region o.
Hypothesis shape_ignores_z : forall o z, shape_region (with_z_index o z) = shape_region o.

Lemma hits_ignore_z o z p :
  bbox_hit (with_z_index o z) p = bbox_hit o p /\
  shape_hit (with_z_index o z) p = shape_hit o p.
Proof.
  unfold Picking.bbox_hit, Picking.shape_hit.
  rewrite bbox_ignores_z, shape_ignores_z. split; reflexivity.
Qed.

Lemma draws_ignore_z o z :
  (bbox_draws o -> bbox_draws (with_z_index o z)) /\
  (shape_draws o -> shape_draws (with_z_index o z)).
Proof.
  unfold Picking.bbox_draws, Picking.shape_draws.
  rewrite bbox_ignores_z, shape_ignores_z. split; intros H; exact H.
Qed.

(** C9 (as amended).  Two objects [a] and [b] of a scene, at the positions
    [i] and [j] of the object list, whose picking colours the registry
    resolves, and a pixel that no other object of the scene touches.
    - Within a pass the paint order decides: when the two meet at the pixel
      in the same pass (both shapes cover the pixel, or neither shape
      touches it and both hit regions cover it) and [a] is painted before
      [b] (it has the lower [z_index], or the same and the earlier
      position), the query after a rebuild returns the id of [b].
    - When [z_index a < z_index b], swapping the two [z_index] values and
      rebuilding makes the same query return the id of [a]; the rebuild
      returns.
    - The second pass lies over the first: when the shape of [a] covers the
      pixel and the shape of [b] does not touch it, the query returns the
      id of [a], whatever the [z_index] values and the hit region of [b].
    A pixel is covered when it lies in the path as a whole; of a pixel that
    the last path to touch it covers in part, nothing is said. *)
Theorem picking_resolves_occlusion (objs : list plot_object) (i j : nat)
    (a b : plot_object) (p : Z * Z) (reg reg1 : registry) (rs1 : raster) :
  objs !! i = Some a -> objs !! j = Some b -> i <> j ->
  (forall k o, objs !! k = Some o -> k <> i -> k <> j ->
     untouched bbox_region shape_region o p) ->
  obj_id a <> EmptyString -> obj_id b <> EmptyString ->
  renderPickingCanvas bbox_region shape_region reg objs = Some (reg1, rs1) ->
  registered reg1 a -> registered reg1 b ->
  (same_layer bbox_region shape_region a b p -> painted_before a i b j ->
   forall img, reads img rs1 -> getObjectIdFromPicking reg1 img p = Some (obj_id b)) /\
  (same_layer bbox_region shape_region a b p -> obj_z_index a < obj_z_index b ->
   let objs' := <[i := with_z_index a (obj_z_index b)]>
                  (<[j := with_z_index b (obj_z_index a)]> objs) in
   exists reg2 rs2,
     renderPickingCanvas bbox_region shape_region reg1 objs' = Some (reg2, rs2) /\
     forall img, reads img rs2 -> getObjectIdFromPicking reg2 img p = Some (obj_id a)) /\
  (shape_hit a p = Full -> shape_hit b p = Outside ->
   forall img, reads img rs1 -> getObjectIdFromPicking reg1 img p = Some (obj_id a)).
Proof.
  intros Hi Hj Hne Hoth Ha Hb Hr Hra Hrb.
  assert (Hcases : forall k o, objs !! k = Some o ->
            (k = i /\ o = a) \/ (k = j /\ o = b) \/
            (k <> i /\ k <> j /\ untouched bbox_region shape_region o p)).
  { intros k o Hk. destruct (decide (k = i)) as [->|Hki]; [left; split; congruence|].
    destruct (decide (k = j)) as [->|Hkj]; [right; left; split; congruence|].
    right. right. split; [assumption|]. split; [assumption|]. eapply Hoth; eassumption. }
  split; [|split].
  - intros Hlayer Hbefore img Hreads.
    apply (query_registered reg1 img rs1); [assumption | assumption | | assumption].
    destruct Hlayer as [[Hsa Hsb]|(Hsa & Hsb & Hba & Hbb)].
    + apply (render_shape_on_top objs j b p reg reg1 rs1 Hj Hr Hsb).
      intros k o Hk Hkj.
      destruct (Hcases k o Hk) as [[-> ->]|[[-> _]|(_ & _ & _ & Hu)]];
        [right; assumption | contradiction | left; assumption].
    + apply (render_bbox_on_top objs j b p reg reg1 rs1 Hj Hr); [|assumption|].
      * intros k o Hk.
        destruct (Hcases k o Hk) as [[-> ->]|[[-> ->]|(_ & _ & _ & Hu)]]; assumption.
      * intros k o Hk Hkj.
        destruct (Hcases k o Hk) as [[-> ->]|[[-> _]|(_ & _ & Hu & _)]];
          [right; assumption | contradiction | left; assumption].
  - intros Hlayer Hz objs'.
    set (a' := with_z_index a (obj_z_index b)) in *.
    set (b' := with_z_index b (obj_z_index a)) in *.
    pose proof (lookup_lt_Some _ _ _ Hi) as Hil.
    pose proof (lookup_lt_Some _ _ _ Hj) as Hjl.
    destruct (renderPickingCanvas_spec _ _ _ _ Hr) as (Hknown & Hd1 & Hd2 & _).
    rewrite Forall_lookup in Hknown, Hd1, Hd2.
    assert (Hswap : forall k o, objs' !! k = Some o ->
              exists o0, objs !! k = Some o0 /\ obj_id o = obj_id o0 /\
                         (bbox_draws o0 -> bbox_draws o) /\ (shape_draws o0 -> shape_draws o)).
    { intros k o Hk.
      destruct (lookup_swap objs i j a' b' k o Hne Hil Hjl Hk)
        as [[-> ->]|[[-> ->]|(_ & _ & Hk')]].
      - exists a. split; [assumption|]. split; [reflexivity|]. apply draws_ignore_z.
      - exists b. split; [assumption|]. split; [reflexivity|]. apply draws_ignore_z.
      - exists o. auto. }
    assert (Hknown' : Forall (fun o => is_Some (id_color_map reg1 !! obj_id o)) objs').
    { apply Forall_lookup. intros k o Hk. destruct (Hswap k o Hk) as (o0 & Hk0 & -> & _).
      apply (Hknown k o0 Hk0). }
    assert (Hd1' : Forall bbox_draws objs').
    { apply Forall_lookup. intros k o Hk. destruct (Hswap k o Hk) as (o0 & Hk0 & _ & H1 & _).
      apply H1, (Hd1 k o0 Hk0). }
    assert (Hd2' : Forall shape_draws objs').
    { apply Forall_lookup. intros k o Hk. destruct (Hswap k o Hk) as (o0 & Hk0 & _ & _ & H2).
      apply H2, (Hd2 k o0 Hk0). }
    destruct (renderPickingCanvas_returns reg1 objs' Hd1' Hd2') as [[reg2 rs2] Hr2].
    exists reg2, rs2. split; [assumption|].
    pose proof (renderPickingCanvas_memo _ _ _ _ Hknown' Hr2) as ->.
    assert (Hi' : objs' !! i = Some a').
    { unfold objs'. apply list_lookup_insert_eq. rewrite length_insert. assumption. }
    destruct (hits_ignore_z a (obj_z_index b) p) as [Hba' Hsa'].
    destruct (hits_ignore_z b (obj_z_index a) p) as [Hbb' Hsb'].
    fold a' in Hba', Hsa'. fold b' in Hbb', Hsb'.
    assert (Hbefore : painted_before b' j a' i) by (left; cbn; assumption).
    assert (Hcases' : forall k o, objs' !! k = Some o ->
              (k = i /\ o = a') \/ (k = j /\ o = b') \/
              (k <> i /\ k <> j /\ untouched bbox_region shape_region o p)).
    { intros k o Hk.
      destruct (lookup_swap objs i j a' b' k o Hne Hil Hjl Hk)
        as [?|[?|(Hki & Hkj & Hk')]]; [left; assumption | right; left; assumption|].
      right. right. split; [assumption|]. split; [assumption|]. eapply Hoth; eassumption. }
    intros img Hreads.
    change (obj_id a) with (obj_id a').
    apply (query_registered reg1 img rs2); [exact Hra | exact Ha | | assumption].
    destruct Hlayer as [[Hsa Hsb]|(Hsa & Hsb & Hba & Hbb)].
    + apply (render_shape_on_top objs' i a' p reg1 reg1 rs2 Hi' Hr2); [congruence|].
      intros k o Hk Hki.
      destruct (Hcases' k o Hk) as [[-> _]|[[-> ->]|(_ & _ & _ & Hu)]];
        [contradiction | right; assumption | left; assumption].
    + apply (render_bbox_on_top objs' i a' p reg1 reg1 rs2 Hi' Hr2); [|congruence|].
      * intros k o Hk.
        destruct (Hcases' k o Hk) as [[-> ->]|[[-> ->]|(_ & _ & _ & Hu)]];
          [congruence | congruence | assumption].
      * intros k o Hk Hki.
        destruct (Hcases' k o Hk) as [[-> _]|[[-> ->]|(_ & _ & Hu & _)]];
          [contradiction | right; assumption | left; assumption].
  - intros Hsa Hsb img Hreads.
    apply (query_registered reg1 img rs1); [assumption | assumption | | assumption].
    apply (render_shape_on_top objs i a p reg reg1 rs1 Hi Hr Hsa).
    intros k o Hk Hki.
    destruct (Hcases k o Hk) as [[-> _]|[[-> ->]|(_ & _ & _ & Hu)]];
      [contradiction | left; assumption | left; assumption].
Qed.

End Rasteriser.

(** The registry a rebuild leaves is the one that the calls of
    [getObjectColor] of the first pass leave. *)
Lemma first_pass_registry bbox_region objs reg rs reg' rs' :
  first_pass bbox_region objs reg rs = Some (reg', rs') ->
  reg' = (assign_colors reg (obj_id <$> objs)).2.
Proof.
  revert reg rs. induction objs as [|o objs IH]; intros reg rs H; cbn in H |- *.
  - congruence.
  - destruct (getObjectColor reg (obj_id o)) as [c reg1].
    destruct (drawPickingBBox bbox_region o c rs) as [rs1|]; [|discriminate].
    apply IH in H. destruct (assign_colors reg1 (obj_id <$> objs)) as [cs reg2].
    exact H.
Qed.

Lemma renderPickingCanvas_registry bbox_region shape_region reg objs reg1 rs1 :
  renderPickingCanvas bbox_region shape_region reg objs = Some (reg1, rs1) ->
  reg1 = (assign_colors reg (obj_id <$> sort_by_z objs)).2.
Proof.
  unfold renderPickingCanvas.
  destruct (first_pass _ _ _ _) as [[reg' rs']|] eqn:H1; [|discriminate]. intros H2.
  pose proof (first_pass_registry _ _ _ _ _ _ H1) as <-.
  apply first_pass_spec in H1 as (_ & Hknown & _).
  apply (second_pass_memo _ _ _ _ _ _ Hknown H2).
Qed.

(** *** Two points at the origin, and a point under an area *)

Local Open Scope R_scope.

Lemma default_view_plotToCanvas x y :
  plotToCanvas default_view (mkXY x y) = mkXY (400 + 24 * x) (300 - 24 * y).
Proof.
  unfold plotToCanvas, plotToCanvas_layout, default_view.
  cbn [plot_bounds aspect_ratio canvas_padding plot_width plot_height
       x_min x_max y_min y_max px py].
  destruct (Rlt_dec _ _) as [H|_]; [exfalso; lra|].
  cbn [effective_width effective_height x_offset y_offset]. f_equal; field.
Qed.

Lemma disc_centre_pixel radius :
  2 <= radius * radius -> disc (mkXY 400 300) radius centre_pixel = Full.
Proof.
  intros H. unfold disc, far, centre_pixel. cbn [fst snd px py].
  replace (IZR 400 - 400) with 0 by lra. replace (IZR 400 + 1 - 400) with 1 by lra.
  replace (IZR 300 - 300) with 0 by lra. replace (IZR 300 + 1 - 300) with 1 by lra.
  rewrite Rabs_R0, Rabs_R1, Rmax_right by lra.
  destruct (Rle_dec _ _) as [_|Hn]; [reflexivity | exfalso; lra].
Qed.

(** A point of size 5 at the origin: both of its discs cover the pixel. *)
Lemma point_at_origin_hits o :
  obj_type o = TPoint -> obj_x o = 0 -> obj_y o = 0 -> obj_size o = 5 ->
  sample_bbox default_view o = Some (disc (mkXY 400 300) 8) /\
  sample_shape default_view o = Some (disc (mkXY 400 300) 5) /\
  bbox_hit (sample_bbox default_view) o centre_pixel = Full /\
  shape_hit (sample_shape default_view) o centre_pixel = Full.
Proof.
  intros Ht Hx Hy Hs.
  assert (Hb : sample_bbox default_view o = Some (disc (mkXY 400 300) 8)).
  { unfold sample_bbox, arc_fill. rewrite Ht, Hx, Hy, Hs, default_view_plotToCanvas.
    destruct (Rle_dec _ _) as [_|Hn]; [|exfalso; lra].
    do 2 f_equal; [f_equal; lra | lra]. }
  assert (Hsh : sample_shape default_view o = Some (disc (mkXY 400 300) 5)).
  { unfold sample_shape, arc_fill. rewrite Ht, Hx, Hy, Hs, default_view_plotToCanvas.
    rewrite Rmax_left by lra.
    destruct (Rle_dec _ _) as [_|Hn]; [|exfalso; lra].
    do 2 f_equal; f_equal; lra. }
  split; [assumption|]. split; [assumption|].
  unfold bbox_hit, shape_hit. rewrite Ht, Hb, Hsh.
  split; apply disc_centre_pixel; lra.
Qed.

Lemma area_q_hits :
  bbox_hit (sample_bbox default_view) area_q centre_pixel = Full /\
  shape_hit (sample_shape default_view) area_q centre_pixel = Outside.
Proof.
  split; [|reflexivity].
  unfold bbox_hit, sample_bbox, area_q, drawPickingAreaBBox, rectangle, centre_pixel.
  cbn [obj_type obj_x1 obj_y1 obj_x2 obj_y2 fst snd].
  rewrite !default_view_plotToCanvas.
  cbn [px py rc_x rc_y rc_width rc_height].
  rewrite (Rmin_left (400 + 24 * -1)) by lra.
  rewrite (Rmin_right (300 - 24 * -1)) by lra.
  rewrite (Rabs_right (400 + 24 * 1 - (400 + 24 * -1))) by lra.
  rewrite (Rabs_left (300 - 24 * 1 - (300 - 24 * -1))) by lra.
  repeat (destruct (Rle_dec _ _) as [_|Hn]; [|exfalso; lra]).
  reflexivity.
Qed.

Lemma sample_ignores_z v o z :
  sample_bbox v (with_z_index o z) = sample_bbox v o /\
  sample_shape v (with_z_index o z) = sample_shape v o.
Proof. split; reflexivity. Qed.

Local Open Scope Z_scope.

Lemma picking_resolves_occlusion_witness :
  obj_z_index point_p < obj_z_index point_r /\
  exists reg1 rs1,
    renderPickingCanvas (sample_bbox default_view) (sample_shape default_view)
                        empty_registry [point_p; point_r] = Some (reg1, rs1) /\
    (forall img, reads img rs1 ->
       getObjectIdFromPicking reg1 img centre_pixel = Some "r"%string) /\
    exists reg2 rs2,
      renderPickingCanvas (sample_bbox default_view) (sample_shape default_view) reg1
                          [with_z_index point_p 1; with_z_index point_r 0]
      = Some (reg2, rs2) /\
      forall img, reads img rs2 ->
        getObjectIdFromPicking reg2 img centre_pixel = Some "p"%string.
Proof.
  split; [cbn; lia|].
  destruct (point_at_origin_hits point_p eq_refl eq_refl eq_refl eq_refl)
    as (Hbp & Hsp & Hbhp & Hshp).
  destruct (point_at_origin_hits point_r eq_refl eq_refl eq_refl eq_refl)
    as (Hbr & Hsr & Hbhr & Hshr).
  destruct (renderPickingCanvas_returns (sample_bbox default_view) (sample_shape default_view)
              empty_registry [point_p; point_r]) as [[reg1 rs1] Hr].
  { constructor; [right; rewrite Hbp; eexists; reflexivity|].
    constructor; [right; rewrite Hbr; eexists; reflexivity | constructor]. }
  { constructor; [right; rewrite Hsp; eexists; reflexivity|].
    constructor; [right; rewrite Hsr; eexists; reflexivity | constructor]. }
  pose proof (renderPickingCanvas_registry _ _ _ _ _ _ Hr) as Hreg.
  assert (Hrp : registered reg1 point_p).
  { rewrite Hreg. eexists. split; [vm_compute; reflexivity|]. split; vm_compute; reflexivity. }
  assert (Hrr : registered reg1 point_r).
  { rewrite Hreg. eexists. split; [vm_compute; reflexivity|]. split; vm_compute; reflexivity. }
  exists reg1, rs1. split; [exact Hr|].
  destruct (picking_resolves_occlusion
              (sample_bbox default_view) (sample_shape default_view)
              (fun o z => proj1 (sample_ignores_z default_view o z))
              (fun o z => proj2 (sample_ignores_z default_view o z))
              [point_p; point_r] 0%nat 1%nat point_p point_r centre_pixel
              empty_registry reg1 rs1 eq_refl eq_refl ltac:(discriminate)
              ltac:(intros [|[|k]] o Hk; [congruence | congruence | discriminate])
              ltac:(discriminate) ltac:(discriminate) Hr Hrp Hrr) as (H1 & H2 & _).
  assert (Hlayer : same_layer (sample_bbox default_view) (sample_shape default_view)
                              point_p point_r centre_pixel) by (left; split; assumption).
  split.
  - apply H1; [exact Hlayer | left; cbn; lia].
  - apply (H2 Hlayer). cbn. lia.
Defined.

(** C9 (as stated) fails when the upper object is an area: the point has
    the lower [z_index], both objects cover the pixel, and the query after a
    rebuild returns the point.  The second pass paints the point's shape
    over the area's rectangle, which only the first pass paints. *)
Lemma area_above_point_picks_point :
  obj_z_index point_p < obj_z_index area_q /\
  bbox_hit (sample_bbox default_view) point_p centre_pixel = Full /\
  shape_hit (sample_shape default_view) point_p centre_pixel = Full /\
  bbox_hit (sample_bbox default_view) area_q centre_pixel = Full /\
  exists reg1 rs1,
    renderPickingCanvas (sample_bbox default_view) (sample_shape default_view)
                        empty_registry [point_p; area_q] = Some (reg1, rs1) /\
    registered reg1 point_p /\ registered reg1 area_q /\
    forall img, reads img rs1 ->
      getObjectIdFromPicking reg1 img centre_pixel = Some (obj_id point_p) /\
      getObjectIdFromPicking reg1 img centre_pixel <> Some (obj_id area_q).
Proof.
  destruct (point_at_origin_hits point_p eq_refl eq_refl eq_refl eq_refl)
    as (Hbp & Hsp & Hbhp & Hshp).
  destruct area_q_hits as [Hbq Hsq].
  split; [cbn; lia|]. split; [assumption|]. split; [assumption|]. split; [assumption|].
  destruct (renderPickingCanvas_returns (sample_bbox default_view) (sample_shape default_view)
              empty_registry [point_p; area_q]) as [[reg1 rs1] Hr].
  { constructor; [right; rewrite Hbp; eexists; reflexivity|].
    constructor; [right; eexists; reflexivity | constructor]. }
  { constructor; [right; rewrite Hsp; eexists; reflexivity|].
    constructor; [left; reflexivity | constructor]. }
  pose proof (renderPickingCanvas_registry _ _ _ _ _ _ Hr) as Hreg.
  assert (Hrp : registered reg1 point_p).
  { rewrite Hreg. eexists. split; [vm_compute; reflexivity|]. split; vm_compute; reflexivity. }
  assert (Hrq : registered reg1 area_q).
  { rewrite Hreg. eexists. split; [vm_compute; reflexivity|]. split; vm_compute; reflexivity. }
  exists reg1, rs1. split; [exact Hr|]. split; [exact Hrp|]. split; [exact Hrq|].
  intros img Hreads.
  assert (Hq : getObjectIdFromPicking reg1 img centre_pixel = Some (obj_id point_p)).
  { apply (query_registered reg1 img rs1); [assumption | discriminate | | assumption].
    apply (render_shape_on_top _ _ [point_p; area_q] 0%nat point_p centre_pixel
             empty_registry reg1 rs1 eq_refl Hr Hshp).
    intros [|[|k]] o Hk Hne; [contradiction | | discriminate].
    injection Hk as <-. left. exact Hsq. }
  split; [exact Hq|]. rewrite Hq. discriminate.
Qed.

End OcclusionFacts.

Module EntryFacts.
Import Transform Color Scene Commands Picking Brace Entry CommandFacts.
Local Open Scope Z_scope.

Lemma editor_eta ed :
  ed = mkEditor (eheap ed) (plot_objects ed) (selected_object ed) (command_history ed)
                (current_command_index ed) (max_history_size ed) (dragging ed).
Proof. destruct ed; reflexivity. Qed.

(** After [executeCommand] the cursor is on the command, the last of the
    history. *)
Lemma executeCommand_cursor c ed ed1 :
  cursor_in_range ed -> 0 < max_history_size ed ->
  executeCommand c ed = Some ed1 ->
  0 <= current_command_index ed1 /\
  current_command_index ed1 = Z.of_nat (length (command_history ed1)) - 1 /\
  index (command_history ed1) (current_command_index ed1) = Some c.
Proof.
  unfold cursor_in_range. intros Hc Hcap H.
  apply executeCommand_inv in H as (ed' & He & ->).
  apply execute_keeps_history in He as (Hh & Hi & Hm & _).
  cbn in Hh, Hi, Hm. rewrite slice0_take in Hh by lia.
  assert (Hlen : Z.of_nat (length (command_history ed')) = current_command_index ed + 1).
  { rewrite Hh, length_take. lia. }
  destruct (push_history_spec c ed') as [Hevict Hkeep]. cbn zeta in *.
  destruct (Z.lt_ge_cases (max_history_size ed')
              (Z.of_nat (length (command_history ed' ++ [c])))) as [Hlt|Hge].
  - destruct (Hevict Hlt) as [E1 E2]. rewrite E1, E2, Hi.
    rewrite length_app in Hlt. cbn [length] in Hlt.
    rewrite length_tail_snoc.
    split; [lia|]. split; [lia|].
    rewrite index_nonneg by lia. rewrite tail_drop, lookup_drop.
    rewrite lookup_app_r by lia.
    replace (1 + Z.to_nat (current_command_index ed) - length (command_history ed'))%nat
      with 0%nat by lia. reflexivity.
  - destruct (Hkeep Hge) as [E1 E2]. rewrite E1, E2, Hi.
    rewrite length_app. cbn [length].
    split; [lia|]. split; [lia|].
    rewrite index_nonneg by lia.
    rewrite lookup_app_r by lia.
    replace (Z.to_nat (current_command_index ed + 1) - length (command_history ed'))%nat
      with 0%nat by lia. reflexivity.
Qed.


Lemma run_add_shape call new_id ed o :
  created call new_id = Some o ->
  obj_id o = new_id /\
  run_add call new_id ed
  = executeCommand (AddObjectCommand (length (eheap ed))) (set_heap (eheap ed ++ [o]) ed).
Proof.
  destruct call as [c|s e|s e|c [[|a t]|]|s [e|]|w]; cbn [created run_add];
    intros H; try discriminate; injection H as <-; split; reflexivity.
Qed.

Lemma splice_remove_last {A} (l : list A) (a : A) :
  splice_remove (l ++ [a]) (Z.of_nat (length l)) = l.
Proof.
  unfold splice_remove.
  rewrite splice_start_in_range by (rewrite length_app; cbn; lia).
  rewrite take_app_length.
  rewrite drop_ge by (rewrite length_app; cbn; lia).
  apply app_nil_r.
Qed.

(** The index that undoing the addition of a fresh object looks up. *)
Lemma findIndex_fresh h o l :
  obj_id o ∉ omap (fun r => obj_id <$> h !! r) l ->
  (forall r, r ∈ l -> is_Some (h !! r)) ->
  findIndex (same_id (h ++ [o]) (length h)) (l ++ [length h]) = Z.of_nat (length l).
Proof.
  intros Hfresh Hvalid.
  assert (Hid : id_of (h ++ [o]) (length h) = Some (obj_id o)).
  { unfold id_of. rewrite lookup_app_r by lia. rewrite Nat.sub_diag. reflexivity. }
  apply (findIndex_found _ _ (length l) (length h)).
  - rewrite lookup_app_r by lia. rewrite Nat.sub_diag. reflexivity.
  - unfold same_id. apply bool_decide_eq_true. reflexivity.
  - rewrite take_app_length. apply Forall_forall. intros r Hr.
    unfold same_id. apply bool_decide_eq_false. rewrite Hid.
    destruct (Hvalid r Hr) as [o' Ho'].
    unfold id_of. rewrite lookup_app_l by (eapply lookup_lt_Some; eassumption).
    rewrite Ho'. cbn. intros [= E]. apply Hfresh.
    apply list_elem_of_omap. exists r. split; [assumption|].
    rewrite Ho'. cbn. congruence.
Qed.

Lemma fresh_id_omap new_id ed :
  fresh_id new_id ed ->
  new_id ∉ omap (fun r => obj_id <$> eheap ed !! r) (plot_objects ed).
Proof.
  unfold fresh_id. intros H Hin. apply H.
  apply list_elem_of_omap in Hin as (r & Hr & E).
  apply list_elem_of_fmap. exists r. split; [|assumption].
  unfold id_of. symmetry. exact E.
Qed.



Lemma three_points_cursor : cursor_in_range three_points.
Proof. unfold cursor_in_range. cbn. lia. Qed.

Lemma three_points_refs_valid : refs_valid three_points.
Proof.
  intros r Hr. cbn in Hr.
  repeat (apply elem_of_cons in Hr as [->|Hr]; [eexists; reflexivity|]).
  apply elem_of_nil in Hr. contradiction.
Qed.


(** *** Editing a property *)

Lemma get_set_property p v o : fits p v -> get_property p (set_property p v o) = v.
Proof. destruct p, v; cbn; intros H; try contradiction; reflexivity. Qed.

Lemma set_get_property p v o :
  fits p v -> set_property p (get_property p o) (set_property p v o) = o.
Proof.
  destruct o as [t i z x y x1 y1 x2 y2 sz w e m st].
  destruct p, v; cbn; intros H; try contradiction; try reflexivity;
    try (destruct w; reflexivity); try (destruct e; reflexivity).
Qed.

Lemma set_set_property p v o :
  fits p v -> set_property p v (set_property p (get_property p o) (set_property p v o))
              = set_property p v o.
Proof. intros H. rewrite set_get_property by assumption. reflexivity. Qed.

Section Renderer.
Variable renders : list plot_object -> list ref -> option ref -> bool.

(** X21.  [updateObjectProperty] on the selected object, with a value of the
    field's type.  A value equal to the current one changes nothing and
    leaves the history alone.  Another value is written to the field; when
    the redraw of the edited scene throws, the write stays and nothing is
    recorded; when it returns, one [ModifyObjectCommand] is recorded, and
    if the scene before the edit can be drawn, [undo()] gives back the
    store as it was and [redo()] the state after the edit. *)
Theorem updateObjectProperty_round_trip (p : property) (v : value) (ed : editor)
    (r : ref) (o : plot_object) :
  cursor_in_range ed -> 0 < max_history_size ed ->
  selected_object ed = Some r -> eheap ed !! r = Some o -> fits p v ->
  let edited := <[r := set_property p v o]> (eheap ed) in
  (get_property p o = v -> updateObjectProperty renders p v ed = Some (Returns ed)) /\
  (get_property p o <> v -> renders edited (plot_objects ed) (Some r) = false ->
   exists ed1,
     updateObjectProperty renders p v ed = Some (Throws ed1) /\
     eheap ed1 = edited /\
     command_history ed1
     = take (Z.to_nat (current_command_index ed + 1)) (command_history ed) /\
     current_command_index ed1 = current_command_index ed) /\
  (get_property p o <> v -> renders edited (plot_objects ed) (Some r) = true ->
   exists ed1,
     updateObjectProperty renders p v ed = Some (Returns ed1) /\
     eheap ed1 = edited /\
     get_property p (set_property p v o) = v /\
     plot_objects ed1 = plot_objects ed /\
     index (command_history ed1) (current_command_index ed1)
     = Some (ModifyObjectCommand r p (get_property p o) v) /\
     (renders (eheap ed) (plot_objects ed) (Some r) = true ->
      exists ed2,
        undo_redraw renders ed1 = Some (Returns ed2) /\ eheap ed2 = eheap ed /\
        redo_redraw renders ed2 = Some (Returns ed1))).
Proof.
  intros Hcur Hcap Hsel Hlk Hfit edited.
  unfold updateObjectProperty. rewrite Hsel, Hlk.
  destruct (value_eq_dec (get_property p o) v) as [Heq|Hne].
  { split; [reflexivity|]. split; intros H; contradiction. }
  split; [intros H; contradiction|].
  set (c := ModifyObjectCommand r p (get_property p o) v).
  set (ed' := set_heap edited (truncate_history ed)).
  assert (Ex : execute c (truncate_history ed) = Some ed').
  { cbn [execute c]. unfold update_object.
    cbn [eheap truncate_history set_history]. rewrite Hlk. reflexivity. }
  assert (Er : execute_redraw renders c (truncate_history ed) = Some (redraw renders ed')).
  { unfold execute_redraw. cbn [c]. fold c. rewrite Ex. reflexivity. }
  split.
  - intros _ Hthrow. exists ed'.
    unfold executeCommand_redraw. rewrite Er. unfold redraw.
    cbn [ed' eheap plot_objects selected_object set_heap truncate_history set_history].
    rewrite Hsel, Hthrow. split; [reflexivity|]. split; [reflexivity|].
    split; [|reflexivity].
    unfold cursor_in_range in Hcur. apply slice0_take. lia.
  - intros _ Hdraw.
    assert (E : executeCommand c ed = Some (push_history c ed')).
    { unfold executeCommand. cbv zeta. rewrite Ex. reflexivity. }
    exists (push_history c ed'). split.
    { unfold executeCommand_redraw. rewrite Er. unfold redraw.
      cbn [ed' eheap plot_objects selected_object set_heap truncate_history set_history].
      rewrite Hsel, Hdraw. reflexivity. }
    destruct (push_history_scene c ed') as (Hh & Hl & Hs & Hm & Hd).
    set (ed1 := push_history c ed') in *.
    destruct (executeCommand_cursor c ed ed1 Hcur Hcap E) as (Hpos & Hlast & Hidx).
    cbn in Hh, Hl, Hs.
    split; [exact Hh|]. split; [apply get_set_property; assumption|]. split; [exact Hl|].
    split; [exact Hidx|].
    intros Hdraw0.
    assert (Hlk1 : eheap ed1 !! r = Some (set_property p v o)).
    { rewrite Hh. apply list_lookup_insert_eq. eapply lookup_lt_Some; eassumption. }
    assert (Hback : <[r := o]> (eheap ed1) = eheap ed).
    { rewrite Hh. unfold edited. rewrite list_insert_insert_eq.
      apply list_insert_id. assumption. }
    assert (Eu : undo_command c ed1 = Some (set_heap (eheap ed) ed1)).
    { cbn [undo_command c]. unfold update_object. rewrite Hlk1.
      cbn [mbind option_bind]. rewrite set_get_property by assumption.
      rewrite Hback. reflexivity. }
    set (edu := set_heap (eheap ed) ed1) in *.
    assert (Ru : redraw renders edu = Returns edu).
    { unfold redraw. cbn [edu eheap plot_objects selected_object set_heap].
      rewrite Hl, Hs, Hsel, Hdraw0. reflexivity. }
    exists (set_history (command_history edu) (current_command_index edu - 1) edu).
    split.
    { unfold undo_redraw. destruct (Z.leb_spec 0 (current_command_index ed1)); [|lia].
      rewrite Hidx.
      change (undo_command_redraw renders c ed1) with (redraw renders <$> undo_command c ed1).
      rewrite Eu. cbn [fmap option_fmap option_map]. rewrite Ru. reflexivity. }
    split; [reflexivity|].
    unfold redo_redraw.
    cbn [edu current_command_index command_history set_history set_heap].
    destruct (Z.ltb_spec (current_command_index ed1 - 1)
                (Z.of_nat (length (command_history ed1)) - 1)); [|lia].
    replace (current_command_index ed1 - 1 + 1) with (current_command_index ed1) by lia.
    rewrite Hidx.
    match goal with |- execute_redraw renders c ?e = _ =>
      change (execute_redraw renders c e) with (redraw renders <$> execute c e) end.
    cbn [execute c]. unfold update_object, edu.
    cbn [eheap set_history set_heap]. rewrite Hlk.
    cbn [mbind option_bind fmap option_fmap option_map].
    unfold redraw. cbn [eheap plot_objects selected_object set_heap set_history].
    fold edited. rewrite Hl, Hs, Hsel, Hdraw. do 2 f_equal.
    etransitivity; [|symmetry; apply editor_eta].
    unfold set_heap, set_history.
    cbn [eheap plot_objects selected_object command_history
         current_command_index max_history_size dragging].
    rewrite Hh, Hl, Hs, Hsel. reflexivity.
Qed.

End Renderer.

Lemma points_render_one (o : plot_object) :
  points_render [o] [0%nat] (Some 0%nat) = true <-> (0 <= obj_size o)%R.
Proof.
  unfold points_render. cbn. destruct (Rle_dec 0 (obj_size o)); cbn; split; intros H;
    try reflexivity; try assumption; try discriminate; contradiction.
Qed.

(** On one point of size 5 at the origin: moving it to [x = 7] is recorded
    and can be undone and redone; setting its size to [-5] throws and
    leaves the size written and the history empty. *)
Lemma updateObjectProperty_round_trip_witness :
  (exists ed1 ed2,
     updateObjectProperty points_render prop_x (VNum 7) one_point = Some (Returns ed1) /\
     undo_redraw points_render ed1 = Some (Returns ed2) /\ eheap ed2 = eheap one_point /\
     redo_redraw points_render ed2 = Some (Returns ed1)) /\
  (exists ed1,
     updateObjectProperty points_render prop_size (VNum (-5)) one_point
     = Some (Throws ed1) /\
     eheap ed1 = [set_property prop_size (VNum (-5)) (sample_object "p" 0 0)] /\
     command_history ed1 = []).
Proof.
  split.
  - assert (Hne : get_property prop_x (sample_object "p" 0 0) <> VNum 7).
    { cbn. intros [= H]. lra. }
    destruct (updateObjectProperty_round_trip points_render prop_x (VNum 7) one_point 0%nat
                (sample_object "p" 0 0)
                ltac:(unfold cursor_in_range; cbn; lia) ltac:(cbn; lia)
                eq_refl eq_refl I) as (_ & _ & H).
    destruct (H Hne) as (ed1 & H1 & _ & _ & _ & _ & H2).
    { apply points_render_one. cbn. lra. }
    destruct H2 as (ed2 & H3 & H4 & H5).
    { apply points_render_one. cbn. lra. }
    exists ed1, ed2. auto.
  - assert (Hne : get_property prop_size (sample_object "p" 0 0) <> VNum (-5)).
    { cbn. intros [= H]. lra. }
    destruct (updateObjectProperty_round_trip points_render prop_size (VNum (-5)) one_point
                0%nat (sample_object "p" 0 0)
                ltac:(unfold cursor_in_range; cbn; lia) ltac:(cbn; lia)
                eq_refl eq_refl I) as (_ & H & _).
    destruct (H Hne) as (ed1 & H1 & H2 & H3 & _).
    { change (points_render [set_property prop_size (VNum (-5)) (sample_object "p" 0 0)]
                [0%nat] (Some 0%nat) = false).
      destruct (points_render _ _ _) eqn:E; [|reflexivity].
      apply points_render_one in E. cbn in E. lra. }
    exists ed1. split; [exact H1|]. split; [exact H2|]. exact H3.
Defined.


(** *** A new command after an undo *)

(** X22.  After [undo()], a new command takes the place of the undone one: the
    history is cut at the undone command, the new command is its last entry
    with the cursor on it, and [redo()] does nothing. *)
Theorem new_command_discards_redo (c : command) (ed ed1 ed2 : editor) :
  cursor_in_range ed -> history_bounded ed -> 0 <= current_command_index ed ->
  undo ed = Some ed1 -> executeCommand c ed1 = Some ed2 ->
  command_history ed2
  = take (Z.to_nat (current_command_index ed)) (command_history ed) ++ [c] /\
  current_command_index ed2 = current_command_index ed /\
  redo ed2 = Some ed2.
Proof.
  unfold cursor_in_range, history_bounded. intros Hcur Hb Hpos Hu He.
  unfold undo in Hu. destruct (Z.leb_spec 0 (current_command_index ed)); [|lia].
  destruct (index _ _) as [c0|]; cbn in Hu; [|discriminate].
  destruct (undo_command c0 ed) as [ed'|] eqn:Hc0; cbn in Hu; [|discriminate].
  injection Hu as <-.
  apply undo_command_keeps_history in Hc0 as (Hh & Hi & Hm & _).
  apply executeCommand_inv in He as (ed3 & He & ->).
  apply execute_keeps_history in He as (Hh3 & Hi3 & Hm3 & _).
  cbn in Hh3, Hi3, Hm3. rewrite slice0_take in Hh3 by lia.
  rewrite Hh, Hi in Hh3. rewrite Hi in Hi3. rewrite Hm in Hm3.
  replace (current_command_index ed - 1 + 1) with (current_command_index ed) in Hh3 by lia.
  assert (Hlen : Z.of_nat (length (command_history ed3)) = current_command_index ed).
  { rewrite Hh3, length_take. lia. }
  destruct (push_history_spec c ed3) as [_ Hkeep]. cbn zeta in Hkeep.
  destruct Hkeep as [E1 E2].
  { rewrite length_app. cbn [length]. lia. }
  split; [rewrite E1, Hh3; reflexivity|]. split; [lia|].
  unfold redo. rewrite E1, E2, length_app. cbn [length].
  destruct (Z.ltb_spec (current_command_index ed3 + 1)
              (Z.of_nat (length (command_history ed3) + 1) - 1)); [lia|reflexivity].
Qed.

Lemma new_command_discards_redo_witness :
  exists ed1 ed2,
    undo two_commands = Some ed1 /\
    executeCommand (newClearPlotCommand ed1) ed1 = Some ed2 /\
    command_history ed2 = [AddObjectCommand 1%nat; newClearPlotCommand ed1] /\
    redo ed2 = Some ed2.
Proof.
  assert (Hu : undo two_commands = Some (default two_commands (undo two_commands)))
    by reflexivity.
  set (ed1 := default two_commands (undo two_commands)) in *.
  assert (He : executeCommand (newClearPlotCommand ed1) ed1
               = Some (default ed1 (executeCommand (newClearPlotCommand ed1) ed1)))
    by reflexivity.
  destruct (new_command_discards_redo _ two_commands ed1 _
              ltac:(unfold cursor_in_range; cbn; lia)
              ltac:(unfold history_bounded; cbn; lia)
              ltac:(cbn; lia) Hu He) as (Hh & _ & Hr).
  exists ed1. eexists. split; [exact Hu|]. split; [exact He|]. split; assumption.
Defined.

(** *** Dragging *)

Lemma updateDragging_all_app l1 l2 ed :
  updateDragging_all (l1 ++ l2) ed
  = (ed1 ← updateDragging_all l1 ed; updateDragging_all l2 ed1).
Proof.
  revert ed. induction l1 as [|[m p] l1 IH]; intros ed; [reflexivity|].
  cbn [app updateDragging_all].
  destruct (updateDragging m p ed) as [ed1|]; cbn [mbind option_bind]; [apply IH|reflexivity].
Qed.

(** What a pointer move leaves alone: the drag session and every object
    but the dragged one. *)
Lemma updateDragging_frame m p ed ed' r :
  dragged_object (dragging ed) = Some r ->
  updateDragging m p ed = Some ed' ->
  dragging ed' = dragging ed /\
  forall r', r' <> r -> eheap ed' !! r' = eheap ed !! r'.
Proof.
  intros Hr H. unfold updateDragging in H. rewrite Hr in H.
  destruct (is_dragging (dragging ed)).
  - destruct (drag_start_coords (dragging ed)); cbn in H; [|discriminate].
    destruct (original_coords (dragging ed)); cbn in H; [|discriminate].
    apply update_object_scene in H as (o & o' & _ & _ & ->). cbn. split; [reflexivity|].
    intros r' Hne. apply list_lookup_insert_ne. congruence.
  - injection H as <-. split; [reflexivity | intros; reflexivity].
Qed.

Lemma updateDragging_all_frame moves ed ed' r :
  dragged_object (dragging ed) = Some r ->
  updateDragging_all moves ed = Some ed' ->
  dragging ed' = dragging ed /\
  forall r', r' <> r -> eheap ed' !! r' = eheap ed !! r'.
Proof.
  revert ed. induction moves as [|[m p] moves IH]; intros ed Hr H.
  - injection H as <-. split; [reflexivity | intros; reflexivity].
  - cbn [updateDragging_all] in H.
    destruct (updateDragging m p ed) as [ed1|] eqn:E; cbn in H; [|discriminate].
    destruct (updateDragging_frame _ _ _ _ _ Hr E) as [Hd Ho].
    destruct (IH ed1 ltac:(rewrite Hd; exact Hr) H) as [Hd' Ho'].
    split; [congruence|]. intros r' Hne. rewrite Ho', Ho by assumption. reflexivity.
Qed.

Lemma same_but_coords_update c o o0 dx dy :
  same_but_coords o o0 ->
  updateObjectCoordinates c o dx dy = updateObjectCoordinates c o0 dx dy.
Proof.
  unfold same_but_coords, updateObjectCoordinates, setObjectCoordinates, getObjectCoordinates.
  destruct o as [[] ? ? ? ? ? ? ? ? ? ? ? ? ?], o0 as [[] ? ? ? ? ? ? ? ? ? ? ? ? ?];
    cbn; intros H; try discriminate; injection H as ?; subst;
    destruct c; reflexivity.
Qed.



(** X24.  [getObjectCoordinates] and [setObjectCoordinates] are inverse to each
    other: writing back the coordinates just read changes nothing, and
    reading after a write that succeeded returns what was written (a
    function has no coordinates). *)
Theorem coordinates_round_trip (o o' : plot_object) (c : coords) :
  setObjectCoordinates o (getObjectCoordinates o) = Some o /\
  (setObjectCoordinates o c = Some o' /\ obj_type o <> TFunction ->
   getObjectCoordinates o' = c /\ obj_type o' = obj_type o /\ obj_id o' = obj_id o).
Proof.
  split; [apply same_but_coords_refl|].
  unfold setObjectCoordinates, getObjectCoordinates.
  destruct o as [[] ? ? ? ? ? ? ? ? ? ? ? ? ?]; cbn; intros [H Hn];
    try contradiction; destruct c; try discriminate; injection H as <-; cbn; auto.
Qed.

(** *** Selecting *)

Lemma find_by_id_Some h object_id l r :
  find_by_id h object_id l = Some r -> r ∈ l /\ id_of h r = Some object_id.
Proof.
  unfold find_by_id. intros H. apply find_some in H as [Hin Hp].
  split; [apply list_elem_of_In, Hin | apply bool_decide_eq_true in Hp; exact Hp].
Qed.

Lemma find_by_id_None h object_id l :
  find_by_id h object_id l = None <-> Some object_id ∉ (id_of h <$> l).
Proof.
  unfold find_by_id. split.
  - intros H Hin. apply list_elem_of_fmap in Hin as (r & E & Hr).
    apply list_elem_of_In in Hr.
    pose proof (find_none _ _ H r Hr) as Hf. cbn in Hf.
    apply bool_decide_eq_false in Hf. congruence.
  - intros H. destruct (find _ l) as [r|] eqn:E; [|reflexivity].
    apply find_some in E as [Hin Hp]. exfalso. apply H.
    apply list_elem_of_fmap. exists r. apply bool_decide_eq_true in Hp.
    split; [congruence | apply list_elem_of_In, Hin].
Qed.

(** X25.  Selecting by id and selecting at a point leave the object list as it
    is and an object of the list selected, or nothing.  By id, it is an
    object with that id, and nothing exactly when no object has it; at a
    point, it is an object whose id is the one the picking raster resolves
    there. *)
Theorem selection_entry_points (device_pixel : xy -> Z * Z) (v : view) (reg : registry)
    (rs : Z * Z -> Z * Z * Z) (coords : xy) (object_id : string) (ed : editor) :
  let by_id := selectObjectById object_id ed in
  let at_point := selectObjectAt device_pixel v reg rs coords ed in
  selection_live by_id /\ selection_live at_point /\
  plot_objects by_id = plot_objects ed /\ plot_objects at_point = plot_objects ed /\
  (forall r, selected_object by_id = Some r -> id_of (eheap ed) r = Some object_id) /\
  (selected_object by_id = None <->
   Some object_id ∉ (id_of (eheap ed) <$> plot_objects ed)) /\
  (forall r, selected_object at_point = Some r ->
     getObjectIdFromPicking reg rs (device_pixel (plotToCanvas v coords))
     = id_of (eheap ed) r).
Proof.
  cbv zeta. unfold selectObjectById, selectObjectAt, getObjectAt, selectObject, selection_live.
  cbn [selected_object plot_objects set_selected].
  repeat split.
  - intros r H. apply find_by_id_Some in H. tauto.
  - intros r H. destruct (getObjectIdFromPicking _ _ _); [|discriminate].
    apply find_by_id_Some in H. tauto.
  - intros r H. apply find_by_id_Some in H. tauto.
  - apply find_by_id_None.
  - apply find_by_id_None.
  - intros r H. destruct (getObjectIdFromPicking _ _ _) as [i|]; [|discriminate].
    apply find_by_id_Some in H. symmetry. tauto.
Qed.

End EntryFacts.

Module BraceTipFacts.
Import Transform Scene Brace BraceFacts BraceTip.
Local Open Scope R_scope.

Lemma half_locals_radius S E mm b :
  20 <= half_length S E -> 0 <= elevation_or_width b ->
  let g := half_locals S E mm b in
  0 < h_innerR g <= half_length S E / 6 /\
  h_outerR g = h_innerR g * sqrt 2 /\
  h_segLen g = half_length S E / 2 - 2 * h_innerR g /\
  h_innerR g = h_innerR (half_locals E S (- mm) b).
Proof.
  intros Hlen Helev. cbv zeta. unfold half_locals.
  fold (half_length S E).
  replace (sqrt ((px S - px E) * (px S - px E) + (py S - py E) * (py S - py E)))
    with (half_length S E) by (unfold half_length; f_equal; ring).
  cbn [h_innerR h_outerR h_segLen].
  set (L := half_length S E) in *.
  set (innerR := if truthy (obj_elevation b) || truthy (obj_width b)
                 then Rmin (or_else (obj_elevation b) (or_else (obj_width b) 0)) (L / 6)
                 else L / 6).
  assert (Hr : 0 < innerR <= L / 6).
  { unfold innerR. destruct (truthy _ || truthy _) eqn:Ht; [|lra].
    apply truthy_or_else in Ht. unfold elevation_or_width in Helev.
    unfold Rmin. destruct (Rle_dec _ _); lra. }
  split; [assumption|]. split; [reflexivity|]. split; [|reflexivity].
  apply Rmax_right. lra.
Qed.

(** The inner arc of a half brace ends at the point [PM] of the
    construction. *)
Lemma half_brace_ends_at_PM S E mm b :
  mm = 1 \/ mm = -1 ->
  20 <= half_length S E -> 0 <= elevation_or_width b ->
  ends_at (draw45DegBraceHalf S E mm b) (h_PM (half_locals S E mm b)).
Proof.
  intros Hmm Hlen Helev.
  pose proof (half_length_sq S E) as Hsq.
  destruct (half_locals_radius S E mm b Hlen Helev) as (Hr & Hro & Hseg & _).
  unfold draw45DegBraceHalf. fold (half_length S E).
  destruct (Rlt_dec (half_length S E) 20) as [Hlt|_]; [lra|].
  cbv zeta. unfold ends_at. cbn [last]. unfold at_angle.
  set (g := half_locals S E mm b) in *.
  assert (HL : half_length S E <> 0) by lra.
  assert (Hdx : px (h_PM g) - px (h_C2 g) = h_alongX g * h_innerR g).
  { unfold g, half_locals in *. fold (half_length S E) in *.
    cbn [h_PM h_C2 h_alongX h_innerR h_segLen px py] in *. rewrite Hseg. field. assumption. }
  assert (Hdy : py (h_PM g) - py (h_C2 g) = h_alongY g * h_innerR g).
  { unfold g, half_locals in *. fold (half_length S E) in *.
    cbn [h_PM h_C2 h_alongY h_innerR h_segLen px py] in *. rewrite Hseg. field. assumption. }
  assert (Hunit : h_alongX g * h_alongX g + h_alongY g * h_alongY g = 1).
  { unfold g, half_locals. fold (half_length S E). cbn [h_alongX h_alongY].
    replace ((px E - px S) / half_length S E * ((px E - px S) / half_length S E)
             + (py E - py S) / half_length S E * ((py E - py S) / half_length S E))
      with (((px E - px S) * (px E - px S) + (py E - py S) * (py E - py S))
            / (half_length S E * half_length S E)) by (field; assumption).
    rewrite <- Hsq. field. assumption. }
  cbn [px py]. rewrite Hdx, Hdy.
  assert (Hsqr : h_alongX g * h_innerR g * (h_alongX g * h_innerR g)
                 + h_alongY g * h_innerR g * (h_alongY g * h_innerR g)
                 = h_innerR g * h_innerR g).
  { transitivity ((h_alongX g * h_alongX g + h_alongY g * h_alongY g)
                  * (h_innerR g * h_innerR g)); [ring | rewrite Hunit; ring]. }
  split; [lra|]. split; [exact Hsqr|].
  rewrite atan2_nonzero.
  - exists 1. cbn [dir_x dir_y]. split; [lra|]. split; ring.
  - rewrite Hsqr. apply Rmult_lt_0_compat; lra.
Qed.

(** X26.  The two halves of a 45deg brace meet: each ends, with its inner arc,
    at the tip of the brace, which lies at the distance [outerR] from the
    middle of the brace, square to it; the [mirrored] flag moves the tip to
    the other side. *)
Theorem brace_halves_meet_at_tip (S E : xy) (b : plot_object) :
  20 <= half_length S E -> 0 <= elevation_or_width b ->
  let mm := mirror_multiplier b in
  let outerR := h_outerR (half_locals S E (- mm) b) in
  ends_at (draw45DegBraceHalf S E (- mm) b) (brace_tip S E mm outerR) /\
  ends_at (draw45DegBraceHalf E S mm b) (brace_tip S E mm outerR).
Proof.
  intros Hlen Helev mm outerR.
  assert (Hmm : mm = 1 \/ mm = -1).
  { unfold mm, mirror_multiplier. destruct (obj_mirrored b); [right|left]; reflexivity. }
  assert (Hmm' : - mm = 1 \/ - mm = -1) by (destruct Hmm; [right|left]; lra).
  assert (Hlen' : 20 <= half_length E S) by (rewrite half_length_sym; assumption).
  assert (HL : half_length S E <> 0) by lra.
  destruct (half_locals_radius S E (- mm) b Hlen Helev) as (_ & Hro & _ & Hsame).
  destruct (half_locals_radius E S mm b Hlen' Helev) as (_ & Hro' & _ & _).
  assert (Hswap : sqrt ((px S - px E) * (px S - px E) + (py S - py E) * (py S - py E))
                  = half_length S E) by (unfold half_length; f_equal; ring).
  split.
  - replace (brace_tip S E mm outerR) with (h_PM (half_locals S E (- mm) b)).
    + apply half_brace_ends_at_PM; assumption.
    + unfold brace_tip, outerR, half_locals. fold (half_length S E).
      cbn [h_PM h_outerR px py]. f_equal; field; assumption.
  - replace (brace_tip S E mm outerR) with (h_PM (half_locals E S mm b)).
    + apply half_brace_ends_at_PM; assumption.
    + unfold brace_tip, outerR, half_locals. fold (half_length S E). rewrite Hswap.
      cbn [h_PM h_outerR px py]. f_equal; field; assumption.
Qed.


Lemma brace_halves_meet_at_tip_witness :
  ends_at (draw45DegBraceHalf (mkXY 0 0) (mkXY 60 0) (- mirror_multiplier (wide_brace 15))
             (wide_brace 15))
          (brace_tip (mkXY 0 0) (mkXY 60 0) (mirror_multiplier (wide_brace 15))
             (h_outerR (half_locals (mkXY 0 0) (mkXY 60 0)
                          (- mirror_multiplier (wide_brace 15)) (wide_brace 15)))) /\
  ends_at (draw45DegBraceHalf (mkXY 60 0) (mkXY 0 0) (mirror_multiplier (wide_brace 15))
             (wide_brace 15))
          (brace_tip (mkXY 0 0) (mkXY 60 0) (mirror_multiplier (wide_brace 15))
             (h_outerR (half_locals (mkXY 0 0) (mkXY 60 0)
                          (- mirror_multiplier (wide_brace 15)) (wide_brace 15)))).
Proof.
  apply (brace_halves_meet_at_tip (mkXY 0 0) (mkXY 60 0) (wide_brace 15)).
  - rewrite half_length_60. lra.
  - rewrite elevation_or_width_wide; lra.
Defined.

End BraceTipFacts.

Module SvgFacts.
Import Transform Scene Brace BraceFacts BraceTip BraceTipFacts Svg.
Local Open Scope R_scope.

Lemma sweepFlag_ccw a0 a1 : sweepFlag a0 a1 = negb (ccwForMinorArc a0 a1).
Proof. unfold sweepFlag, ccwForMinorArc. destruct (Rlt_dec _ _); reflexivity. Qed.

Lemma at_angle_atan2 c r p :
  0 < r ->
  (px p - px c) * (px p - px c) + (py p - py c) * (py p - py c) = r * r ->
  at_angle c r (atan2 (py p - py c) (px p - px c)) p.
Proof.
  intros Hr Hsq. unfold at_angle. split; [assumption|]. split; [assumption|].
  rewrite atan2_nonzero.
  - exists 1. cbn [dir_x dir_y]. split; [lra|]. split; ring.
  - rewrite Hsq. apply Rmult_lt_0_compat; assumption.
Qed.

Section HalfFrame.
(** The distances in the frame of the construction of a half brace. *)
Variables Sx Sy ax ay perpX perpY mm r ro seg len : R.
Hypothesis unit_along : ax * ax + ay * ay = 1.
Hypothesis mirror : mm * mm = 1.
Hypothesis perpX_def : perpX = - ay * mm.
Hypothesis perpY_def : perpY = ax * mm.
Hypothesis ro_sq : ro * ro = 2 * (r * r).
Hypothesis seg_def : seg = len / 2 - 2 * r.

Let pt (s p : R) : xy := mkXY (Sx + ax * s + perpX * p) (Sy + ay * s + perpY * p).

Lemma frame_S_C1 :
  (Sx - px (pt r r)) * (Sx - px (pt r r)) + (Sy - py (pt r r)) * (Sy - py (pt r r)) = ro * ro.
Proof. subst pt. cbn. rewrite perpX_def, perpY_def. nsatz. Qed.

Lemma frame_P1_C1 :
  (px (pt r (r - ro)) - px (pt r r)) * (px (pt r (r - ro)) - px (pt r r))
  + (py (pt r (r - ro)) - py (pt r r)) * (py (pt r (r - ro)) - py (pt r r)) = ro * ro.
Proof. subst pt. cbn. rewrite perpX_def, perpY_def. nsatz. Qed.

Lemma frame_P2_C2 :
  (px (pt (r + seg) (r - ro)) - px (pt (r + seg) (- ro)))
  * (px (pt (r + seg) (r - ro)) - px (pt (r + seg) (- ro)))
  + (py (pt (r + seg) (r - ro)) - py (pt (r + seg) (- ro)))
    * (py (pt (r + seg) (r - ro)) - py (pt (r + seg) (- ro))) = r * r.
Proof. subst pt. cbn. rewrite perpX_def, perpY_def. nsatz. Qed.

Lemma frame_PM_C2 :
  (px (pt (len / 2) (- ro)) - px (pt (r + seg) (- ro)))
  * (px (pt (len / 2) (- ro)) - px (pt (r + seg) (- ro)))
  + (py (pt (len / 2) (- ro)) - py (pt (r + seg) (- ro)))
    * (py (pt (len / 2) (- ro)) - py (pt (r + seg) (- ro))) = r * r.
Proof. subst pt. cbn. rewrite perpX_def, perpY_def, seg_def. nsatz. Qed.

End HalfFrame.


(** The path data of a half brace, on the points of the construction of
    [draw45DegBraceHalf]. *)
Lemma half_shape b S E mm :
  half b (px S) (py S) (px E) (py E) mm =
  let g := half_locals S E mm b in
  [ svgM (px S) (py S);
    arcCmd (px (h_C1 g)) (py (h_C1 g)) (h_outerR g) (px S) (py S) (px (h_P1 g)) (py (h_P1 g));
    svgL (px (h_P2 g)) (py (h_P2 g));
    arcCmd (px (h_C2 g)) (py (h_C2 g)) (h_innerR g) (px (h_P2 g)) (py (h_P2 g))
           (px (h_PM g)) (py (h_PM g)) ].
Proof.
  unfold half, half_locals. cbv zeta. cbn [h_C1 h_P1 h_P2 h_C2 h_PM h_outerR h_innerR px py].
  set (L := sqrt ((px E - px S) * (px E - px S) + (py E - py S) * (py E - py S))).
  set (rIn := if truthy (obj_elevation b) || truthy (obj_width b)
              then Rmin (or_else (obj_elevation b) (or_else (obj_width b) 0)) (L / 6)
              else L / 6).
  set (seg := Rmax 0 (L / 2 - 2 * rIn)).
  replace (px S + (px E - px S) / L * (rIn + seg) - - (py E - py S) / L * mm * (rIn * sqrt 2))
    with (px S + (px E - px S) / L * (rIn + seg) + - (py E - py S) / L * mm * - (rIn * sqrt 2))
    by ring.
  replace (py S + (py E - py S) / L * (rIn + seg) - (px E - px S) / L * mm * (rIn * sqrt 2))
    with (py S + (py E - py S) / L * (rIn + seg) + (px E - px S) / L * mm * - (rIn * sqrt 2))
    by ring.
  replace (px S + (px E - px S) / L * (L / 2) - - (py E - py S) / L * mm * (rIn * sqrt 2))
    with (px S + (px E - px S) / L * (L / 2) + - (py E - py S) / L * mm * - (rIn * sqrt 2))
    by ring.
  replace (py S + (py E - py S) / L * (L / 2) - (px E - px S) / L * mm * (rIn * sqrt 2))
    with (py S + (py E - py S) / L * (L / 2) + (px E - px S) / L * mm * - (rIn * sqrt 2))
    by ring.
  reflexivity.
Qed.

Lemma half_same_path S E mm b current calls data :
  mm = 1 \/ mm = -1 ->
  20 <= half_length S E -> 0 <= elevation_or_width b ->
  same_path (Some (h_PM (half_locals S E mm b))) calls data ->
  same_path current (draw45DegBraceHalf S E mm b ++ calls)
            (half b (px S) (py S) (px E) (py E) mm ++ data).
Proof.
  intros Hmm Hlen Helev Hrest.
  pose proof (half_length_sq S E) as Hsq.
  destruct (half_locals_radius S E mm b Hlen Helev) as (Hr & Hro & Hseg & _).
  rewrite half_shape. cbv zeta.
  unfold draw45DegBraceHalf. fold (half_length S E).
  destruct (Rlt_dec (half_length S E) 20) as [Hlt|_]; [lra|].
  cbv zeta. set (g := half_locals S E mm b) in *.
  assert (HL : half_length S E <> 0) by lra.
  assert (Hs2 : 0 < sqrt 2) by (apply sqrt_lt_R0; lra).
  assert (Hs2sq : sqrt 2 * sqrt 2 = 2) by (apply sqrt_sqrt; lra).
  assert (Hrop : 0 < h_outerR g) by (rewrite Hro; apply Rmult_lt_0_compat; lra).
  assert (Hunit : h_alongX g * h_alongX g + h_alongY g * h_alongY g = 1).
  { unfold g, half_locals. fold (half_length S E). cbn [h_alongX h_alongY].
    replace ((px E - px S) / half_length S E * ((px E - px S) / half_length S E)
             + (py E - py S) / half_length S E * ((py E - py S) / half_length S E))
      with (((px E - px S) * (px E - px S) + (py E - py S) * (py E - py S))
            / (half_length S E * half_length S E)) by (field; assumption).
    rewrite <- Hsq. field. assumption. }
  assert (Hmsq : mm * mm = 1) by (destruct Hmm; subst mm; ring).
  assert (Hrosq : h_outerR g * h_outerR g = 2 * (h_innerR g * h_innerR g)).
  { rewrite Hro.
    replace (h_innerR g * sqrt 2 * (h_innerR g * sqrt 2))
      with (h_innerR g * h_innerR g * (sqrt 2 * sqrt 2)) by ring.
    rewrite Hs2sq. ring. }
  assert (HpX : - (py E - py S) / half_length S E * mm = - h_alongY g * mm).
  { unfold g, half_locals. fold (half_length S E). cbn [h_alongY]. field. assumption. }
  assert (HpY : (px E - px S) / half_length S E * mm = h_alongX g * mm).
  { unfold g, half_locals. fold (half_length S E). cbn [h_alongX]. reflexivity. }
  pose proof (frame_S_C1 (px S) (py S) _ _ _ _ mm _ _ _ (half_length S E)
                Hunit Hmsq HpX HpY Hrosq Hseg) as D1.
  pose proof (frame_P1_C1 (px S) (py S) _ _ _ _ mm _ _ _ (half_length S E)
                Hunit Hmsq HpX HpY Hrosq Hseg) as D2.
  pose proof (frame_P2_C2 (px S) (py S) _ _ _ _ mm _ _ _ (half_length S E)
                Hunit Hmsq HpX HpY Hrosq Hseg) as D3.
  pose proof (frame_PM_C2 (px S) (py S) _ _ _ _ mm _ _ _ (half_length S E)
                Hunit Hmsq HpX HpY Hrosq Hseg) as D4.
  cbn [px py] in D1, D2, D3, D4.
  cbn [app same_path]. unfold arcCmd. cbv zeta.
  split; [reflexivity|]. split; [reflexivity|].
  split; [reflexivity|]. split; [reflexivity|]. split; [reflexivity|].
  split; [apply sweepFlag_ccw|].
  split; [apply (at_angle_atan2 (mkXY _ _) _ (mkXY _ _) Hrop); exact D1|].
  split; [apply (at_angle_atan2 (mkXY _ _) _ (mkXY _ _) Hrop); exact D2|].
  split; [reflexivity|]. split; [reflexivity|].
  split; [reflexivity|]. split; [reflexivity|]. split; [reflexivity|].
  split; [apply sweepFlag_ccw|].
  split; [apply (at_angle_atan2 (mkXY _ _) _ (mkXY _ _) (proj1 Hr)); exact D3|].
  split; [apply (at_angle_atan2 (mkXY _ _) _ (mkXY _ _) (proj1 Hr)); exact D4|].
  destruct (h_PM g). exact Hrest.
Qed.


(** X27.  The SVG export of a brace describes the curve the canvas draws: for
    each of the three styles the path data of [generateBraceSVG] has the
    commands of the calls of [drawBrace], with the same points, radii and
    turning directions, and it is empty exactly when the canvas draws
    nothing. *)
Theorem svg_brace_matches_canvas (v : view) (b : plot_object) :
  0 <= elevation_or_width b ->
  same_path None (drawBrace v b) (generateBraceSVG v b).
Proof.
  intros Helev. unfold drawBrace, generateBraceSVG. cbv zeta.
  set (S := plotToCanvas v (mkXY (obj_x1 b) (obj_y1 b))).
  set (E := plotToCanvas v (mkXY (obj_x2 b) (obj_y2 b))).
  destruct (bool_decide (_ = "traditional"%string)).
  { unfold drawTraditionalBrace, generateTraditionalBraceSVG. cbv zeta. fold S E.
    destruct (Rlt_dec _ 20); [reflexivity|].
    cbn [same_path]. repeat split; reflexivity. }
  destruct (bool_decide (_ = "45deg"%string)).
  2: { unfold drawSmoothBrace, generateSmoothBraceSVG. cbv zeta. fold S E.
       cbn [same_path]. repeat split; reflexivity. }
  unfold draw45DegBrace, generate45DegBraceSVG. cbv zeta. fold S E.
  fold (half_length S E).
  destruct (Rlt_dec (half_length S E) 20) as [Hlt|Hge].
  - unfold draw45DegBraceHalf. fold (half_length S E).
    replace (sqrt ((px S - px E) * (px S - px E) + (py S - py E) * (py S - py E)))
      with (half_length S E) by (unfold half_length; f_equal; ring).
    destruct (Rlt_dec (half_length S E) 20); [|contradiction]. reflexivity.
  - apply Rnot_lt_le in Hge.
    assert (Hge' : 20 <= half_length E S) by (rewrite half_length_sym; assumption).
    assert (Hmm : mirror_multiplier b = 1 \/ mirror_multiplier b = -1).
    { unfold mirror_multiplier. destruct (obj_mirrored b); [right|left]; reflexivity. }
    assert (Hmm' : - mirror_multiplier b = 1 \/ - mirror_multiplier b = -1)
      by (destruct Hmm; [right|left]; lra).
    cbn [app same_path].
    apply half_same_path; try assumption.
    rewrite <- (app_nil_r (half b (px E) (py E) (px S) (py S) (mirror_multiplier b))).
    apply half_same_path; try assumption.
    reflexivity.
Qed.

Lemma svg_brace_matches_canvas_witness :
  same_path None (drawBrace default_view sample_brace)
            (generateBraceSVG default_view sample_brace).
Proof.
  apply svg_brace_matches_canvas.
  unfold elevation_or_width, sample_brace, brace_object, or_else. cbn.
  destruct (Req_dec_T 15 0); lra.
Defined.

End SvgFacts.

Module XmlFacts.
Import Xml.
Local Open Scope string_scope.

Lemma append_cons a (s t : string) : String a s ++ t = String a (s ++ t).
Proof. reflexivity. Qed.

Lemma append_assoc (s t u : string) : (s ++ t) ++ u = s ++ (t ++ u).
Proof.
  induction s as [|a s IH]; [reflexivity|].
  rewrite !append_cons. f_equal. exact IH.
Qed.

Lemma replace_all_app c by_text s t :
  replace_all c by_text (s ++ t) = replace_all c by_text s ++ replace_all c by_text t.
Proof.
  induction s as [|a s IH]; [reflexivity|].
  rewrite append_cons. cbn [replace_all].
  destruct (Ascii.eqb a c); rewrite IH; [symmetry; apply append_assoc | reflexivity].
Qed.

(** The five passes amount to one pass that escapes each character. *)
Lemma escapeXML_cons a s : escapeXML (String a s) = escape_char a ++ escapeXML s.
Proof.
  unfold escapeXML, escape_char. cbn [replace_all].
  destruct (Ascii.eqb a "&") eqn:E1.
  { rewrite !replace_all_app. reflexivity. }
  cbn [replace_all]. destruct (Ascii.eqb a "<") eqn:E2.
  { rewrite !replace_all_app. reflexivity. }
  cbn [replace_all]. destruct (Ascii.eqb a ">") eqn:E3.
  { rewrite !replace_all_app. reflexivity. }
  cbn [replace_all]. destruct (Ascii.eqb a dquote) eqn:E4.
  { rewrite !replace_all_app. reflexivity. }
  cbn [replace_all]. destruct (Ascii.eqb a "'") eqn:E5; reflexivity.
Qed.

Lemma list_ascii_app s t :
  list_ascii_of_string (s ++ t) = (list_ascii_of_string s ++ list_ascii_of_string t)%list.
Proof.
  induction s as [|a s IH]; [reflexivity|].
  rewrite append_cons. cbn [list_ascii_of_string app]. f_equal. exact IH.
Qed.

Lemma escape_char_no_markup a :
  Forall (fun c => ~ markup c) (list_ascii_of_string (escape_char a)).
Proof.
  unfold escape_char.
  destruct (Ascii.eqb a "&") eqn:E1; [|
  destruct (Ascii.eqb a "<") eqn:E2; [|
  destruct (Ascii.eqb a ">") eqn:E3; [|
  destruct (Ascii.eqb a dquote) eqn:E4; [|
  destruct (Ascii.eqb a "'") eqn:E5]]]];
    cbn [list_ascii_of_string];
    repeat constructor; unfold markup; intros [H|[H|[H|H]]]; try discriminate.
  - subst. discriminate.
  - subst. discriminate.
  - subst. discriminate.
  - subst. discriminate.
Qed.

(** X28.  The text [escapeXML] returns holds no [<], no [>] and no quote of
    either kind, and a text without [&] and without these is returned as it
    is. *)
Theorem escapeXML_no_markup (text : string) :
  Forall (fun c => ~ markup c) (list_ascii_of_string (escapeXML text)) /\
  (Forall (fun c => c <> "&"%char /\ ~ markup c) (list_ascii_of_string text) ->
   escapeXML text = text).
Proof.
  split.
  - induction text as [|a s IH]; [constructor|].
    rewrite escapeXML_cons, list_ascii_app. apply Forall_app. split; [|exact IH].
    apply escape_char_no_markup.
  - induction text as [|a s IH]; [reflexivity|].
    cbn [list_ascii_of_string]. intros H. inversion H as [|? ? [Ha Hm] Hs]; subst.
    rewrite escapeXML_cons, (IH Hs). unfold escape_char, markup in *.
    destruct (Ascii.eqb_spec a "&"); [contradiction|].
    destruct (Ascii.eqb_spec a "<"); [tauto|].
    destruct (Ascii.eqb_spec a ">"); [tauto|].
    destruct (Ascii.eqb_spec a dquote); [tauto|].
    destruct (Ascii.eqb_spec a "'"); [tauto|].
    reflexivity.
Qed.

Lemma escape_char_prefix a b x y :
  escape_char a ++ x = escape_char b ++ y -> a = b /\ x = y.
Proof.
  unfold escape_char.
  destruct (Ascii.eqb_spec a "&"); [subst|
  destruct (Ascii.eqb_spec a "<"); [subst|
  destruct (Ascii.eqb_spec a ">"); [subst|
  destruct (Ascii.eqb_spec a dquote); [subst|
  destruct (Ascii.eqb_spec a "'"); [subst|]]]]];
  (destruct (Ascii.eqb_spec b "&"); [subst|
   destruct (Ascii.eqb_spec b "<"); [subst|
   destruct (Ascii.eqb_spec b ">"); [subst|
   destruct (Ascii.eqb_spec b dquote); [subst|
   destruct (Ascii.eqb_spec b "'"); [subst|]]]]]);
  cbv beta iota delta [String.append]; intros H; try discriminate H;
    try (injection H as ?; subst; split; reflexivity);
    try (injection H as ?; subst; split; congruence);
    try (injection H as ?; subst; congruence).
Qed.

Lemma escape_char_nonempty a x : escape_char a ++ x <> EmptyString.
Proof.
  unfold escape_char.
  repeat (destruct (Ascii.eqb _ _); [discriminate|]). discriminate.
Qed.

(** X29.  [escapeXML] loses nothing: two texts have the same escaped text only
    when they are the same text. *)
Theorem escapeXML_injective (s t : string) :
  escapeXML s = escapeXML t <-> s = t.
Proof.
  split; [|intros ->; reflexivity].
  revert t. induction s as [|a s IH]; intros [|b t] H.
  - reflexivity.
  - rewrite escapeXML_cons in H. symmetry in H. apply escape_char_nonempty in H. contradiction.
  - rewrite escapeXML_cons in H. apply escape_char_nonempty in H. contradiction.
  - rewrite !escapeXML_cons in H. apply escape_char_prefix in H as [-> H].
    f_equal. apply IH, H.
Qed.

End XmlFacts.
